(** * EagleEyeTester: credential exchange, reconnecting streamer,
    latency profiler

    A shallow embedding of [eagle_eye_tester.py].  The methods of the class
    [EagleEyeTester] are functions in a state-and-exception monad over an
    explicit world: the HTTP service is an oracle answering the n-th call to
    each endpoint; time passes while a blocking operation (request, read,
    sleep) is pending and, by an amount that the world gives, between the
    interactions of the program; every interaction with the outside
    (request, read, close, sleep, print) is appended to a trace.

    A Python [float] is the rational number that the binary64 value
    denotes.  [time.time()] returns the binary64 number nearest to the
    time, and an operation on floats is the exact operation followed by
    rounding to the nearest binary64 number, ties to even; the range of
    the exponent is not bounded.  [int(...)] is truncation toward zero. *)

From Stdlib Require Import ZArith QArith Qround Qabs Qpower Qreduction.
From Stdlib Require Import List String Bool Lia Lqa Sorted Permutation.
Import ListNotations.

Local Open Scope Z_scope.

(** ** Module constants *)

Definition CHUNK_SIZE : Z := 1024 * 10.
Definition SLOW_FETCH_THRESHOLD_MS : Z := 5000.
Definition DEFAULT_RUNS : Z := 1.
Definition DEFAULT_DELAY_BETWEEN_RUNS_SECONDS : Z := 60.

(** ** Numbers *)

(** Round to the nearest integer, ties to even. *)
Definition rne (x : Q) : Z :=
  let f := Qfloor x in
  match (x - inject_Z f ?= 1 # 2)%Q with
  | Lt => f
  | Gt => f + 1
  | Eq => if Z.even f then f else f + 1
  end.

(** The exponent [e] with [2 ^ e <= |q| < 2 ^ (e + 1)], for [q] not 0. *)
Definition binade (q : Q) : Z :=
  let e := Z.log2 (Z.abs (Qnum q)) - Z.log2 (Zpos (Qden q)) in
  if Qle_bool (2 ^ e) (Qabs q) then e else e - 1.

(** The binary64 number nearest to [q]: 53 bits of precision, ties to
    even. *)
Definition round64 (q : Q) : Q :=
  if Qeq_bool q 0 then 0%Q
  else
    let ulp := (2 ^ (binade q - 52))%Q in
    Qred (inject_Z (rne (q / ulp)) * ulp).

(** Python's [a + b], [a - b], [a * b] and [a / b] on floats.  An [int]
    operand is converted to a float first; a rational that is not a
    binary64 number stands for the one nearest to it. *)
Definition fadd (a b : Q) : Q := round64 (round64 a + round64 b).
Definition fsub (a b : Q) : Q := round64 (round64 a - round64 b).
Definition fmul (a b : Q) : Q := round64 (round64 a * round64 b).
Definition fdiv (a b : Q) : Q := round64 (round64 a / round64 b).

(** Python's [int(x)] on a float: truncation toward zero. *)
Definition int_of_float (x : Q) : Z :=
  if Qle_bool 0 x then Qfloor x else Qceiling x.

(** [int(x * 1000)], the idiom used for every millisecond figure. *)
Definition millis (x : Q) : Z := int_of_float (fmul x 1000).

(** ** Data *)

(** The validated configuration object ([get_config]). *)
Record Config := {
  email : string;
  password : string;
  auth_token : string;
  cameras : list (string * string);
  delay_between_runs_seconds : Z
}.

(** Exceptions that can leave a method. *)
Inductive exn :=
| AuthenticationFailed (code : Z)
| AuthorizationFailed (code : Z)
| PlaybackFailed (camera_name : string) (code : Z)
| JSONDecodeError
| KeyError (key : string)
| IndexError
| ZeroDivisionError
| ValueError
| StatisticsError
| RequestException
| CookieConflictError
| KeyboardInterrupt.

(** What the outside can do to a blocking call instead of answering. *)
Inductive io_fault := ConnectionFault | Interrupt.

Definition exn_of_fault (f : io_fault) : exn :=
  match f with
  | ConnectionFault => RequestException
  | Interrupt => KeyboardInterrupt
  end.

(** Response of [requests.post]: status, body (when it parses as JSON) and
    the cookies of the response, each a name and a value. *)
Record PostResponse := {
  post_status_code : Z;
  post_json : option string;
  post_cookies : list (string * string)
}.

Inductive stream_end := EndOfStream | Broken (f : io_fault).

(** Response of [requests.get(..., stream=True)]: status, how long
    [raw.read(1)] blocks and whether it fails, and the chunks that
    [iter_content(chunk_size)] yields, each with the time it takes to
    arrive and its length, followed by the way the stream ends. *)
Record GetResponse := {
  status_code : Z;
  raw_read : Q * option io_fault;
  content : Z -> list (Q * Z);
  content_end : Q * stream_end
}.

(** A stream handle: the index of the GET that opened it, and its response. *)
Definition Stream : Type := nat * GetResponse.

(** The service: the answer to the n-th call of each endpoint, with the
    time the call blocks. *)
Record Env := {
  authenticate_at : nat -> Q * (PostResponse + io_fault);
  authorize_at : nat -> Q * (PostResponse + io_fault);
  playback_at : nat -> Q * (GetResponse + io_fault)
}.

(** Lines printed by the program, one constructor per format string. *)
Inductive msg :=
| MsgRequestTook (request_name : string) (ms : Z)
| MsgMakingAuthentication
| MsgMakingAuthorize
| MsgMakingPlayback (camera_name : string)
| MsgNoAuthKey
| MsgFetchFailed (sleep_duration : Z)
| MsgSlowChunk (counter : Z) (fetch_duration : Z)
| MsgProgress (total_size : Z) (ms : Z)
| MsgPlaybackUp (ms : Z) (total_size : Z)
| MsgWaiting (delay : Z)
| MsgLoadTime (camera : string) (min_ms avg_ms median_ms max_ms : Z).

Inductive event :=
| EPrint (m : msg)
| ESleep (seconds : Z)
| EAuthenticate (username pass token : string)
| EAuthorize (body : string) (token : string)
| EPlayback (h : nat) (camera_id : string) (start_time : Z)
            (auth_key : option string)
| ERawRead (h : nat)
| EClose (h : nat).

(** The clock of the world: the time, the number of readings so far, and
    the time that the program takes, between its last interaction and
    each reading, to get there. *)
Record Clock := {
  clock_time : Q;
  clock_reads : nat;
  clock_lag : nat -> Q
}.

(** Time passes. *)
Definition wait (d : Q) (c : Clock) : Clock :=
  {| clock_time := (clock_time c + d)%Q;
     clock_reads := clock_reads c;
     clock_lag := clock_lag c |}.

(** A reading: the time the program took to get there has passed, and
    the time is read as a float. *)
Definition read (c : Clock) : Q * Clock :=
  let t := (clock_time c + clock_lag c (clock_reads c))%Q in
  (round64 t,
   {| clock_time := t;
      clock_reads := S (clock_reads c);
      clock_lag := clock_lag c |}).

Record State := {
  clock : Clock;
  authenticate_calls : nat;
  authorize_calls : nat;
  playback_calls : nat;
  trace : list event
}.

(** The world at time [t], for a program that takes no time of its own. *)
Definition world_at (t : Q) : State :=
  {| clock := {| clock_time := t; clock_reads := 0;
                 clock_lag := fun _ => 0%Q |};
     authenticate_calls := 0; authorize_calls := 0;
     playback_calls := 0; trace := [] |}.

Definition initial_state : State := world_at 0.

(** The world at time [t] for a program that takes [lag n] to get to its
    reading number [n] of the clock. *)
Definition world_with (t : Q) (lag : nat -> Q) : State :=
  {| clock := {| clock_time := t; clock_reads := 0; clock_lag := lag |};
     authenticate_calls := 0; authorize_calls := 0;
     playback_calls := 0; trace := [] |}.

(** ** The monad *)

Inductive result (A : Type) :=
| Ok (a : A)
| Raise (e : exn).
Arguments Ok {A} a.
Arguments Raise {A} e.

Definition M (A : Type) : Type := State -> result A * State.

Definition ret {A} (a : A) : M A := fun s => (Ok a, s).

Definition raise {A} (e : exn) : M A := fun s => (Raise e, s).

Definition bind {A B} (c : M A) (k : A -> M B) : M B :=
  fun s => match c s with
           | (Ok a, s') => k a s'
           | (Raise e, s') => (Raise e, s')
           end.

Declare Scope tester_scope.
Delimit Scope tester_scope with tester.
Notation "x <- c ;; k" := (bind c (fun x => k))
  (at level 61, c at next level, right associativity) : tester_scope.
Notation "c ;; k" := (bind c (fun _ => k))
  (at level 61, right associativity) : tester_scope.
Local Open Scope tester_scope.

Definition when (b : bool) (c : M unit) : M unit :=
  if b then c else ret tt.

(** ** Primitive interactions *)

Definition emit (e : event) : M unit :=
  fun s => (Ok tt,
            {| clock := clock s;
               authenticate_calls := authenticate_calls s;
               authorize_calls := authorize_calls s;
               playback_calls := playback_calls s;
               trace := trace s ++ [e] |}).

(** Time passes while the program is blocked. *)
Definition elapse (d : Q) : M unit :=
  fun s => (Ok tt,
            {| clock := wait d (clock s);
               authenticate_calls := authenticate_calls s;
               authorize_calls := authorize_calls s;
               playback_calls := playback_calls s;
               trace := trace s |}).

(** [time.time()] *)
Definition time_time : M Q :=
  fun s => (Ok (fst (read (clock s))),
            {| clock := snd (read (clock s));
               authenticate_calls := authenticate_calls s;
               authorize_calls := authorize_calls s;
               playback_calls := playback_calls s;
               trace := trace s |}).

(** [print(...)] *)
Definition print (m : msg) : M unit := emit (EPrint m).

(** [time.sleep(seconds)] *)
Definition time_sleep (seconds : Z) : M unit :=
  if seconds <? 0 then raise ValueError
  else emit (ESleep seconds) ;; elapse (inject_Z seconds).

Definition answer {A} (r : A + io_fault) : M A :=
  match r with
  | inl a => ret a
  | inr f => raise (exn_of_fault f)
  end.

Section Service.

Variable env : Env.

(** [requests.post(AUTHENTICATE_URL, data=auth_data, headers=auth_headers)] *)
Definition post_authenticate (username pass token : string) : M PostResponse :=
  fun s =>
    let n := authenticate_calls s in
    (emit (EAuthenticate username pass token) ;;
     elapse (fst (authenticate_at env n)) ;;
     answer (snd (authenticate_at env n)))
      {| clock := clock s;
         authenticate_calls := S n;
         authorize_calls := authorize_calls s;
         playback_calls := playback_calls s;
         trace := trace s |}.

(** [requests.post(AUTHORIZE_URL, data=json_response, headers=auth_headers)] *)
Definition post_authorize (body token : string) : M PostResponse :=
  fun s =>
    let n := authorize_calls s in
    (emit (EAuthorize body token) ;;
     elapse (fst (authorize_at env n)) ;;
     answer (snd (authorize_at env n)))
      {| clock := clock s;
         authenticate_calls := authenticate_calls s;
         authorize_calls := S n;
         playback_calls := playback_calls s;
         trace := trace s |}.

(** [requests.get(PLAYBACK_URL, params=playback_data, stream=True)] *)
Definition get_playback (camera_id : string) (start_time : Z)
    (auth_key : option string) : M Stream :=
  fun s =>
    let n := playback_calls s in
    (emit (EPlayback n camera_id start_time auth_key) ;;
     elapse (fst (playback_at env n)) ;;
     r <- answer (snd (playback_at env n)) ;;
     ret (n, r))
      {| clock := clock s;
         authenticate_calls := authenticate_calls s;
         authorize_calls := authorize_calls s;
         playback_calls := S n;
         trace := trace s |}.

End Service.

(** [playback_stream.raw.read(1)] *)
Definition raw_read1 (st : Stream) : M unit :=
  emit (ERawRead (fst st)) ;;
  elapse (fst (raw_read (snd st))) ;;
  match snd (raw_read (snd st)) with
  | None => ret tt
  | Some f => raise (exn_of_fault f)
  end.

(** [playback_stream.close()] *)
Definition close (st : Stream) : M unit := emit (EClose (fst st)).

(** [RequestsCookieJar._find_no_duplicates(name)], the loop over the
    cookies of the jar (module [requests.cookies]): a second cookie of
    that name raises [CookieConflictError]. *)
Fixpoint find_no_duplicates (name : string) (jar : list (string * string))
    (toReturn : option string) : exn + option string :=
  match jar with
  | [] => inr toReturn
  | (cookie_name, cookie_value) :: rest =>
      if String.eqb cookie_name name then
        match toReturn with
        | Some _ => inl CookieConflictError
        | None => find_no_duplicates name rest (Some cookie_value)
        end
      else find_no_duplicates name rest toReturn
  end.

(** [cookies.get(name)]: the value found when it is not empty, [None]
    otherwise (the [KeyError] of [_find_no_duplicates] is caught and the
    default returned). *)
Definition cookies_get (name : string) (jar : list (string * string))
    : M (option string) :=
  match find_no_duplicates name jar None with
  | inl e => raise e
  | inr (Some value) =>
      match value with
      | EmptyString => ret None
      | _ => ret (Some value)
      end
  | inr None => ret None
  end.

(** [self.config['cameras'][camera_name]] *)
Fixpoint lookup {A} (key : string) (d : list (string * A)) : option A :=
  match d with
  | [] => None
  | (k, v) :: rest => if String.eqb k key then Some v else lookup key rest
  end.

(** ** EagleEyeTester *)

Section EagleEyeTester.

Variable env : Env.
Variable config : Config.
Variable verbose : bool.

(** [time_request(request_name, requestor)] *)
Definition time_request {A} (request_name : string) (requestor : M A) : M A :=
  start_time <- time_time ;;
  response <- requestor ;;
  end_time <- time_time ;;
  when verbose
    (print (MsgRequestTook request_name
              (millis (fsub end_time start_time)))) ;;
  ret response.

(** [get_auth_key()] *)
Definition get_auth_key : M (option string) :=
  when verbose (print MsgMakingAuthentication) ;;
  authenticate_response <-
    time_request "Authentication"
      (post_authenticate env (email config) (password config)
                         (auth_token config)) ;;
  if negb (post_status_code authenticate_response =? 200) then
    raise (AuthenticationFailed (post_status_code authenticate_response))
  else
    match post_json authenticate_response with
    | None => raise JSONDecodeError
    | Some json_response =>
        when verbose (print MsgMakingAuthorize) ;;
        authorize_response <-
          time_request "Authorize"
            (post_authorize env json_response (auth_token config)) ;;
        if negb (post_status_code authorize_response =? 200) then
          raise (AuthorizationFailed (post_status_code authorize_response))
        else cookies_get "auth_key" (post_cookies authorize_response)
    end.

(** [make_playback_request(auth_key, camera_name)].  The Python value it
    returns may in principle be [None]; the return type keeps that
    possibility so that the callers' [is None] tests can be written. *)
Definition make_playback_request (auth_key : option string)
    (camera_name : string) : M (option Stream) :=
  match lookup camera_name (cameras config) with
  | None => raise (KeyError camera_name)
  | Some camera_id =>
      t <- time_time ;;
      let start_time := int_of_float t in
      when verbose (print (MsgMakingPlayback camera_name)) ;;
      playback_stream <-
        time_request (camera_name ++ " playback")
          (get_playback env camera_id start_time auth_key) ;;
      if negb (status_code (snd playback_stream) =? 200) then
        raise (PlaybackFailed camera_name (status_code (snd playback_stream)))
      else ret (Some playback_stream)
  end.

(** *** stream_repeatedly *)

(** The variables of the [for] loop over [iter_content]. *)
Record FetchState := {
  fetch_start : Q;
  counter : Z;
  total_size : Z
}.

(** Body of [for i in playback_stream.iter_content(CHUNK_SIZE)], for a chunk
    of length [len_i]. *)
Definition on_chunk (start_fetch_time : Q) (len_i : Z) (st : FetchState)
    : M FetchState :=
  let total_size' := total_size st + len_i in
  fetch_end <- time_time ;;
  let fetch_duration := millis (fsub fetch_end (fetch_start st)) in
  when (fetch_duration >=? SLOW_FETCH_THRESHOLD_MS)
    (print (MsgSlowChunk (counter st) fetch_duration)) ;;
  (if counter st mod 100 =? 0 then
     t <- time_time ;;
     print (MsgProgress total_size' (millis (fsub t start_fetch_time)))
   else ret tt) ;;
  fetch_start' <- time_time ;;
  ret {| fetch_start := fetch_start';
         counter := counter st + 1;
         total_size := total_size' |}.

(** The iterations of the [for] loop: wait for the next chunk, run the
    body. *)
Fixpoint consume (chunks : list (Q * Z)) (start_fetch_time : Q)
    (st : FetchState) : M FetchState :=
  match chunks with
  | [] => ret st
  | (d, len_i) :: rest =>
      elapse d ;;
      st' <- on_chunk start_fetch_time len_i st ;;
      consume rest start_fetch_time st'
  end.

(** The whole [for] loop: after the last chunk the iterator either stops
    or raises what the read raised. *)
Definition iter_content (chunks : list (Q * Z)) (ending : Q * stream_end)
    (start_fetch_time : Q) (st : FetchState) : M FetchState :=
  st' <- consume chunks start_fetch_time st ;;
  elapse (fst ending) ;;
  match snd ending with
  | EndOfStream => ret st'
  | Broken f => raise (exn_of_fault f)
  end.

(** Lines 124 to 141: one streaming session on an open stream. *)
Definition stream_session (playback_stream : Stream) : M unit :=
  start_fetch_time <- time_time ;;
  st <- iter_content (content (snd playback_stream) CHUNK_SIZE)
          (content_end (snd playback_stream)) start_fetch_time
          {| fetch_start := start_fetch_time;
             counter := 1; total_size := 0 |} ;;
  end_fetch_time <- time_time ;;
  print (MsgPlaybackUp (millis (fsub end_fetch_time start_fetch_time))
                       (total_size st)) ;;
  close playback_stream.

Section Loop.

(** The method used to open the stream: [self.make_playback_request]. *)
Variable opener : option string -> string -> M (option Stream).

(** One pass through the body of [while True].  [None] is [return];
    [Some k] goes round again with [failed_iterations = k]. *)
Definition stream_iteration_with (camera_name : string)
    (failed_iterations : Z) : M (option Z) :=
  auth_key <- get_auth_key ;;
  match auth_key with
  | None => print MsgNoAuthKey ;; ret None
  | Some _ =>
      playback_stream <- opener auth_key camera_name ;;
      match playback_stream with
      | None =>
          let sleep_duration := 1 * 2 ^ failed_iterations in
          let failed_iterations := failed_iterations + 1 in
          print (MsgFetchFailed sleep_duration) ;;
          time_sleep sleep_duration ;;
          ret (Some failed_iterations)
      | Some playback_stream =>
          let failed_iterations := 0 in
          stream_session playback_stream ;;
          ret (Some failed_iterations)
      end
  end.

(** [while True], cut after [fuel] passes: [None] when the loop is still
    running at that point. *)
Fixpoint stream_loop_with (fuel : nat) (camera_name : string)
    (failed_iterations : Z) (s : State) : option (result unit) * State :=
  match fuel with
  | O => (None, s)
  | S fuel' =>
      match stream_iteration_with camera_name failed_iterations s with
      | (Raise e, s') => (Some (Raise e), s')
      | (Ok None, s') => (Some (Ok tt), s')
      | (Ok (Some k), s') => stream_loop_with fuel' camera_name k s'
      end
  end.

End Loop.

Definition stream_iteration := stream_iteration_with make_playback_request.

Definition stream_loop := stream_loop_with make_playback_request.

(** [stream_repeatedly(camera_name)] *)
Definition stream_repeatedly (fuel : nat) (camera_name : string)
    : State -> option (result unit) * State :=
  stream_loop fuel camera_name 0.

(** *** test_latency *)

(** [load_times]: camera name to list of samples, in insertion order. *)
Definition dict : Type := list (string * list Q).

(** [d[key] = v] *)
Fixpoint setitem (key : string) (v : list Q) (d : dict) : dict :=
  match d with
  | [] => [(key, v)]
  | (k, x) :: rest =>
      if String.eqb k key then (k, v) :: rest
      else (k, x) :: setitem key v rest
  end.

Definition keys {A} (d : list (string * A)) : list string := map fst d.

(** [range(runs)] *)
Definition range (runs : Z) : list Z :=
  map Z.of_nat (seq 0 (Z.to_nat runs)).

(** A [for] loop that threads the loop-carried value. *)
Fixpoint for_each {A S} (xs : list A) (body : A -> S -> M S) (acc : S)
    : M S :=
  match xs with
  | [] => ret acc
  | x :: rest => acc' <- body x acc ;; for_each rest body acc'
  end.

(** Lines 161 to 169: the body of the loop over the cameras. *)
Definition sample_camera (auth_key : option string) (camera : string)
    (load_times : dict) : M dict :=
  start_time <- time_time ;;
  playback_stream <- make_playback_request auth_key camera ;;
  match playback_stream with
  | Some st => raw_read1 st
  | None => ret tt
  end ;;
  end_time <- time_time ;;
  match playback_stream with
  | Some st => close st
  | None => ret tt
  end ;;
  let load_time := fsub end_time start_time in
  match lookup camera load_times with
  | None => raise (KeyError camera)
  | Some samples => ret (setitem camera (samples ++ [load_time]) load_times)
  end.

(** Lines 155 to 169: one round. *)
Definition run_round (auth_key : option string) (i : Z) (load_times : dict)
    : M dict :=
  when (0 <? i)
    (when verbose (print (MsgWaiting (delay_between_runs_seconds config))) ;;
     time_sleep (delay_between_runs_seconds config)) ;;
  for_each (keys (cameras config)) (sample_camera auth_key) load_times.

(** Lines 149 to 169: the sampling phase, returning [load_times]. *)
Definition collect_load_times (runs : Z) : M dict :=
  auth_key <- get_auth_key ;;
  let load_times :=
    fold_left (fun d camera => setitem camera [] d) (keys (cameras config)) []
  in
  for_each (range runs) (run_round auth_key) load_times.

End EagleEyeTester.

(** [list.sort()]: a stable sort, by insertion. *)
Fixpoint insert (x : Q) (l : list Q) : list Q :=
  match l with
  | [] => [x]
  | y :: rest => if Qle_bool x y then x :: l else y :: insert x rest
  end.

Fixpoint sort (l : list Q) : list Q :=
  match l with
  | [] => []
  | x :: rest => insert x (sort rest)
  end.

(** [sum(l, 0)]: the elements are added from left to right, each addition
    rounded (as CPython before 3.12 does; later versions carry a
    correction term along). *)
Definition sum (l : list Q) : Q := fold_left fadd l 0%Q.

(** [statistics.median(data)]; [None] is [StatisticsError]. *)
Definition median (data : list Q) : option Q :=
  let data := sort data in
  let n := List.length data in
  if Nat.eqb n 0 then None
  else if Nat.eqb (n mod 2) 1 then Some (nth (n / 2) data 0%Q)
  else
    let i := (n / 2)%nat in
    Some (fdiv (fadd (nth (i - 1) data 0%Q) (nth i data 0%Q)) 2).

(** Lines 171 to 180: the body of the loop over [load_times]. *)
Definition report_camera (runs : Z) (camera : string) (load_times : dict)
    : M dict :=
  match lookup camera load_times with
  | None => raise (KeyError camera)
  | Some samples =>
      let sorted := sort samples in
      let load_times := setitem camera sorted load_times in
      match sorted with
      | [] => raise IndexError
      | first :: _ =>
          let min_load_time := millis first in
          let max_load_time := millis (last sorted first) in
          match median sorted with
          | None => raise StatisticsError
          | Some m =>
              let median_load_time := millis m in
              let total_load_time := sum sorted in
              if runs =? 0 then raise ZeroDivisionError
              else
                let avg_load_time :=
                  int_of_float
                    (fdiv (fmul total_load_time 1000) (inject_Z runs)) in
                print (MsgLoadTime camera min_load_time avg_load_time
                                   median_load_time max_load_time) ;;
                ret load_times
          end
      end
  end.

(** Lines 170 to 180. *)
Definition report_load_times (runs : Z) (load_times : dict) : M dict :=
  for_each (keys load_times) (report_camera runs) load_times.

(** [test_latency(runs)] *)
Definition test_latency (env : Env) (config : Config) (verbose : bool)
    (runs : Z) : M unit :=
  load_times <- collect_load_times env config verbose runs ;;
  report_load_times runs load_times ;;
  ret tt.

(** ** Observations on traces *)

Definition sleeps (tr : list event) : list Z :=
  flat_map (fun e => match e with ESleep d => [d] | _ => [] end) tr.

Definition closes (tr : list event) : list nat :=
  flat_map (fun e => match e with EClose h => [h] | _ => [] end) tr.

(** The playback requests sent: camera identifier and token of each. *)
Definition playbacks (tr : list event) : list (string * option string) :=
  flat_map (fun e => match e with
                     | EPlayback _ id _ key => [(id, key)]
                     | _ => []
                     end) tr.

Definition prints (tr : list event) : list msg :=
  flat_map (fun e => match e with EPrint m => [m] | _ => [] end) tr.

(** Slow-chunk diagnostics: sequence number and duration of each. *)
Definition slow_chunks (tr : list event) : list (Z * Z) :=
  flat_map (fun e => match e with
                     | EPrint (MsgSlowChunk n ms) => [(n, ms)]
                     | _ => []
                     end) tr.

(** The per-camera reports of the latency test. *)
Definition reports (tr : list event) : list msg :=
  flat_map (fun e => match e with
                     | EPrint (MsgLoadTime c a b m d) => [MsgLoadTime c a b m d]
                     | _ => []
                     end) tr.

(** What the body of the loop does to the clock for the chunk numbered
    [n]: a reading at the top, one more before a progress line, and the
    reading that becomes the next [fetch_start], returned with the clock
    it leaves. *)
Definition handled (n : Z) (c : Clock) : Q * Clock :=
  let c1 := snd (read c) in
  let c2 := if n mod 100 =? 0 then snd (read c1) else c1 in
  read c2.

(** The fetches of a loop entered at chunk number [n] with [fetch_start]
    on the clock [c]: for each chunk its number and its fetch duration,
    in whole milliseconds, from [fetch_start] to the reading taken when
    the chunk has arrived. *)
Fixpoint fetches (n : Z) (fetch_start : Q) (c : Clock)
    (chunks : list (Q * Z)) : list (Z * Z) :=
  match chunks with
  | [] => []
  | (d, _) :: rest =>
      let arrived := wait d c in
      (n, millis (fsub (fst (read arrived)) fetch_start))
      :: fetches (n + 1) (fst (handled n arrived)) (snd (handled n arrived))
           rest
  end.

(** The fetches that reach the threshold. *)
Definition slow (fetched : list (Z * Z)) : list (Z * Z) :=
  filter (fun f => snd f >=? SLOW_FETCH_THRESHOLD_MS) fetched.

(** The times at which the chunks of such a loop arrive. *)
Fixpoint arrivals (n : Z) (c : Clock) (chunks : list (Q * Z)) : list Q :=
  match chunks with
  | [] => []
  | (d, _) :: rest =>
      let arrived := wait d c in
      clock_time arrived :: arrivals (n + 1) (snd (handled n arrived)) rest
  end.

Definition sizes (chunks : list (Q * Z)) : Z :=
  fold_right Z.add 0 (map snd chunks).

(** The values of the cookies of a name. *)
Definition cookie_values (name : string) (jar : list (string * string))
    : list string :=
  map snd (filter (fun cookie => String.eqb (fst cookie) name) jar).

(** The credential exchange at call indices [i], [j] goes through: both
    answers have status 200, the first one parses and the second one has
    at most one [auth_key] cookie. *)
Definition exchange_ok (env : Env) (i j : nat) : bool :=
  match snd (authenticate_at env i), snd (authorize_at env j) with
  | inl a, inl z =>
      (post_status_code a =? 200)
      && match post_json a with Some _ => true | None => false end
      && (post_status_code z =? 200)
      && (List.length (cookie_values "auth_key" (post_cookies z)) <=? 1)%nat
  | _, _ => false
  end.

(** The n-th playback call opens a stream whose first byte arrives. *)
Definition first_byte_ok (env : Env) (n : nat) : bool :=
  match snd (playback_at env n) with
  | inl r =>
      (status_code r =? 200)
      && match snd (raw_read r) with Some _ => false | None => true end
  | inr _ => false
  end.

(** ** Framing *)

Definition is_playback (e : event) : bool :=
  match e with EPlayback _ _ _ _ => true | _ => false end.

(** [s'] is [s] with events of class [P] appended to the trace, the
    playback calls counted being those that appear there. *)
Definition grows (P : event -> bool) (s s' : State) : Prop :=
  exists evs,
    trace s' = trace s ++ evs /\
    forallb P evs = true /\
    playback_calls s' =
    (playback_calls s + List.length (filter is_playback evs))%nat.

(** A computation that only emits events of class [P], whatever its
    outcome. *)
Definition only (P : event -> bool) {A} (c : M A) : Prop :=
  forall s, grows P s (snd (c s)).

(** Events that none of the observers above looks at. *)
Definition chatter (e : event) : bool :=
  match e with
  | EPrint (MsgSlowChunk _ _) | EPrint (MsgLoadTime _ _ _ _ _)
  | EPrint (MsgFetchFailed _) => false
  | EPrint _ | EAuthenticate _ _ _ | EAuthorize _ _ | ERawRead _ => true
  | ESleep _ | EPlayback _ _ _ _ | EClose _ => false
  end.

Definition is_sleep (e : event) : bool :=
  match e with ESleep _ => true | _ => false end.

Definition is_close (e : event) : bool :=
  match e with EClose _ => true | _ => false end.

Definition is_slow_chunk (e : event) : bool :=
  match e with EPrint (MsgSlowChunk _ _) => true | _ => false end.

Definition is_report (e : event) : bool :=
  match e with EPrint (MsgLoadTime _ _ _ _ _) => true | _ => false end.

(** What only the backoff branch of [stream_repeatedly] emits. *)
Definition backoff_event (e : event) : bool :=
  match e with
  | ESleep _ | EPrint (MsgFetchFailed _) => true
  | _ => false
  end.

(** Event classes of the parts of the program. *)
Definition open_event (e : event) : bool := chatter e || is_playback e.

Definition chunk_event (e : event) : bool := chatter e || is_slow_chunk e.

Definition session_event (e : event) : bool := chunk_event e || is_close e.

Definition streaming_event (e : event) : bool :=
  open_event e || session_event e.

(** Every stream opened between [s] and [s'] has been closed, once, in
    the order of opening. *)
Definition balanced (s s' : State) : Prop :=
  (playback_calls s <= playback_calls s')%nat /\
  closes (trace s') =
  closes (trace s)
  ++ seq (playback_calls s) (playback_calls s' - playback_calls s).

(** ** Scenarios *)

Module Scenario.

Local Open Scope string_scope.

Definition front_config : Config :=
  {| email := "user@example.com"; password := "secret"; auth_token := "api";
     cameras := [("front", "100")];
     delay_between_runs_seconds := DEFAULT_DELAY_BETWEEN_RUNS_SECONDS |}.

Definition two_cameras : Config :=
  {| email := "user@example.com"; password := "secret"; auth_token := "api";
     cameras := [("front", "100"); ("back", "200")];
     delay_between_runs_seconds := 0 |}.

Definition authenticate_ok : Q * (PostResponse + io_fault) :=
  (0%Q, inl {| post_status_code := 200; post_json := Some "{}";
               post_cookies := [] |}).

Definition authorize_ok : Q * (PostResponse + io_fault) :=
  (0%Q, inl {| post_status_code := 200; post_json := None;
               post_cookies := [("auth_key", "key")] |}).

Definition authorize_without_cookie : Q * (PostResponse + io_fault) :=
  (0%Q, inl {| post_status_code := 200; post_json := None;
               post_cookies := [] |}).

(** A stream that answers with [code], whose first byte takes [d], and
    whose body is [chunks] followed by [ending]. *)
Definition stream (code : Z) (d : Q) (chunks : list (Q * Z))
    (ending : stream_end) : Q * (GetResponse + io_fault) :=
  (0%Q, inl {| status_code := code; raw_read := (d, None);
               content := fun _ => chunks; content_end := (0%Q, ending) |}).

(** Scenario 1: first-byte latencies of 100 ms, 300 ms, 200 ms. *)
Definition latencies : Env :=
  {| authenticate_at := fun _ => authenticate_ok;
     authorize_at := fun _ => authorize_ok;
     playback_at := fun n =>
       stream 200 (nth n [1 # 10; 3 # 10; 2 # 10]%Q 0%Q) [] EndOfStream |}.

Definition three_chunks : list (Q * Z) :=
  [((10 # 1000)%Q, 10240); (6%Q, 10240); ((20 # 1000)%Q, 5000)].

(** Scenario 2: chunks of 10240, 10240, 5000 bytes arriving after 10 ms,
    6000 ms, 20 ms. *)
Definition slow_second_chunk : Env :=
  {| authenticate_at := fun _ => authenticate_ok;
     authorize_at := fun _ => authorize_ok;
     playback_at := fun _ => stream 200 0%Q three_chunks EndOfStream |}.

(** Scenario 3: the playback request is refused three times, then
    accepted. *)
Definition three_refusals : Env :=
  {| authenticate_at := fun _ => authenticate_ok;
     authorize_at := fun _ => authorize_ok;
     playback_at := fun n =>
       stream (if (n <? 3)%nat then 500 else 200) 0%Q [] EndOfStream |}.

(** Scenario 4: the authorize answer carries no [auth_key] cookie. *)
Definition no_cookie : Env :=
  {| authenticate_at := fun _ => authenticate_ok;
     authorize_at := fun _ => authorize_without_cookie;
     playback_at := fun _ => stream 200 0%Q [] EndOfStream |}.

(** The connection is reset after the first chunk. *)
Definition reset_mid_stream : Env :=
  {| authenticate_at := fun _ => authenticate_ok;
     authorize_at := fun _ => authorize_ok;
     playback_at := fun _ =>
       stream 200 0%Q [((10 # 1000)%Q, 10240)] (Broken ConnectionFault) |}.

(** The user presses Ctrl+C while the first chunk is awaited. *)
Definition interrupted_stream : Env :=
  {| authenticate_at := fun _ => authenticate_ok;
     authorize_at := fun _ => authorize_ok;
     playback_at := fun _ => stream 200 0%Q [] (Broken Interrupt) |}.

(** The one-byte read of the latency test times out. *)
Definition first_byte_times_out : Env :=
  {| authenticate_at := fun _ => authenticate_ok;
     authorize_at := fun _ => authorize_ok;
     playback_at := fun _ =>
       (0%Q, inl {| status_code := 200;
                    raw_read := (30%Q, Some ConnectionFault);
                    content := fun _ => [];
                    content_end := (0%Q, EndOfStream) |}) |}.

(** The authorize answer carries two [auth_key] cookies. *)
Definition two_cookies : Env :=
  {| authenticate_at := fun _ => authenticate_ok;
     authorize_at := fun _ =>
       (0%Q, inl {| post_status_code := 200; post_json := None;
                    post_cookies := [("auth_key", "key");
                                     ("auth_key", "other")] |});
     playback_at := fun _ => stream 200 0%Q [] EndOfStream |}.

(** The authorize answer carries an [auth_key] cookie without a value. *)
Definition empty_cookie : Env :=
  {| authenticate_at := fun _ => authenticate_ok;
     authorize_at := fun _ =>
       (0%Q, inl {| post_status_code := 200; post_json := None;
                    post_cookies := [("auth_key", EmptyString)] |});
     playback_at := fun _ => stream 200 0%Q [] EndOfStream |}.

(** An open stream, the first of the run, with the body [chunks]. *)
Definition opened (chunks : list (Q * Z)) : Stream :=
  (0%nat, {| status_code := 200; raw_read := (0%Q, None);
             content := fun _ => chunks;
             content_end := (0%Q, EndOfStream) |}).

(** Two chunks, the second arriving 5 s after the first. *)
Definition five_seconds_apart : list (Q * Z) :=
  [((1 # 10)%Q, 10240); (5%Q, 10240)].

(** Two chunks, the second arriving 4999 ms after the program has
    finished with the first. *)
Definition after_the_body : list (Q * Z) :=
  [((1 # 100)%Q, 10240); ((4999 # 1000)%Q, 10240)].

(** A program that takes 1 ms to handle its first chunk: the time
    passes before the reading, its third, that ends the handling. *)
Definition slow_body (n : nat) : Q :=
  if (n =? 2)%nat then (1 # 1000)%Q else 0%Q.

(** Both credential calls are refused with the given codes. *)
Definition refused (authenticate_code authorize_code : Z) : Env :=
  {| authenticate_at := fun _ =>
       (0%Q, inl {| post_status_code := authenticate_code;
                    post_json := Some "{}"; post_cookies := [] |});
     authorize_at := fun _ =>
       (0%Q, inl {| post_status_code := authorize_code;
                    post_json := None;
                    post_cookies := [("auth_key", "key")] |});
     playback_at := fun _ => stream 200 0%Q [] EndOfStream |}.

End Scenario.

(** ** Sampling bookkeeping *)

(** The dictionary before the first round: every camera with no sample. *)
Definition no_samples (cs : list string) : dict :=
  map (fun c => (c, @nil Q)) cs.

(** After [j] rounds: the dictionary has the cameras of the registry, in
    its order, with [j] samples each. *)
Definition sampled (config : Config) (j : nat) (load_times : dict) : Prop :=
  keys load_times = keys (cameras config)
  /\ forall c,
       In c (keys (cameras config)) ->
       exists samples,
         lookup c load_times = Some samples
         /\ List.length samples = j.

(** The playback requests of one round. *)
Definition round_requests (config : Config) (key : option string)
    : list (string * option string) :=
  map (fun p => (snd p, key)) (cameras config).

(** ** More observations *)

(** The credential requests sent. *)
Definition posts (tr : list event) : list event :=
  flat_map (fun e => match e with
                     | EAuthenticate _ _ _ | EAuthorize _ _ => [e]
                     | _ => []
                     end) tr.

(** The playback requests sent, in full. *)
Definition gets (tr : list event) : list event :=
  flat_map (fun e => match e with
                     | EPlayback _ _ _ _ => [e]
                     | _ => []
                     end) tr.

(** Progress lines: the running total of each. *)
Definition progress (tr : list event) : list Z :=
  flat_map (fun e => match e with
                     | EPrint (MsgProgress total _) => [total]
                     | _ => []
                     end) tr.

(** Session summaries: duration and total of each. *)
Definition summaries (tr : list event) : list (Z * Z) :=
  flat_map (fun e => match e with
                     | EPrint (MsgPlaybackUp ms total) => [(ms, total)]
                     | _ => []
                     end) tr.

(** The totals of the progress lines expected for chunks numbered from
    [n], [total] bytes into the session: one for every chunk whose number
    is a multiple of 100. *)
Fixpoint progress_from (n : Z) (total : Z) (chunks : list (Q * Z))
    : list Z :=
  match chunks with
  | [] => []
  | (_, len) :: rest =>
      (if n mod 100 =? 0 then [total + len] else [])
      ++ progress_from (n + 1) (total + len) rest
  end.

(** The lines printed only when [verbose] is set. *)
Definition verbose_line (e : event) : bool :=
  match e with
  | EPrint (MsgRequestTook _ _) | EPrint MsgMakingAuthentication
  | EPrint MsgMakingAuthorize | EPrint (MsgMakingPlayback _)
  | EPrint (MsgWaiting _) => true
  | _ => false
  end.

(** A trace without them. *)
Definition terse (tr : list event) : list event :=
  filter (fun e => negb (verbose_line e)) tr.

(** Two worlds that differ only in the verbose lines printed so far. *)
Definition alike (s s' : State) : Prop :=
  clock s = clock s'
  /\ authenticate_calls s = authenticate_calls s'
  /\ authorize_calls s = authorize_calls s'
  /\ playback_calls s = playback_calls s'
  /\ terse (trace s) = terse (trace s').

(** Two computations that, in like worlds, give the same result and leave
    like worlds. *)
Definition agree {A} (c c' : M A) : Prop :=
  forall s s',
    alike s s' ->
    fst (c s) = fst (c' s') /\ alike (snd (c s)) (snd (c' s')).

(** A computation that leaves an observation of the world as it was. *)
Definition preserves {A B} (f : State -> B) (c : M A) : Prop :=
  forall s, f (snd (c s)) = f s.

(** A computation that raises only exceptions of class [E]. *)
Definition throws (E : exn -> bool) {A} (c : M A) : Prop :=
  forall s e, fst (c s) = Raise e -> E e = true.

(** What the service, or the user, can make a method raise. *)
Definition service_failure (e : exn) : bool :=
  match e with
  | AuthenticationFailed _ | AuthorizationFailed _ | JSONDecodeError
  | PlaybackFailed _ _ | CookieConflictError | RequestException
  | KeyboardInterrupt => true
  | _ => false
  end.

(** The number of credential calls made so far. *)
Definition exchanges (s : State) : nat * nat :=
  (authenticate_calls s, authorize_calls s).

(** Classes of events, for the frames of the further properties. *)
Definition is_progress (e : event) : bool :=
  match e with EPrint (MsgProgress _ _) => true | _ => false end.

Definition loop_line (e : event) : bool := is_slow_chunk e || is_progress e.

(** A camera with at least one sample. *)
Definition has_samples (load_times : dict) (c : string) : Prop :=
  exists samples, lookup c load_times = Some samples /\ samples <> [].

(** What sampling a camera emits, and what a round adds to it. *)
Definition sample_event (e : event) : bool :=
  open_event e || is_close e.

Definition collect_event (e : event) : bool :=
  sample_event e || is_sleep e.

(** ** get_config *)

(** What [json.load] returns. *)
#[warnings="-register-all"]
Inductive json :=
| JNull
| JBool (b : bool)
| JInt (z : Z)
| JFloat (q : Q)
| JString (s : string)
| JArray (items : list json)
| JObject (members : list (string * json)).

(** What [open(file, 'r')] followed by [json.load(f)] comes to. *)
Inductive file_read :=
| NoSuchFile
| Unreadable
| Unparsable (why : string)
| Parsed (v : json).

(** Exceptions that leave [get_config]. *)
Inductive config_error :=
| CouldNotFindConfigFile (file : string)
| CouldNotParseConfig (why : string)
| NoUserFound
| NoAuthTokenFound
| InvalidDelay (v : json)
| ConfigTypeError
| ConfigKeyError
| ConfigOSError.

(** [key in x]; [None] is [TypeError]. *)
Definition contains (key : string) (x : json) : option bool :=
  match x with
  | JObject members =>
      Some (match lookup key members with Some _ => true | None => false end)
  | JArray items =>
      Some (existsb (fun item => match item with
                                 | JString s => String.eqb s key
                                 | _ => false
                                 end) items)
  | JString s =>
      Some (match index 0 key s with Some _ => true | None => false end)
  | _ => None
  end.

(** [d[key] = v] on a dictionary. *)
Fixpoint assign {A} (key : string) (v : A) (d : list (string * A))
    : list (string * A) :=
  match d with
  | [] => [(key, v)]
  | (k, x) :: rest =>
      if String.eqb k key then (k, v) :: rest
      else (k, x) :: assign key v rest
  end.

(** [x[key] = v] with a string key; [None] is [TypeError]. *)
Definition setitem_json (key : string) (v : json) (x : json) : option json :=
  match x with
  | JObject members => Some (JObject (assign key v members))
  | _ => None
  end.

(** [x[key]] with a string key. *)
Definition getitem_json (key : string) (x : json) : config_error + json :=
  match x with
  | JObject members =>
      match lookup key members with
      | Some v => inr v
      | None => inl ConfigKeyError
      end
  | _ => inl ConfigTypeError
  end.

(** [isinstance(v, int)]: [bool] is a subclass of [int]. *)
Definition isinstance_int (v : json) : bool :=
  match v with
  | JInt _ | JBool _ => true
  | _ => false
  end.

(** [v < 0] for a value that is an [int]. *)
Definition negative (v : json) : bool :=
  match v with
  | JInt z => z <? 0
  | _ => false
  end.

Section Configuration.

Local Open Scope string_scope.

(** Lines 199 to 209: the checks after the password. *)
Definition check_token_and_delay (parsed_config : json)
    : config_error + json :=
  match contains "auth_token" parsed_config with
  | None => inl ConfigTypeError
  | Some false => inl NoAuthTokenFound
  | Some true =>
      match contains "delay_between_runs_seconds" parsed_config with
      | None => inl ConfigTypeError
      | Some false =>
          match setitem_json "delay_between_runs_seconds"
                  (JInt DEFAULT_DELAY_BETWEEN_RUNS_SECONDS) parsed_config with
          | Some parsed_config' => inr parsed_config'
          | None => inl ConfigTypeError
          end
      | Some true =>
          match getitem_json "delay_between_runs_seconds" parsed_config with
          | inl e => inl e
          | inr d =>
              if negb (isinstance_int d) || negative d
              then inl (InvalidDelay d)
              else inr parsed_config
          end
      end
  end.

(** [get_config(file)], for a file system [fs] and a user who types
    [typed] when asked for the password.  The second component tells
    whether [getpass] was called. *)
Definition get_config (fs : string -> file_read) (typed : string)
    (file : string) : (config_error + json) * bool :=
  match fs file with
  | NoSuchFile => (inl (CouldNotFindConfigFile file), false)
  | Unreadable => (inl ConfigOSError, false)
  | Unparsable why => (inl (CouldNotParseConfig why), false)
  | Parsed parsed_config =>
      match contains "email" parsed_config with
      | None => (inl ConfigTypeError, false)
      | Some false => (inl NoUserFound, false)
      | Some true =>
          match contains "password" parsed_config with
          | None => (inl ConfigTypeError, false)
          | Some true => (check_token_and_delay parsed_config, false)
          | Some false =>
              match setitem_json "password" (JString typed)
                      parsed_config with
              | None => (inl ConfigTypeError, true)
              | Some parsed_config' =>
                  (check_token_and_delay parsed_config', true)
              end
          end
      end
  end.

(** The camera registry of a configuration whose identifiers are
    strings. *)
Fixpoint camera_ids (members : list (string * json))
    : option (list (string * string)) :=
  match members with
  | [] => Some []
  | (name, JString id) :: rest =>
      match camera_ids rest with
      | Some ids => Some ((name, id) :: ids)
      | None => None
      end
  | _ => None
  end.

(** The configuration as the tester reads it, when its fields have the
    types the tester's model gives them. *)
Definition as_config (x : json) : option Config :=
  match x with
  | JObject members =>
      match lookup "email" members, lookup "password" members,
            lookup "auth_token" members, lookup "cameras" members,
            lookup "delay_between_runs_seconds" members with
      | Some (JString e), Some (JString p), Some (JString t),
        Some (JObject cams), Some (JInt d) =>
          match camera_ids cams with
          | Some ids =>
              Some {| email := e; password := p; auth_token := t;
                      cameras := ids; delay_between_runs_seconds := d |}
          | None => None
          end
      | _, _, _, _, _ => None
      end
  | _ => None
  end.

(** A delay that [get_config] accepts. *)
Definition valid_delay (v : json) : bool :=
  isinstance_int v && negb (negative v).

(** The dictionary [get_config] returns for the members of the file. *)
Definition completed (typed : string) (members : list (string * json))
    : list (string * json) :=
  let with_password :=
    match lookup "password" members with
    | Some _ => members
    | None => assign "password" (JString typed) members
    end in
  match lookup "delay_between_runs_seconds" with_password with
  | Some _ => with_password
  | None =>
      assign "delay_between_runs_seconds"
        (JInt DEFAULT_DELAY_BETWEEN_RUNS_SECONDS) with_password
  end.

End Configuration.

(** What [get_config] answers, the returned dictionary apart. *)
Definition verdict (r : (config_error + json) * bool)
    : option config_error * bool :=
  (match fst r with inl e => Some e | inr _ => None end, snd r).

(** ** main *)

(** Lines printed by [main], one constructor per message. *)
Inductive line :=
| ConfigError (e : config_error)
| StreamUsage
| NoSuchCamera (camera_name : string)
| Streaming (camera_name : string)
| StoppingStreaming
| CouldNotStream (e : exn)
| LatencyUsage
| CouldNotParseRuns (arg : string)
| InvalidRuns
| TestingLatency
| CouldNotCompleteLatency (e : exn)
| InvalidArgument (command : string).

(** What a run of the program shows and does, in order: the password
    prompt, the lines of [main], and the events of the tester. *)
Inductive output :=
| Prompted
| Printed (l : line)
| Tester (e : event).

(** How a run of [main] ends: [exit(code)], a normal return, an
    exception that nothing catches, a loop that is still running when
    the fuel is spent, or a configuration that [get_config] accepts
    and whose fields are not of the types [as_config] reads. *)
Inductive status :=
| Exit (code : Z)
| Return
| Uncaught (e : exn)
| Running
| Unmodelled.

(** The events between two states. *)
Definition since (s s' : State) : list event :=
  skipn (List.length (trace s)) (trace s').

Section Main.

Variable fs : string -> file_read.
Variable typed : string.
(** [int(arg)] on a string; [None] when it raises. *)
Variable int : string -> option Z.
Variable env : Env.
Variable fuel : nat.

(** Lines 246 to 263. *)
Definition stream_command (config : json) (rest : list string)
    (verbose : bool) (s : State) : status * list output :=
  match rest with
  | [camera_name] =>
      match as_config config with
      | None => (Unmodelled, [])
      | Some config =>
          match lookup camera_name (cameras config) with
          | None => (Exit (-1), [Printed (NoSuchCamera camera_name)])
          | Some _ =>
              let (r, s') :=
                stream_repeatedly env config verbose fuel camera_name s in
              let out :=
                Printed (Streaming camera_name)
                :: map Tester (since s s') in
              match r with
              | None => (Running, out)
              | Some (Ok _) => (Return, out)
              | Some (Raise KeyboardInterrupt) =>
                  (Exit 0, out ++ [Printed StoppingStreaming])
              | Some (Raise e) =>
                  (Exit (-1), out ++ [Printed (CouldNotStream e)])
              end
          end
      end
  | _ => (Exit (-1), [Printed StreamUsage])
  end.

(** Lines 265 to 284. *)
Definition latency_command (config : json) (rest : list string)
    (verbose : bool) (s : State) : status * list output :=
  match rest with
  | [arg] =>
      match int arg with
      | None => (Exit (-1), [Printed (CouldNotParseRuns arg)])
      | Some runs =>
          if runs <=? 0 then (Exit (-1), [Printed InvalidRuns])
          else
            match as_config config with
            | None => (Unmodelled, [])
            | Some config =>
                let (r, s') := test_latency env config verbose runs s in
                let out :=
                  Printed TestingLatency :: map Tester (since s s') in
                match r with
                | Ok _ => (Return, out)
                | Raise KeyboardInterrupt =>
                    (Uncaught KeyboardInterrupt, out)
                | Raise e =>
                    (Exit (-1),
                     out ++ [Printed (CouldNotCompleteLatency e)])
                end
            end
      end
  | _ => (Exit (-1), [Printed LatencyUsage])
  end.

(** [main()], for the command line [command rest... -c config_file]
    and the verbose flag, started in the world [s]. *)
Definition main (command : string) (rest : list string)
    (config_file : string) (verbose : bool) (s : State)
    : status * list output :=
  let (loaded, prompted) := get_config fs typed config_file in
  let asked := if prompted then [Prompted] else [] in
  match loaded with
  | inl e => (Exit (-1), asked ++ [Printed (ConfigError e)])
  | inr config =>
      let (st, out) :=
        if String.eqb command "stream"%string
        then stream_command config rest verbose s
        else if String.eqb command "latency"%string
        then latency_command config rest verbose s
        else (Exit (-1), [Printed (InvalidArgument command)]) in
      (st, asked ++ out)
  end.

End Main.

(** A configuration file on disk and a user at the keyboard. *)
Module Launch.

Local Open Scope string_scope.

(** A file without password and without delay. *)
Definition front_file : json :=
  JObject [("email", JString "user@example.com");
           ("auth_token", JString "api");
           ("cameras", JObject [("front", JString "100")])].

Definition disk (file : string) : file_read :=
  if String.eqb file "config.json" then Parsed front_file else NoSuchFile.

(** Decimal numerals, a part of what [int] reads. *)
Fixpoint digits (s : string) (acc : Z) : option Z :=
  match s with
  | EmptyString => Some acc
  | String c rest =>
      let n := Z.of_nat (Ascii.nat_of_ascii c) - 48 in
      if (0 <=? n)%Z && (n <=? 9)%Z then digits rest (10 * acc + n) else None
  end.

Definition decimal (s : string) : option Z :=
  match s with
  | EmptyString => None
  | _ => digits s 0
  end.

End Launch.

(** * Verification *)

(** ** Numbers *)

Section Rounding.

Local Open Scope Q_scope.

Lemma pow2_pos e : 0 < 2 ^ e.
Proof. apply Qpower_0_lt. reflexivity. Qed.

Lemma pow2_plus a b : 2 ^ (a + b) == 2 ^ a * 2 ^ b.
Proof. apply Qpower_plus. discriminate. Qed.

Lemma pow2_succ a : 2 ^ (a + 1) == 2 * 2 ^ a.
Proof. rewrite pow2_plus. change (2 ^ 1) with 2. ring. Qed.

Lemma pow2_Z k : (0 <= k)%Z -> inject_Z (2 ^ k) == 2 ^ k.
Proof. intros H. rewrite Zpower_Qpower by exact H. reflexivity. Qed.

Lemma pow2_le a b : (a <= b)%Z -> 2 ^ a <= 2 ^ b.
Proof. intros H. apply Qpower_le_compat_l; [exact H | discriminate]. Qed.

Lemma pow2_lt_inv a b : 2 ^ a < 2 ^ b -> (a < b)%Z.
Proof. intros H. apply (Qpower_lt_compat_l_inv 2); [exact H | reflexivity]. Qed.

(** *** Rounding to an integer *)

Lemma Qfloor_unique x z :
  inject_Z z <= x -> x < inject_Z (z + 1) -> Qfloor x = z.
Proof.
  intros Hl Hu.
  pose proof (Qfloor_le x) as Fl. pose proof (Qlt_floor x) as Fu.
  assert (H1 : (z < Qfloor x + 1)%Z).
  { rewrite Zlt_Qlt. apply (Qle_lt_trans _ x); assumption. }
  assert (H2 : (Qfloor x < z + 1)%Z).
  { rewrite Zlt_Qlt. apply (Qle_lt_trans _ x); assumption. }
  lia.
Qed.

Lemma rne_comp x y : x == y -> rne x = rne y.
Proof.
  intros H. unfold rne. rewrite (Qfloor_comp _ _ H).
  rewrite (Qcompare_comp (x - inject_Z (Qfloor y)) (y - inject_Z (Qfloor y))
             ltac:(rewrite H; reflexivity) (1 # 2) (1 # 2) ltac:(reflexivity)).
  reflexivity.
Qed.

Lemma rne_bounds x : (Qfloor x <= rne x <= Qfloor x + 1)%Z.
Proof.
  unfold rne.
  destruct (x - inject_Z (Qfloor x) ?= 1 # 2);
    [destruct (Z.even (Qfloor x)) | |]; lia.
Qed.

Lemma rne_Z z : rne (inject_Z z) = z.
Proof.
  unfold rne. rewrite Qfloor_Z.
  replace (inject_Z z - inject_Z z ?= 1 # 2) with Lt; [reflexivity |].
  symmetry. apply (proj1 (Qlt_alt _ _)). lra.
Qed.

Lemma rne_mono x y : x <= y -> (rne x <= rne y)%Z.
Proof.
  intros H. pose proof (Qfloor_resp_le x y H) as Hf.
  destruct (Z.eq_dec (Qfloor x) (Qfloor y)) as [E | N].
  - unfold rne. rewrite E.
    destruct (Qcompare_spec (x - inject_Z (Qfloor y)) (1 # 2));
      destruct (Qcompare_spec (y - inject_Z (Qfloor y)) (1 # 2));
      destruct (Z.even (Qfloor y)); try lia; exfalso; lra.
  - pose proof (rne_bounds x). pose proof (rne_bounds y). lia.
Qed.

Lemma rne_opp x : rne (- x) = (- rne x)%Z.
Proof.
  pose proof (Qfloor_le x) as Fl. pose proof (Qlt_floor x) as Fu.
  rewrite inject_Z_plus in Fu. change (inject_Z 1) with 1 in Fu.
  destruct (Qeq_dec x (inject_Z (Qfloor x))) as [E | N].
  - rewrite (rne_comp x _ E), rne_Z.
    rewrite (rne_comp (- x) (inject_Z (- Qfloor x))),  rne_Z; [reflexivity |].
    rewrite inject_Z_opp, <- E. reflexivity.
  - assert (Hlt : inject_Z (Qfloor x) < x).
    { apply Qle_lteq in Fl. destruct Fl as [Fl | Fl]; [exact Fl |].
      elim N. symmetry. exact Fl. }
    assert (E1 : inject_Z (- Qfloor x - 1) = - inject_Z (Qfloor x) - 1).
    { unfold Z.sub. rewrite inject_Z_plus, !inject_Z_opp. reflexivity. }
    assert (F : Qfloor (- x) = (- Qfloor x - 1)%Z).
    { apply Qfloor_unique.
      - rewrite E1. lra.
      - replace (- Qfloor x - 1 + 1)%Z with (- Qfloor x)%Z by lia.
        rewrite inject_Z_opp. lra. }
    unfold rne. rewrite F, E1.
    rewrite Z.even_sub, Z.even_opp. cbn [Z.even Pos.succ].
    destruct (Qcompare_spec (x - inject_Z (Qfloor x)) (1 # 2)) as [C | C | C];
      destruct (Qcompare_spec (- x - (- inject_Z (Qfloor x) - 1)) (1 # 2))
        as [C' | C' | C'];
      try (exfalso; lra); try lia.
    destruct (Z.even (Qfloor x)); cbn; lia.
Qed.

(** *** The binade of a number *)

Lemma binade_spec q :
  ~ q == 0 -> 2 ^ binade q <= Qabs q /\ Qabs q < 2 ^ (binade q + 1).
Proof.
  intros Hq. unfold binade.
  set (n := Z.abs (Qnum q)). set (d := Zpos (Qden q)).
  set (e := (Z.log2 n - Z.log2 d)%Z).
  assert (Hn : (0 < n)%Z).
  { unfold n. destruct q as [[| p | p] qd]; cbn; try lia.
    elim Hq. reflexivity. }
  assert (Hd : (0 < d)%Z) by (unfold d; lia).
  destruct (Z.log2_spec n Hn) as [Ln Un].
  destruct (Z.log2_spec d Hd) as [Ld Ud].
  pose proof (Z.log2_nonneg n) as Nn. pose proof (Z.log2_nonneg d) as Nd.
  rewrite Zle_Qle, pow2_Z in Ln, Ld by assumption.
  rewrite Zlt_Qlt, pow2_Z in Un, Ud by lia.
  assert (Ha : Qabs q == inject_Z n / inject_Z d).
  { destruct q as [qn qd]. unfold n, d. cbn [Qnum Qden Qabs].
    apply Qmake_Qdiv. }
  assert (Dpos : 0 < inject_Z d).
  { change (inject_Z 0 < inject_Z d). rewrite <- Zlt_Qlt. exact Hd. }
  assert (Hup : Qabs q < 2 ^ (e + 1)).
  { rewrite Ha. apply Qlt_shift_div_r; [exact Dpos |].
    apply (Qlt_le_trans _ (2 ^ Z.succ (Z.log2 n))); [exact Un |].
    replace (Z.succ (Z.log2 n)) with (e + 1 + Z.log2 d)%Z by (unfold e; lia).
    rewrite pow2_plus. apply Qmult_le_l; [apply pow2_pos | exact Ld]. }
  assert (Hlo : 2 ^ (e - 1) < Qabs q).
  { rewrite Ha. apply Qlt_shift_div_l; [exact Dpos |].
    apply (Qlt_le_trans _ (2 ^ Z.log2 n)); [| exact Ln].
    replace (Z.log2 n) with (e - 1 + Z.succ (Z.log2 d))%Z by (unfold e; lia).
    rewrite pow2_plus. apply Qmult_lt_l; [apply pow2_pos | exact Ud]. }
  destruct (Qle_bool (2 ^ e) (Qabs q)) eqn:C.
  - apply Qle_bool_iff in C. split; assumption.
  - replace (e - 1 + 1)%Z with e by lia. split; [apply Qlt_le_weak, Hlo |].
    apply Qnot_le_lt. intros H. apply Qle_bool_iff in H. congruence.
Qed.

Lemma binade_unique a e e' :
  2 ^ e <= a -> a < 2 ^ (e + 1) -> 2 ^ e' <= a -> a < 2 ^ (e' + 1) -> e = e'.
Proof.
  intros L U L' U'.
  pose proof (pow2_lt_inv e (e' + 1) (Qle_lt_trans _ _ _ L U')).
  pose proof (pow2_lt_inv e' (e + 1) (Qle_lt_trans _ _ _ L' U)).
  lia.
Qed.

Lemma binade_of q e :
  2 ^ e <= Qabs q -> Qabs q < 2 ^ (e + 1) -> binade q = e.
Proof.
  intros L U.
  assert (Hq : ~ q == 0).
  { intros E. rewrite E in L. pose proof (pow2_pos e). cbn in L. lra. }
  destruct (binade_spec q Hq) as [L' U'].
  apply (binade_unique (Qabs q)); assumption.
Qed.

Lemma binade_comp x y : ~ y == 0 -> x == y -> binade x = binade y.
Proof.
  intros N E. destruct (binade_spec y N) as [L U].
  apply binade_of; rewrite E; assumption.
Qed.

Lemma binade_opp q : ~ q == 0 -> binade (- q) = binade q.
Proof.
  intros N. destruct (binade_spec q N) as [L U].
  apply binade_of; rewrite Qabs_opp; assumption.
Qed.

(** *** Rounding to binary64 *)

Lemma round64_zero q : q == 0 -> round64 q = 0.
Proof.
  intros E. unfold round64. apply Qeq_bool_iff in E. rewrite E. reflexivity.
Qed.

Lemma round64_nonzero q :
  ~ q == 0 ->
  round64 q
  = Qred (inject_Z (rne (q / 2 ^ (binade q - 52))) * 2 ^ (binade q - 52)).
Proof.
  intros N. unfold round64.
  destruct (Qeq_bool q 0) eqn:E; [| reflexivity].
  apply Qeq_bool_iff in E. contradiction.
Qed.

Lemma round64_comp x y : x == y -> round64 x = round64 y.
Proof.
  intros E. destruct (Qeq_dec y 0) as [Z | N].
  - rewrite (round64_zero y Z). apply round64_zero. rewrite E. exact Z.
  - assert (Nx : ~ x == 0) by (rewrite E; exact N).
    rewrite (round64_nonzero x Nx), (round64_nonzero y N).
    rewrite (binade_comp x y N E). apply Qred_complete.
    rewrite (rne_comp (x / 2 ^ (binade y - 52)) (y / 2 ^ (binade y - 52)));
      [reflexivity |].
    rewrite E. reflexivity.
Qed.

Lemma round64_value q :
  ~ q == 0 ->
  round64 q == inject_Z (rne (q / 2 ^ (binade q - 52))) * 2 ^ (binade q - 52).
Proof. intros N. rewrite (round64_nonzero q N). apply Qred_correct. Qed.

Lemma ulp_binade b : 2 ^ 52 * 2 ^ (b - 52) == 2 ^ b.
Proof.
  rewrite <- pow2_plus. replace (52 + (b - 52))%Z with b by lia. reflexivity.
Qed.

Lemma ulp_binade_succ b : 2 ^ 53 * 2 ^ (b - 52) == 2 ^ (b + 1).
Proof.
  rewrite <- pow2_plus. replace (53 + (b - 52))%Z with (b + 1)%Z by lia.
  reflexivity.
Qed.

(** The mantissa of a positive number has 53 bits. *)
Lemma mantissa_pos q :
  0 < q ->
  (2 ^ 52 <= rne (q / 2 ^ (binade q - 52)) <= 2 ^ 53)%Z.
Proof.
  intros P. assert (N : ~ q == 0) by (intros E; rewrite E in P; discriminate).
  destruct (binade_spec q N) as [L U].
  rewrite (Qabs_pos q) in L, U by (apply Qlt_le_weak, P).
  pose proof (pow2_pos (binade q - 52)) as Up.
  split.
  - rewrite <- (rne_Z (2 ^ 52)). apply rne_mono.
    rewrite pow2_Z by lia. apply Qle_shift_div_l; [exact Up |].
    rewrite ulp_binade. exact L.
  - rewrite <- (rne_Z (2 ^ 53)). apply rne_mono.
    rewrite pow2_Z by lia. apply Qle_shift_div_r; [exact Up |].
    rewrite ulp_binade_succ. apply Qlt_le_weak, U.
Qed.

(** A positive number is rounded within its binade. *)
Lemma round64_pos q :
  0 < q -> 2 ^ binade q <= round64 q /\ round64 q <= 2 ^ (binade q + 1).
Proof.
  intros P. assert (N : ~ q == 0) by (intros E; rewrite E in P; discriminate).
  destruct (mantissa_pos q P) as [Lm Um].
  rewrite (round64_value q N).
  pose proof (pow2_pos (binade q - 52)) as Up.
  rewrite Zle_Qle, pow2_Z in Lm, Um by lia.
  split.
  - rewrite <- ulp_binade. apply Qmult_le_r; [exact Up | exact Lm].
  - rewrite <- ulp_binade_succ. apply Qmult_le_r; [exact Up | exact Um].
Qed.

Lemma round64_opp q : round64 (- q) == - round64 q.
Proof.
  destruct (Qeq_dec q 0) as [Z | N].
  - rewrite (round64_zero q Z), (round64_zero (- q)); [reflexivity |].
    rewrite Z. reflexivity.
  - assert (N' : ~ - q == 0) by (intros E; apply N; lra).
    rewrite (round64_value q N), (round64_value (- q) N').
    rewrite (binade_opp q N).
    rewrite (rne_comp (- q / 2 ^ (binade q - 52))
               (- (q / 2 ^ (binade q - 52)))).
    + rewrite rne_opp, inject_Z_opp. ring.
    + field. pose proof (pow2_pos (binade q - 52)). lra.
Qed.

Lemma binade_mono x y : 0 < x -> x <= y -> (binade x <= binade y)%Z.
Proof.
  intros P H.
  assert (Nx : ~ x == 0) by (intros E; rewrite E in P; discriminate).
  assert (Py : 0 < y) by lra.
  assert (Ny : ~ y == 0) by (intros E; rewrite E in Py; discriminate).
  destruct (binade_spec x Nx) as [Lx _].
  destruct (binade_spec y Ny) as [_ Uy].
  rewrite (Qabs_pos x) in Lx by lra. rewrite (Qabs_pos y) in Uy by lra.
  assert (Hlt : 2 ^ binade x < 2 ^ (binade y + 1)) by lra.
  apply pow2_lt_inv in Hlt. lia.
Qed.

Lemma round64_mono_pos x y : 0 < x -> x <= y -> round64 x <= round64 y.
Proof.
  intros P H.
  assert (Nx : ~ x == 0) by (intros E; rewrite E in P; discriminate).
  assert (Py : 0 < y) by lra.
  assert (Ny : ~ y == 0) by (intros E; rewrite E in Py; discriminate).
  pose proof (binade_mono x y P H) as Hb.
  destruct (Z.eq_dec (binade x) (binade y)) as [E | D].
  - rewrite (round64_value x Nx), (round64_value y Ny), E.
    pose proof (pow2_pos (binade y - 52)) as Up.
    apply Qmult_le_r; [exact Up |].
    rewrite <- Zle_Qle. apply rne_mono.
    apply Qle_shift_div_l; [exact Up |].
    unfold Qdiv. rewrite <- Qmult_assoc, (Qmult_comm (/ _)), Qmult_inv_r;
      [lra | lra].
  - destruct (round64_pos x P) as [_ Ux].
    destruct (round64_pos y Py) as [Ly _].
    apply (Qle_trans _ _ _ Ux).
    apply (Qle_trans _ (2 ^ binade y)); [| exact Ly].
    apply pow2_le. lia.
Qed.

(** Rounding keeps the order. *)
Lemma round64_mono x y : x <= y -> round64 x <= round64 y.
Proof.
  intros H.
  assert (Hpos : forall q, 0 < q -> 0 < round64 q).
  { intros q P. destruct (round64_pos q P) as [L _].
    pose proof (pow2_pos (binade q)). lra. }
  assert (Hneg : forall q, q < 0 -> round64 q < 0).
  { intros q P. assert (P' : 0 < - q) by lra.
    apply Hpos in P'. rewrite round64_opp in P'. lra. }
  destruct (Qlt_le_dec 0 x) as [Px | Nx].
  - apply round64_mono_pos; assumption.
  - destruct (Qlt_le_dec y 0) as [Ny | Py].
    + assert (Hm : round64 (- y) <= round64 (- x)).
      { apply round64_mono_pos; lra. }
      rewrite !round64_opp in Hm. lra.
    + assert (Hx : round64 x <= 0).
      { apply Qle_lteq in Nx. destruct Nx as [Nx | Nx].
        - apply Qlt_le_weak, Hneg, Nx.
        - rewrite (round64_zero x Nx). lra. }
      assert (Hy : 0 <= round64 y).
      { apply Qle_lteq in Py. destruct Py as [Py | Py].
        - apply Qlt_le_weak, Hpos, Py.
        - rewrite (round64_zero y); [lra | symmetry; exact Py]. }
      lra.
Qed.

(** A number with a mantissa of 53 bits is its own rounding. *)
Lemma round64_representable m e :
  (2 ^ 52 <= m <= 2 ^ 53)%Z ->
  round64 (inject_Z m * 2 ^ e) == inject_Z m * 2 ^ e.
Proof.
  intros [Lm Um]. set (v := inject_Z m * 2 ^ e).
  pose proof (pow2_pos e) as Ep.
  assert (Mq : 2 ^ 52 <= inject_Z m /\ inject_Z m <= 2 ^ 53).
  { rewrite <- !pow2_Z by lia. rewrite <- !Zle_Qle. split; assumption. }
  assert (Pv : 0 < v).
  { unfold v. apply Qmult_lt_0_compat; [| exact Ep].
    pose proof (pow2_pos 52). lra. }
  assert (Nv : ~ v == 0) by (intros E; rewrite E in Pv; discriminate).
  assert (Av : Qabs v == v) by (apply Qabs_pos; lra).
  destruct (Z.eq_dec m (2 ^ 53)) as [E | D].
  - assert (Hv : v == 2 ^ (e + 53)).
    { unfold v. rewrite E, pow2_Z by lia. rewrite <- pow2_plus.
      replace (53 + e)%Z with (e + 53)%Z by lia. reflexivity. }
    assert (Hb : binade v = (e + 53)%Z).
    { apply binade_of; rewrite Av, Hv; [lra |].
      apply Qpower_lt_compat_l; [lia | reflexivity]. }
    rewrite (round64_value v Nv), Hb.
    replace (e + 53 - 52)%Z with (e + 1)%Z by lia.
    rewrite (rne_comp (v / 2 ^ (e + 1)) (inject_Z (2 ^ 52))).
    + rewrite rne_Z, pow2_Z by lia. rewrite <- pow2_plus, Hv.
      replace (52 + (e + 1))%Z with (e + 53)%Z by lia. reflexivity.
    + rewrite pow2_Z by lia. rewrite Hv.
      replace (e + 53)%Z with (52 + (e + 1))%Z by lia.
      rewrite pow2_plus. field.
      pose proof (pow2_pos (e + 1)). lra.
  - assert (Hlt : inject_Z m < 2 ^ 53).
    { rewrite <- pow2_Z by lia. rewrite <- Zlt_Qlt. lia. }
    assert (Hb : binade v = (e + 52)%Z).
    { apply binade_of; rewrite Av; unfold v.
      - replace (e + 52)%Z with (52 + e)%Z by lia. rewrite pow2_plus.
        apply Qmult_le_r; [exact Ep | apply Mq].
      - replace (e + 52 + 1)%Z with (53 + e)%Z by lia. rewrite pow2_plus.
        apply Qmult_lt_r; [exact Ep | exact Hlt]. }
    rewrite (round64_value v Nv), Hb.
    replace (e + 52 - 52)%Z with e by lia.
    rewrite (rne_comp (v / 2 ^ e) (inject_Z m)).
    + rewrite rne_Z. reflexivity.
    + unfold v. field. lra.
Qed.

Lemma round64_fix q : round64 (round64 q) == round64 q.
Proof.
  assert (Hpos : forall p, 0 < p -> round64 (round64 p) == round64 p).
  { intros p P.
    assert (N : ~ p == 0) by (intros E; rewrite E in P; discriminate).
    rewrite (round64_comp (round64 p) _ (round64_value p N)).
    rewrite round64_representable by (apply mantissa_pos, P).
    symmetry. apply round64_value, N. }
  destruct (Qlt_le_dec 0 q) as [P | NP].
  - apply Hpos, P.
  - apply Qle_lteq in NP. destruct NP as [NP | Z].
    + assert (P : 0 < - q) by lra.
      assert (E : round64 q == - round64 (- q)).
      { rewrite round64_opp. ring. }
      rewrite (round64_comp _ _ E), round64_opp, (Hpos _ P), round64_opp.
      ring.
    + rewrite (round64_zero q Z). reflexivity.
Qed.

(** Rounding what is rounded changes nothing. *)
Lemma round64_idem q : round64 (round64 q) = round64 q.
Proof.
  pose proof (round64_fix q) as F.
  destruct (Qeq_dec (round64 q) 0) as [Z | N].
  - rewrite (round64_zero _ Z).
    destruct (Qeq_dec q 0) as [Zq | Nq].
    + rewrite (round64_zero q Zq). reflexivity.
    + rewrite (round64_nonzero q Nq) in *.
      symmetry. change 0 with (Qred 0). apply Qred_complete.
      rewrite <- Z. symmetry. apply Qred_correct.
  - assert (Nq : ~ q == 0).
    { intros E. apply N. rewrite (round64_zero q E). reflexivity. }
    transitivity
      (Qred (inject_Z (rne (q / 2 ^ (binade q - 52))) * 2 ^ (binade q - 52)));
      [| symmetry; apply round64_nonzero, Nq].
    rewrite (round64_nonzero (round64 q) N).
    apply Qred_complete.
    rewrite <- (round64_value (round64 q) N), F.
    apply round64_value, Nq.
Qed.

(** Doubling and halving are exact. *)
Lemma round64_double q : round64 (2 * q) == 2 * round64 q.
Proof.
  destruct (Qeq_dec q 0) as [Z | N].
  - rewrite (round64_zero q Z), (round64_zero (2 * q)); [reflexivity |].
    rewrite Z. reflexivity.
  - assert (N2 : ~ 2 * q == 0) by (intros E; apply N; lra).
    destruct (binade_spec q N) as [L U].
    assert (Hb : binade (2 * q) = (binade q + 1)%Z).
    { apply binade_of; rewrite Qabs_Qmult; change (Qabs 2) with 2.
      - rewrite pow2_succ. lra.
      - rewrite (pow2_succ (binade q + 1)). lra. }
    rewrite (round64_value q N), (round64_value (2 * q) N2), Hb.
    replace (binade q + 1 - 52)%Z with (binade q - 52 + 1)%Z by lia.
    pose proof (pow2_pos (binade q - 52)) as Up.
    rewrite (rne_comp (2 * q / 2 ^ (binade q - 52 + 1))
               (q / 2 ^ (binade q - 52))).
    + rewrite pow2_succ. ring.
    + rewrite pow2_succ. field. lra.
Qed.

Lemma round64_half q : round64 (q / 2) == round64 q / 2.
Proof.
  rewrite (round64_comp q (2 * (q / 2))) by (field; discriminate).
  rewrite round64_double. field.
Qed.

End Rounding.

Section Numbers.

Lemma Qle_bool_comp x y x' y' :
  (x == x')%Q -> (y == y')%Q -> Qle_bool x y = Qle_bool x' y'.
Proof.
  intros Hx Hy. apply eq_true_iff_eq.
  rewrite !Qle_bool_iff, Hx, Hy. reflexivity.
Qed.

Lemma int_of_float_comp x y : (x == y)%Q -> int_of_float x = int_of_float y.
Proof.
  intros H. unfold int_of_float.
  rewrite (Qle_bool_comp 0 x 0 y) by (reflexivity || assumption).
  rewrite (Qfloor_comp x y H), (Qceiling_comp x y H). reflexivity.
Qed.

Lemma Qceiling_nonpos x : (x < 0)%Q -> Qceiling x <= 0.
Proof.
  intros H. change 0 with (Qceiling 0).
  apply Qceiling_resp_le, Qlt_le_weak, H.
Qed.

Lemma Qfloor_nonneg x : (0 <= x)%Q -> 0 <= Qfloor x.
Proof. intros H. change 0 with (Qfloor 0). apply Qfloor_resp_le, H. Qed.

Lemma int_of_float_mono x y : (x <= y)%Q -> int_of_float x <= int_of_float y.
Proof.
  intros H. unfold int_of_float.
  destruct (Qle_bool 0 x) eqn:Ex, (Qle_bool 0 y) eqn:Ey.
  - apply Qfloor_resp_le, H.
  - apply Qle_bool_iff in Ex.
    assert (Qle_bool 0 y = true)
      by (apply Qle_bool_iff; eapply Qle_trans; eauto).
    congruence.
  - transitivity 0.
    + apply Qceiling_nonpos, Qnot_le_lt. intros C.
      apply Qle_bool_iff in C. congruence.
    + apply Qfloor_nonneg, Qle_bool_iff, Ey.
  - apply Qceiling_resp_le, H.
Qed.

Lemma millis_comp x y : (x == y)%Q -> millis x = millis y.
Proof.
  intros H. unfold millis, fmul. rewrite (round64_comp x y H). reflexivity.
Qed.

Lemma round64_1000 : (round64 1000 == 1000)%Q.
Proof. vm_compute. reflexivity. Qed.

Lemma millis_round x y :
  (round64 x <= round64 y)%Q -> millis x <= millis y.
Proof.
  intros H. apply int_of_float_mono. unfold fmul.
  apply round64_mono. rewrite round64_1000.
  apply Qmult_le_compat_r; [exact H | discriminate].
Qed.

Lemma millis_mono x y : (x <= y)%Q -> millis x <= millis y.
Proof. intros H. apply millis_round, round64_mono, H. Qed.

Lemma round64_2 : (round64 2 == 2)%Q.
Proof. vm_compute. reflexivity. Qed.

(** The float mean of two floats is the rounded exact mean. *)
Lemma fdiv_fadd_2 a b :
  fdiv (fadd a b) 2 = round64 ((round64 a + round64 b) / 2).
Proof.
  unfold fdiv, fadd. rewrite round64_idem.
  transitivity (round64 (round64 (round64 a + round64 b) / 2)).
  - apply round64_comp. rewrite round64_2. reflexivity.
  - rewrite (round64_comp (round64 (round64 a + round64 b) / 2)
               (round64 ((round64 a + round64 b) / 2)))
      by (symmetry; apply round64_half).
    apply round64_idem.
Qed.

(** Truncation does not move a value across an integer threshold above
    zero. *)
Lemma int_of_float_threshold (k : Z) x :
  0 < k -> (int_of_float x >=? k) = Qle_bool (inject_Z k) x.
Proof.
  intros Hk. apply eq_true_iff_eq.
  rewrite Z.geb_le, Qle_bool_iff. unfold int_of_float.
  destruct (Qle_bool 0 x) eqn:E0.
  - split; intros H.
    + eapply Qle_trans; [| apply Qfloor_le].
      rewrite <- Zle_Qle. exact H.
    + rewrite <- (Qfloor_Z k). apply Qfloor_resp_le, H.
  - assert (Hx : (x < 0)%Q).
    { apply Qnot_le_lt. intros C. apply Qle_bool_iff in C. congruence. }
    split; intros H.
    + pose proof (Qceiling_nonpos x Hx). lia.
    + exfalso. apply (Qlt_irrefl 0).
      eapply Qlt_le_trans;
        [| eapply Qle_trans; [exact H | apply Qlt_le_weak, Hx]].
      change 0%Q with (inject_Z 0). rewrite <- Zlt_Qlt. exact Hk.
Qed.

End Numbers.

(** ** The monad *)

Section Monad.

Context {A B : Type}.
Variable c : M A.
Variable k : A -> M B.

Lemma bind_ok s a s' : c s = (Ok a, s') -> bind c k s = k a s'.
Proof. intros H. unfold bind. rewrite H. reflexivity. Qed.

Lemma bind_raise s e s' : c s = (Raise e, s') -> bind c k s = (Raise e, s').
Proof. intros H. unfold bind. rewrite H. reflexivity. Qed.

Lemma bind_ok_inv s b s'' :
  bind c k s = (Ok b, s'') ->
  exists a s', c s = (Ok a, s') /\ k a s' = (Ok b, s'').
Proof.
  unfold bind. destruct (c s) as [[a | e] s'].
  - intros H. exists a, s'. split; [reflexivity | exact H].
  - discriminate.
Qed.

Lemma bind_ext (k' : A -> M B) s :
  (forall a s', k a s' = k' a s') -> bind c k s = bind c k' s.
Proof.
  intros H. unfold bind.
  destruct (c s) as [[a | e] s']; [apply H | reflexivity].
Qed.

End Monad.

Lemma bind_assoc {A B C} (c : M A) (k : A -> M B) (k' : B -> M C) s :
  bind (bind c k) k' s = bind c (fun a => bind (k a) k') s.
Proof.
  unfold bind. destruct (c s) as [[a | e] s']; reflexivity.
Qed.

(** ** Framing *)

Section Frames.

Variable P : event -> bool.

Lemma grows_refl s : grows P s s.
Proof.
  exists []. cbn. rewrite app_nil_r, Nat.add_0_r. repeat split.
Qed.

Lemma grows_trans s1 s2 s3 : grows P s1 s2 -> grows P s2 s3 -> grows P s1 s3.
Proof.
  intros (e1 & H1 & F1 & C1) (e2 & H2 & F2 & C2). exists (e1 ++ e2).
  repeat split.
  - rewrite H2, H1. symmetry. apply app_assoc.
  - rewrite forallb_app, F1, F2. reflexivity.
  - rewrite C2, C1, filter_app, length_app. lia.
Qed.

Lemma only_ret {A} (a : A) : only P (ret a).
Proof. intros s. apply grows_refl. Qed.

Lemma only_raise {A} e : only P (@raise A e).
Proof. intros s. apply grows_refl. Qed.

Lemma only_time_time : only P time_time.
Proof.
  intros s. exists []. cbn. rewrite app_nil_r, Nat.add_0_r. repeat split.
Qed.

Lemma only_cookies_get name jar : only P (cookies_get name jar).
Proof.
  unfold cookies_get.
  destruct (find_no_duplicates name jar None) as [e | [[| c value] |]];
    (apply only_ret || apply only_raise).
Qed.

Lemma only_elapse d : only P (elapse d).
Proof.
  intros s. exists []. cbn. rewrite app_nil_r, Nat.add_0_r. repeat split.
Qed.

Lemma only_emit e : P e = true -> is_playback e = false -> only P (emit e).
Proof.
  intros H Hp s. exists [e]. cbn. rewrite H, Hp. cbn.
  rewrite Nat.add_0_r. repeat split.
Qed.

Lemma only_bind {A B} (c : M A) (k : A -> M B) :
  only P c -> (forall a, only P (k a)) -> only P (bind c k).
Proof.
  intros Hc Hk s. unfold bind. specialize (Hc s).
  destruct (c s) as [[a | e] s']; cbn in *.
  - eapply grows_trans; [exact Hc | apply Hk].
  - exact Hc.
Qed.

Lemma only_when b c : only P c -> only P (when b c).
Proof. intros H. destruct b; [exact H | apply only_ret]. Qed.

Lemma only_answer {A} (r : A + io_fault) : only P (answer r).
Proof. destruct r; [apply only_ret | apply only_raise]. Qed.

Lemma only_for_each {A S} (body : A -> S -> M S) xs :
  (forall x acc, only P (body x acc)) ->
  forall acc, only P (for_each xs body acc).
Proof.
  intros Hb. induction xs as [| x xs IH]; intros acc; cbn.
  - apply only_ret.
  - apply only_bind; [apply Hb | exact IH].
Qed.

Lemma flat_map_unseen {T} (g : event -> list T) evs :
  forallb P evs = true -> (forall e, P e = true -> g e = []) ->
  flat_map g evs = [].
Proof.
  intros F Hg. induction evs as [| e evs IH]; [reflexivity |].
  cbn in F. apply andb_prop in F. destruct F as [Fe F].
  cbn. rewrite (Hg e Fe). apply IH, F.
Qed.

Lemma grows_flat_map {T} (g : event -> list T) s s' :
  grows P s s' -> (forall e, P e = true -> g e = []) ->
  flat_map g (trace s') = flat_map g (trace s).
Proof.
  intros (evs & -> & F & _) Hg.
  rewrite flat_map_app, (flat_map_unseen g evs F Hg). apply app_nil_r.
Qed.

Lemma grows_calls s s' :
  grows P s s' -> (forall e, P e = true -> is_playback e = false) ->
  playback_calls s' = playback_calls s.
Proof.
  intros (evs & _ & F & ->) Hp.
  replace (filter is_playback evs) with (@nil event); [cbn; lia |].
  symmetry. induction evs as [| e evs IH]; [reflexivity |].
  cbn in F. apply andb_prop in F. destruct F as [Fe F].
  cbn. rewrite (Hp e Fe). apply IH, F.
Qed.

End Frames.

Lemma grows_weaken (P Q : event -> bool) s s' :
  (forall e, P e = true -> Q e = true) -> grows P s s' -> grows Q s s'.
Proof.
  intros HPQ (evs & H & F & C). exists evs. repeat split; [exact H | | exact C].
  rewrite forallb_forall in *. auto.
Qed.

Lemma only_weaken (P Q : event -> bool) {A} (c : M A) :
  (forall e, P e = true -> Q e = true) -> only P c -> only Q c.
Proof. intros HPQ H s. eapply grows_weaken; [exact HPQ | apply H]. Qed.

Ltac unfold_monad :=
  unfold bind, ret, raise, when, print, emit, elapse, time_time, answer.

Ltac unfold_monad_in H :=
  unfold bind, ret, raise, when, print, emit, elapse, time_time, answer in H.

Ltac frame :=
  repeat match goal with
         | |- only _ (ret _) => apply only_ret
         | |- only _ (raise _) => apply only_raise
         | |- only _ time_time => apply only_time_time
         | |- only _ (elapse _) => apply only_elapse
         | |- only _ (answer _) => apply only_answer
         | |- only _ (cookies_get _ _) => apply only_cookies_get
         | |- only _ (emit _) => apply only_emit; reflexivity
         | |- only _ (print _) => apply only_emit; reflexivity
         | |- only _ (bind _ _) => apply only_bind; [| intros ?]
         | |- only _ (when _ _) => apply only_when
         | |- only _ (if ?b then _ else _) => destruct b
         | |- only _ (match ?x with _ => _ end) => destruct x
         end.

Section Quiet.

Variable env : Env.
Variable config : Config.
Variable verbose : bool.

Lemma only_time_request {A} P name (c : M A) :
  (forall ms, P (EPrint (MsgRequestTook name ms)) = true) ->
  only P c -> only P (time_request verbose name c).
Proof.
  intros HP Hc. unfold time_request. frame; try assumption.
  apply only_emit; [apply HP | reflexivity].
Qed.

Lemma post_authenticate_chatter u p t :
  only chatter (post_authenticate env u p t).
Proof.
  intros s. unfold post_authenticate.
  match goal with |- grows _ _ (snd (?c ?s0)) =>
    assert (H : only chatter c) by frame; exact (H s0) end.
Qed.

Lemma post_authorize_chatter b t : only chatter (post_authorize env b t).
Proof.
  intros s. unfold post_authorize.
  match goal with |- grows _ _ (snd (?c ?s0)) =>
    assert (H : only chatter c) by frame; exact (H s0) end.
Qed.

Lemma get_auth_key_chatter : only chatter (get_auth_key env config verbose).
Proof.
  unfold get_auth_key.
  frame; try (apply only_time_request; [reflexivity |]).
  - apply post_authenticate_chatter.
  - apply post_authorize_chatter.
Qed.

End Quiet.

(** ** Credential exchange *)

Section Credential.

Variable env : Env.
Variable config : Config.
Variable verbose : bool.

Lemma find_no_duplicates_values name jar :
  forall toReturn,
    find_no_duplicates name jar toReturn
    = match toReturn, cookie_values name jar with
      | _, [] => inr toReturn
      | None, [value] => inr (Some value)
      | _, _ => inl CookieConflictError
      end.
Proof.
  unfold cookie_values.
  induction jar as [| [n v] rest IH]; intros acc; cbn.
  - destruct acc; reflexivity.
  - destruct (String.eqb n name); cbn.
    + destruct acc as [x |]; [reflexivity |]. rewrite IH.
      destruct (map snd (filter _ rest)); reflexivity.
    + apply IH.
Qed.

Lemma cookies_get_result name jar s :
  cookies_get name jar s
  = (match cookie_values name jar with
     | [] => Ok None
     | [token] =>
         Ok (match token with EmptyString => None | _ => Some token end)
     | _ :: _ :: _ => Raise CookieConflictError
     end, s).
Proof.
  unfold cookies_get. rewrite find_no_duplicates_values.
  destruct (cookie_values name jar) as [| [| c t] [| w rest]]; reflexivity.
Qed.

Lemma cookie_values_In name jar value :
  In value (cookie_values name jar) -> In (name, value) jar.
Proof.
  unfold cookie_values. intros H. apply in_map_iff in H.
  destruct H as ([n v] & <- & H). apply filter_In in H.
  destruct H as [H E]. cbn in E. apply String.eqb_eq in E. subst n. exact H.
Qed.

(** When both answers have status 200, [get_auth_key] returns what the
    lookup of the cookie gives. *)
Lemma get_auth_key_lookup s a body z :
  snd (authenticate_at env (authenticate_calls s)) = inl a ->
  post_status_code a = 200 ->
  post_json a = Some body ->
  snd (authorize_at env (authorize_calls s)) = inl z ->
  post_status_code z = 200 ->
  exists s',
    get_auth_key env config verbose s
    = cookies_get "auth_key" (post_cookies z) s'.
Proof.
  intros Ha Ha200 Hbody Hz Hz200.
  apply Z.eqb_eq in Ha200. apply Z.eqb_eq in Hz200.
  unfold get_auth_key, time_request, post_authenticate, post_authorize.
  unfold_monad.
  destruct verbose; cbn; rewrite Ha; cbn; rewrite Ha200; cbn;
    rewrite Hbody; cbn; rewrite Hz; cbn; rewrite Hz200; cbn;
    eexists; reflexivity.
Qed.

(** C8, as amended.  [get_auth_key] raises an error carrying the status
    code when the authenticate answer is not 200, and, the first answer
    being 200 with a JSON body, when the authorize answer is not 200.
    When both are 200 it returns what the lookup of the [auth_key]
    cookie of the authorize answer gives: the value of the cookie, a
    token that is not empty; [None], without raising, when there is no
    such cookie or when its value is empty; and the lookup raises
    [CookieConflictError] when the answer carries several cookies of
    that name. *)
Theorem get_auth_key_results s a :
  snd (authenticate_at env (authenticate_calls s)) = inl a ->
  (post_status_code a <> 200 ->
   fst (get_auth_key env config verbose s)
   = Raise (AuthenticationFailed (post_status_code a)))
  /\
  (post_status_code a = 200 ->
   forall body z,
     post_json a = Some body ->
     snd (authorize_at env (authorize_calls s)) = inl z ->
     (post_status_code z <> 200 ->
      fst (get_auth_key env config verbose s)
      = Raise (AuthorizationFailed (post_status_code z)))
     /\
     (post_status_code z = 200 ->
      match cookie_values "auth_key" (post_cookies z) with
      | [] => fst (get_auth_key env config verbose s) = Ok None
      | [token] =>
          fst (get_auth_key env config verbose s)
          = Ok (match token with EmptyString => None | _ => Some token end)
      | _ :: _ :: _ =>
          fst (get_auth_key env config verbose s)
          = Raise CookieConflictError
      end
      /\ forall token,
           fst (get_auth_key env config verbose s) = Ok (Some token) ->
           token <> EmptyString
           /\ In ("auth_key"%string, token) (post_cookies z))).
Proof.
  intros Ha.
  unfold get_auth_key, time_request, post_authenticate, post_authorize.
  unfold_monad. split.
  - intros Hne. apply Z.eqb_neq in Hne.
    destruct verbose; cbn; rewrite Ha; cbn; rewrite Hne; reflexivity.
  - intros Heq body z Hbody Hz. apply Z.eqb_eq in Heq. split.
    + intros Hne. apply Z.eqb_neq in Hne.
      destruct verbose; cbn; rewrite Ha; cbn; rewrite Heq; cbn;
        rewrite Hbody; cbn; rewrite Hz; cbn; rewrite Hne; reflexivity.
    + intros Hz200. apply Z.eqb_eq in Heq.
      fold (post_authenticate env (email config) (password config)
              (auth_token config)).
      fold (post_authorize env body (auth_token config)).
      destruct (get_auth_key_lookup s a body z Ha Heq Hbody Hz Hz200)
        as (s' & Hrun).
      rewrite cookies_get_result in Hrun.
      assert (Hin : forall token,
                 In token (cookie_values "auth_key" (post_cookies z)) ->
                 In ("auth_key"%string, token) (post_cookies z)).
      { intros token. apply cookie_values_In. }
      change (match cookie_values "auth_key" (post_cookies z) with
              | [] => fst (get_auth_key env config verbose s) = Ok None
              | [token] =>
                  fst (get_auth_key env config verbose s)
                  = Ok (match token with
                        | EmptyString => None
                        | _ => Some token
                        end)
              | _ :: _ :: _ =>
                  fst (get_auth_key env config verbose s)
                  = Raise CookieConflictError
              end
              /\ forall token,
                   fst (get_auth_key env config verbose s) = Ok (Some token) ->
                   token <> EmptyString
                   /\ In ("auth_key"%string, token) (post_cookies z)).
      rewrite Hrun. cbn [fst].
      destruct (cookie_values "auth_key" (post_cookies z))
        as [| [| c t] [| w rest]]; (split; [reflexivity |]);
        intros token H; try discriminate.
      injection H as <-. split; [discriminate |].
      apply Hin. left. reflexivity.
Qed.

End Credential.

(** ** Playback request *)

Section Playback.

Variable env : Env.
Variable config : Config.
Variable verbose : bool.

Lemma only_get_playback P id t key :
  (forall h, P (EPlayback h id t key) = true) ->
  only P (get_playback env id t key).
Proof.
  intros HP s. unfold get_playback. unfold_monad. cbn.
  exists [EPlayback (playback_calls s) id t key].
  destruct (snd (playback_at env (playback_calls s))); cbn;
    rewrite HP; repeat split; lia.
Qed.

Lemma make_playback_request_events key cam :
  only open_event (make_playback_request env config verbose key cam).
Proof.
  unfold make_playback_request.
  frame.
  apply only_time_request; [reflexivity |].
  apply only_get_playback. reflexivity.
Qed.

(** What [make_playback_request] returns and how it leaves the world, for a
    camera of the registry. *)
Lemma make_playback_request_run key cam id s :
  lookup cam (cameras config) = Some id ->
  exists s',
    make_playback_request env config verbose key cam s
    = (match snd (playback_at env (playback_calls s)) with
       | inl r =>
           if status_code r =? 200 then Ok (Some (playback_calls s, r))
           else Raise (PlaybackFailed cam (status_code r))
       | inr f => Raise (exn_of_fault f)
       end, s')
    /\ (forall r,
          snd (playback_at env (playback_calls s)) = inl r ->
          clock s'
          = snd (read (wait (fst (playback_at env (playback_calls s)))
                         (snd (read (snd (read (clock s))))))))
    /\ playback_calls s' = S (playback_calls s)
    /\ playbacks (trace s') = playbacks (trace s) ++ [(id, key)].
Proof.
  intros Hid.
  unfold make_playback_request, time_request, get_playback.
  rewrite Hid. unfold_monad. unfold playbacks.
  destruct verbose; cbn;
    destruct (playback_at env (playback_calls s)) as [d [r | f]]; cbn;
    try destruct (status_code r =? 200); cbn;
    eexists; repeat split; cbn; try discriminate;
    rewrite ?flat_map_app; cbn; rewrite ?app_nil_r; reflexivity.
Qed.

Lemma make_playback_request_unknown key cam s :
  lookup cam (cameras config) = None ->
  make_playback_request env config verbose key cam s
  = (Raise (KeyError cam), s).
Proof.
  intros H. unfold make_playback_request. rewrite H. reflexivity.
Qed.

Lemma make_playback_request_not_None key cam s :
  fst (make_playback_request env config verbose key cam s) <> Ok None.
Proof.
  destruct (lookup cam (cameras config)) as [id |] eqn:Hid.
  - destruct (make_playback_request_run key cam id s Hid) as (s' & -> & _).
    cbn. destruct (snd (playback_at env (playback_calls s))) as [r | f];
      [destruct (status_code r =? 200) |]; discriminate.
  - rewrite make_playback_request_unknown by assumption. discriminate.
Qed.

End Playback.

(** ** The chunk loop *)

Section Chunks.

Variable start_fetch_time : Q.

Lemma only_on_chunk len st :
  only chunk_event (on_chunk start_fetch_time len st).
Proof. unfold on_chunk. frame. Qed.

Lemma only_consume chunks :
  forall st, only chunk_event (consume chunks start_fetch_time st).
Proof.
  induction chunks as [| [d len] rest IH]; intros st; cbn [consume].
  - apply only_ret.
  - frame; [apply only_on_chunk | apply IH].
Qed.

Lemma only_iter_content chunks ending st :
  only chunk_event (iter_content chunks ending start_fetch_time st).
Proof. unfold iter_content. frame. apply only_consume. Qed.

(** One pass through the body: it cannot fail, it numbers the next chunk
    one higher and adds the chunk's length to the total; it reads the
    clock as [handled] says, and prints a diagnostic when the fetch
    duration, from [fetch_start] to the reading at the top of the body,
    reaches the threshold. *)
Lemma on_chunk_run len st s :
  exists s',
    on_chunk start_fetch_time len st s
    = (Ok {| fetch_start := fst (handled (counter st) (clock s));
             counter := counter st + 1;
             total_size := total_size st + len |}, s')
    /\ clock s' = snd (handled (counter st) (clock s))
    /\ slow_chunks (trace s')
       = slow_chunks (trace s)
         ++ slow [(counter st,
                   millis (fsub (fst (read (clock s))) (fetch_start st)))].
Proof.
  unfold on_chunk, handled, slow. unfold_monad. unfold slow_chunks.
  cbn [filter snd].
  destruct (millis (fsub (fst (read (clock s))) (fetch_start st))
            >=? SLOW_FETCH_THRESHOLD_MS);
    destruct (counter st mod 100 =? 0); cbn;
    eexists; repeat split; cbn;
    rewrite ?flat_map_app; cbn; rewrite ?app_nil_r; reflexivity.
Qed.

Lemma consume_counts chunks :
  forall st s,
  exists st' s',
    consume chunks start_fetch_time st s = (Ok st', s')
    /\ counter st' = counter st + Z.of_nat (List.length chunks)
    /\ total_size st' = total_size st + sizes chunks.
Proof.
  induction chunks as [| [d len] rest IH]; intros st s.
  - exists st, s. cbn. repeat split; lia.
  - cbn [consume]. unfold bind at 1. cbn [elapse].
    match goal with |- context [bind _ _ ?s1] =>
      destruct (on_chunk_run len st s1) as (s2 & Hrun & _) end.
    erewrite bind_ok by exact Hrun.
    match goal with |- context [consume rest _ ?st1 _] =>
      destruct (IH st1 s2) as (st' & s' & Hc & Hn & Ht) end.
    exists st', s'. split; [exact Hc |].
    cbn in Hn, Ht. unfold sizes in *. cbn [List.length map fold_right snd].
    split; lia.
Qed.

Lemma slow_app l l' : slow (l ++ l') = slow l ++ slow l'.
Proof. apply filter_app. Qed.

(** The diagnostics of the loop are those of its slow fetches. *)
Lemma consume_slow chunks :
  forall st s,
    slow_chunks (trace (snd (consume chunks start_fetch_time st s)))
    = slow_chunks (trace s)
      ++ slow (fetches (counter st) (fetch_start st) (clock s) chunks).
Proof.
  induction chunks as [| [d len] rest IH]; intros st s.
  - cbn. symmetry. apply app_nil_r.
  - cbn [consume]. unfold bind at 1. cbn [elapse].
    match goal with |- context [bind _ _ ?s1] =>
      destruct (on_chunk_run len st s1) as (s2 & Hrun & Hclock & Hslow) end.
    erewrite bind_ok by exact Hrun.
    rewrite IH, Hslow. cbn [clock trace counter fetch_start fetches].
    rewrite Hclock. cbn [clock].
    destruct (handled (counter st) (wait d (clock s))) as [fs' c'].
    cbn [fst snd].
    change ((counter st,
             millis (fsub (fst (read (wait d (clock s)))) (fetch_start st)))
            :: fetches (counter st + 1) fs' c' rest)
      with ([(counter st,
              millis (fsub (fst (read (wait d (clock s)))) (fetch_start st)))]
            ++ fetches (counter st + 1) fs' c' rest).
    rewrite slow_app, <- app_assoc. reflexivity.
Qed.

End Chunks.

Section Session.

Lemma only_close st : only session_event (close st).
Proof. unfold close. frame. Qed.

Lemma only_stream_session st : only session_event (stream_session st).
Proof.
  unfold stream_session. frame.
  - eapply only_weaken; [| apply only_iter_content].
    intros e He. unfold session_event. rewrite He. reflexivity.
  - apply only_close.
Qed.

Lemma iter_content_slow chunks ending t0 st s :
  slow_chunks (trace (snd (iter_content chunks ending t0 st s)))
  = slow_chunks (trace s)
    ++ slow (fetches (counter st) (fetch_start st) (clock s) chunks).
Proof.
  unfold iter_content.
  rewrite <- (consume_slow t0 chunks st s).
  destruct (consume_counts t0 chunks st s) as (st' & s' & Hc & _).
  erewrite bind_ok by exact Hc. rewrite Hc. cbn.
  destruct (snd ending); reflexivity.
Qed.

(** A session is the loop entered with the first reading of the clock,
    the counter at 1 and the total at 0, followed by a last reading, the
    summary and the close. *)
Lemma stream_session_eq st s :
  stream_session st s
  = (fs <- iter_content (content (snd st) CHUNK_SIZE) (content_end (snd st))
             (fst (read (clock s)))
             {| fetch_start := fst (read (clock s));
                counter := 1; total_size := 0 |} ;;
     end_fetch_time <- time_time ;;
     print (MsgPlaybackUp
              (millis (fsub end_fetch_time (fst (read (clock s)))))
              (total_size fs)) ;;
     close st)%tester (snd (time_time s)).
Proof. reflexivity. Qed.

Lemma stream_session_slow st s :
  slow_chunks (trace (snd (stream_session st s)))
  = slow_chunks (trace s)
    ++ slow (fetches 1 (fst (read (clock s))) (snd (read (clock s)))
               (content (snd st) CHUNK_SIZE)).
Proof.
  rewrite stream_session_eq.
  pose proof (iter_content_slow (content (snd st) CHUNK_SIZE)
                (content_end (snd st)) (fst (read (clock s)))
                {| fetch_start := fst (read (clock s));
                   counter := 1; total_size := 0 |}
                (snd (time_time s))) as H.
  cbn [counter fetch_start] in H.
  change (clock (snd (time_time s))) with (snd (read (clock s))) in H.
  change (trace (snd (time_time s))) with (trace s) in H.
  rewrite <- H. unfold bind at 1.
  destruct (iter_content _ _ _ _ (snd (time_time s))) as [[st' | e] s1];
    [| reflexivity].
  unfold_monad. unfold close, emit, slow_chunks. cbn.
  rewrite !flat_map_app. cbn. rewrite !app_nil_r. reflexivity.
Qed.

(** A stream that ends cleanly: the session prints its summary, with the
    total of the chunk lengths, and closes the stream. *)
Lemma stream_session_clean st s :
  snd (content_end (snd st)) = EndOfStream ->
  exists s' ms,
    stream_session st s = (Ok tt, s')
    /\ closes (trace s') = closes (trace s) ++ [fst st]
    /\ In (MsgPlaybackUp ms (sizes (content (snd st) CHUNK_SIZE)))
          (prints (trace s')).
Proof.
  intros Hend. rewrite stream_session_eq. unfold iter_content.
  set (t0 := fst (read (clock s))). set (s0 := snd (time_time s)).
  destruct (consume_counts t0 (content (snd st) CHUNK_SIZE)
              {| fetch_start := t0; counter := 1; total_size := 0 |} s0)
    as (st' & s1 & Hc & _ & Ht).
  pose proof (only_consume t0 (content (snd st) CHUNK_SIZE)
                {| fetch_start := t0; counter := 1; total_size := 0 |} s0)
    as Hg.
  rewrite Hc in Hg. cbn [snd] in Hg.
  assert (Hcl : closes (trace s1) = closes (trace s)).
  { change (trace s) with (trace s0).
    apply (grows_flat_map chunk_event _ _ _ Hg).
    intros [[] | | | | | |]; cbn; congruence. }
  unfold bind at 1. unfold bind at 1. rewrite Hc. rewrite Hend.
  unfold_monad. unfold close, emit. cbn.
  eexists. eexists. split; [reflexivity |]. cbn. split.
  - unfold closes. rewrite !flat_map_app. cbn. rewrite app_nil_r.
    f_equal. exact Hcl.
  - unfold prints. rewrite !flat_map_app, !in_app_iff. cbn.
    cbn in Ht. rewrite Ht. auto.
Qed.

(** A stream that breaks: the exception leaves the session, and the
    stream has not been closed. *)
Lemma stream_session_broken st s f :
  snd (content_end (snd st)) = Broken f ->
  exists s',
    stream_session st s = (Raise (exn_of_fault f), s')
    /\ closes (trace s') = closes (trace s)
    /\ playback_calls s' = playback_calls s.
Proof.
  intros Hend. rewrite stream_session_eq. unfold iter_content.
  set (t0 := fst (read (clock s))). set (s0 := snd (time_time s)).
  destruct (consume_counts t0 (content (snd st) CHUNK_SIZE)
              {| fetch_start := t0; counter := 1; total_size := 0 |} s0)
    as (st' & s1 & Hc & _).
  pose proof (only_consume t0 (content (snd st) CHUNK_SIZE)
                {| fetch_start := t0; counter := 1; total_size := 0 |} s0)
    as Hg.
  rewrite Hc in Hg. cbn [snd] in Hg.
  unfold bind at 1. unfold bind at 1. rewrite Hc. rewrite Hend.
  unfold_monad. cbn. eexists. split; [reflexivity |]. cbn. split.
  - change (trace s) with (trace s0).
    apply (grows_flat_map chunk_event _ _ _ Hg).
    intros [[] | | | | | |]; cbn; congruence.
  - change (playback_calls s) with (playback_calls s0).
    apply (grows_calls chunk_event _ _ Hg).
    intros [[] | | | | | |]; cbn; congruence.
Qed.

End Session.

(** ** The reconnecting loop *)

Section Balance.

Lemma balanced_refl s : balanced s s.
Proof.
  unfold balanced. rewrite Nat.sub_diag. cbn. rewrite app_nil_r. auto.
Qed.

Lemma balanced_trans s1 s2 s3 :
  balanced s1 s2 -> balanced s2 s3 -> balanced s1 s3.
Proof.
  unfold balanced. intros [L1 H1] [L2 H2]. split; [lia |].
  rewrite H2, H1, <- app_assoc. f_equal.
  replace (playback_calls s3 - playback_calls s1)%nat
    with ((playback_calls s2 - playback_calls s1)
          + (playback_calls s3 - playback_calls s2))%nat by lia.
  rewrite seq_app. do 2 f_equal. lia.
Qed.

(** Steps that neither open nor close a stream. *)
Lemma grows_balanced P s s' :
  grows P s s' ->
  (forall e, P e = true -> is_playback e = false /\ is_close e = false) ->
  balanced s s'.
Proof.
  intros Hg HP. unfold balanced.
  rewrite (grows_calls P s s' Hg) by (intros e He; apply HP, He).
  rewrite Nat.sub_diag. cbn. rewrite app_nil_r. split; [lia |].
  apply (grows_flat_map P _ s s' Hg).
  intros e He. destruct (HP e He) as [_ Hc]. destruct e; cbn in *; congruence.
Qed.

End Balance.

Section Loop.

Variable env : Env.
Variable config : Config.
Variable verbose : bool.

Lemma chatter_streaming e : chatter e = true -> streaming_event e = true.
Proof.
  intros H. unfold streaming_event, open_event. rewrite H. reflexivity.
Qed.

Lemma open_streaming e : open_event e = true -> streaming_event e = true.
Proof. intros H. unfold streaming_event. rewrite H. reflexivity. Qed.

Lemma session_streaming e : session_event e = true -> streaming_event e = true.
Proof.
  intros H. unfold streaming_event. rewrite H. apply orb_true_r.
Qed.

Lemma streaming_not_backoff e :
  streaming_event e = true -> backoff_event e = false.
Proof. destruct e as [[] | | | | | |]; cbn; congruence. Qed.

(** The body of the loop, case by case. *)
Lemma stream_iteration_with_eq opener cam k s :
  stream_iteration_with env config verbose opener cam k s
  = match get_auth_key env config verbose s with
    | (Ok (Some key), s1) =>
        match opener (Some key) cam s1 with
        | (Ok (Some st), s2) =>
            match stream_session st s2 with
            | (Ok _, s3) => (Ok (Some 0), s3)
            | (Raise e, s3) => (Raise e, s3)
            end
        | (Ok None, s2) =>
            (print (MsgFetchFailed (1 * 2 ^ k)) ;;
             time_sleep (1 * 2 ^ k) ;;
             ret (Some (k + 1)))%tester s2
        | (Raise e, s2) => (Raise e, s2)
        end
    | (Ok None, s1) => (Ok None, snd (print MsgNoAuthKey s1))
    | (Raise e, s1) => (Raise e, s1)
    end.
Proof.
  unfold stream_iteration_with. unfold bind at 1.
  destruct (get_auth_key env config verbose s) as [[[key |] | e] s1];
    [| reflexivity ..].
  unfold bind at 1.
  destruct (opener (Some key) cam s1) as [[[st |] | e] s2];
    [| reflexivity ..].
  unfold bind at 1.
  destruct (stream_session st s2) as [[[] | e] s3]; reflexivity.
Qed.

(** Without a token the loop prints and returns; no playback request is
    sent. *)
Lemma stream_loop_without_token fuel cam k s s1 :
  get_auth_key env config verbose s = (Ok None, s1) ->
  stream_loop env config verbose (S fuel) cam k s
  = (Some (Ok tt), snd (print MsgNoAuthKey s1))
  /\ playbacks (trace (snd (print MsgNoAuthKey s1))) = playbacks (trace s).
Proof.
  intros Hkey. split.
  - unfold stream_loop. cbn [stream_loop_with].
    rewrite stream_iteration_with_eq, Hkey. reflexivity.
  - pose proof (get_auth_key_chatter env config verbose s) as Hg.
    rewrite Hkey in Hg. cbn [snd] in Hg.
    unfold print, emit, playbacks. cbn [snd trace].
    rewrite flat_map_app. cbn [flat_map app]. rewrite app_nil_r.
    apply (grows_flat_map chatter _ _ _ Hg).
    intros [[] | | | | | |]; cbn; congruence.
Qed.

(** One pass of the loop with the method as written: it never takes the
    backoff branch, so it emits nothing of that branch and never hands on
    a counter other than 0. *)
Lemma stream_iteration_run cam k s :
  grows streaming_event s (snd (stream_iteration env config verbose cam k s))
  /\ ((exists e, fst (stream_iteration env config verbose cam k s) = Raise e)
      \/ fst (stream_iteration env config verbose cam k s) = Ok None
      \/ fst (stream_iteration env config verbose cam k s) = Ok (Some 0)).
Proof.
  unfold stream_iteration. rewrite stream_iteration_with_eq.
  pose proof (get_auth_key_chatter env config verbose s) as Hk.
  apply (grows_weaken _ _ _ _ chatter_streaming) in Hk.
  destruct (get_auth_key env config verbose s) as [[[key |] | e] s1];
    cbn [snd] in Hk.
  - pose proof (make_playback_request_events env config verbose
                  (Some key) cam s1) as Hm.
    apply (grows_weaken _ _ _ _ open_streaming) in Hm.
    pose proof (make_playback_request_not_None env config verbose
                  (Some key) cam s1) as Hnn.
    destruct (make_playback_request env config verbose (Some key) cam s1)
      as [[[st |] | e] s2]; cbn [fst snd] in Hm, Hnn.
    + pose proof (only_stream_session st s2) as Hs.
      apply (grows_weaken _ _ _ _ session_streaming) in Hs.
      destruct (stream_session st s2) as [[[] | e] s3]; cbn [snd] in Hs;
        cbn [fst snd]; (split; [eauto using grows_trans | eauto]).
    + congruence.
    + cbn [fst snd]. split; [eauto using grows_trans | eauto].
  - cbn [fst snd]. split; [| right; left; reflexivity].
    eapply grows_trans; [exact Hk |].
    assert (Hc : only streaming_event (print MsgNoAuthKey)) by frame.
    apply Hc.
  - cbn [fst snd]. split; [exact Hk | eauto].
Qed.

Lemma stream_loop_events fuel :
  forall cam k s,
    grows streaming_event s (snd (stream_loop env config verbose fuel cam k s)).
Proof.
  induction fuel as [| fuel IH]; intros cam k s.
  - apply grows_refl.
  - unfold stream_loop. cbn [stream_loop_with].
    fold (stream_iteration env config verbose cam k s).
    destruct (stream_iteration_run cam k s) as [Hg _].
    destruct (stream_iteration env config verbose cam k s) as [[[k' |] | e] s1];
      cbn [snd] in Hg; try exact Hg.
    eapply grows_trans; [exact Hg | apply IH].
Qed.

(** A pass that does not raise leaves no stream open. *)
Lemma stream_iteration_balanced cam k s o s' :
  stream_iteration env config verbose cam k s = (Ok o, s') -> balanced s s'.
Proof.
  unfold stream_iteration. rewrite stream_iteration_with_eq.
  pose proof (get_auth_key_chatter env config verbose s) as Hk.
  destruct (get_auth_key env config verbose s) as [[[key |] | e] s1];
    cbn [snd] in Hk;
    [| | discriminate].
  - assert (B1 : balanced s s1).
    { apply (grows_balanced _ _ _ Hk).
      intros [[] | | | | | |]; cbn; auto; discriminate. }
    pose proof (make_playback_request_events env config verbose
                  (Some key) cam s1) as Hm.
    destruct (lookup cam (cameras config)) as [id |] eqn:Hid.
    2:{ rewrite make_playback_request_unknown by assumption. discriminate. }
    destruct (make_playback_request_run env config verbose (Some key) cam id
                s1 Hid) as (s2 & Hrun & _ & Hcalls & _).
    rewrite Hrun in Hm |- *. cbn [snd] in Hm.
    destruct (snd (playback_at env (playback_calls s1))) as [r | f];
      [| discriminate].
    destruct (status_code r =? 200); [| discriminate].
    destruct (snd (content_end r)) as [| f] eqn:Hend.
    + destruct (stream_session_clean (playback_calls s1, r) s2 Hend)
        as (s3 & ms & Hs & Hcl & _).
      rewrite Hs. intros H. injection H as _ <-.
      eapply balanced_trans; [exact B1 |].
      unfold balanced.
      assert (Hc3 : playback_calls s3 = playback_calls s2).
      { pose proof (only_stream_session (playback_calls s1, r) s2) as Hg.
        rewrite Hs in Hg. apply (grows_calls _ _ _ Hg).
        intros [[] | | | | | |]; cbn; congruence. }
      rewrite Hc3, Hcalls. split; [lia |].
      replace (S (playback_calls s1) - playback_calls s1)%nat with 1%nat
        by lia.
      cbn [seq]. rewrite Hcl. cbn [fst]. f_equal.
      apply (grows_flat_map _ _ _ _ Hm).
      intros [[] | | | | | |]; cbn; congruence.
    + destruct (stream_session_broken (playback_calls s1, r) s2 f Hend)
        as (s3 & Hs & _).
      rewrite Hs. discriminate.
  - intros H. injection H as _ <-.
    apply (grows_balanced chatter).
    + eapply grows_trans; [exact Hk |].
      assert (Hc : only chatter (print MsgNoAuthKey)) by frame. apply Hc.
    + intros [[] | | | | | |]; cbn; auto; discriminate.
Qed.

Lemma stream_loop_balanced fuel :
  forall cam k s,
    (forall e,
       fst (stream_loop env config verbose fuel cam k s)
       <> Some (Raise e)) ->
    balanced s (snd (stream_loop env config verbose fuel cam k s)).
Proof.
  induction fuel as [| fuel IH]; intros cam k s.
  - intros _. apply balanced_refl.
  - unfold stream_loop. cbn [stream_loop_with].
    fold (stream_iteration env config verbose cam k s).
    destruct (stream_iteration env config verbose cam k s)
      as [[[k' |] | e] s1] eqn:Hit.
    + intros H. eapply balanced_trans.
      * eapply stream_iteration_balanced, Hit.
      * apply IH, H.
    + intros _. eapply stream_iteration_balanced, Hit.
    + intros H. exfalso. apply (H e). reflexivity.
Qed.

End Loop.

Section Numbering.

Lemma consume_app t0 pre post :
  forall st s,
    consume (pre ++ post) t0 st s
    = (st' <- consume pre t0 st ;; consume post t0 st')%tester s.
Proof.
  induction pre as [| [d len] pre IH]; intros st s.
  - reflexivity.
  - cbn [app consume]. rewrite !bind_assoc.
    apply bind_ext. intros _ s1. rewrite bind_assoc.
    apply bind_ext. intros st1 s2. apply IH.
Qed.

Lemma fetches_numbers chunks :
  forall n t c,
    map fst (fetches n t c chunks)
    = map (fun i => n + Z.of_nat i) (seq 0 (List.length chunks)).
Proof.
  induction chunks as [| [d len] rest IH]; intros n t c.
  - reflexivity.
  - cbn [fetches List.length seq map fst]. f_equal; [lia |].
    rewrite IH, <- seq_shift, map_map. apply map_ext. intros i. lia.
Qed.

Lemma slow_In fetched n ms :
  In (n, ms) (slow fetched)
  <-> In (n, ms) fetched /\ SLOW_FETCH_THRESHOLD_MS <= ms.
Proof.
  unfold slow. rewrite filter_In. cbn [snd].
  rewrite Z.geb_le. reflexivity.
Qed.

End Numbering.

(** C6. Within one session the chunks are numbered 1, 2, 3, ...: when the
    chunks of the stream are [pre], a chunk of length [len] and [post],
    [stream_session] runs its loop over [pre] from [counter] = 1 and
    [total_size] = 0, handles the chunk with [counter] = N + 1 and
    [total_size] = the sum of the N lengths of [pre], leaves
    [counter] = N + 2 and [total_size] increased by [len], and goes on
    from there with [post]; and a session whose stream ends cleanly
    reports, in its summary, the sum of the lengths of all its chunks. *)
Theorem chunk_numbering :
  (forall st s pre d len post,
     content (snd st) CHUNK_SIZE = pre ++ (d, len) :: post ->
     exists fs s1 fs' s2,
       consume pre (fst (read (clock s)))
         {| fetch_start := fst (read (clock s));
            counter := 1; total_size := 0 |} (snd (time_time s))
       = (Ok fs, s1)
       /\ counter fs = Z.of_nat (List.length pre) + 1
       /\ total_size fs = sizes pre
       /\ (elapse d ;; on_chunk (fst (read (clock s))) len fs)%tester s1
          = (Ok fs', s2)
       /\ counter fs' = Z.of_nat (List.length pre) + 2
       /\ total_size fs' = sizes pre + len
       /\ stream_session st s
          = (fs'' <- iter_content post (content_end (snd st))
                       (fst (read (clock s))) fs' ;;
             end_fetch_time <- time_time ;;
             print (MsgPlaybackUp
                      (millis (fsub end_fetch_time (fst (read (clock s)))))
                      (total_size fs'')) ;;
             close st)%tester s2)
  /\ (forall st s,
        snd (content_end (snd st)) = EndOfStream ->
        exists s' ms,
          stream_session st s = (Ok tt, s')
          /\ In (MsgPlaybackUp ms (sizes (content (snd st) CHUNK_SIZE)))
                (prints (trace s'))).
Proof.
  split.
  - intros st s pre d len post Hchunks.
    set (t0 := fst (read (clock s))).
    destruct (consume_counts t0 pre
                {| fetch_start := t0; counter := 1; total_size := 0 |}
                (snd (time_time s)))
      as (fs & s1 & Hc & Hn & Ht).
    cbn [counter total_size] in Hn, Ht.
    destruct (on_chunk_run t0 len fs (snd (elapse d s1)))
      as (s2 & Hrun & _).
    eexists fs, s1, _, s2. repeat split.
    + exact Hc.
    + lia.
    + lia.
    + unfold bind at 1. cbn [elapse]. exact Hrun.
    + cbn. lia.
    + cbn. lia.
    + rewrite stream_session_eq. fold t0. rewrite Hchunks.
      unfold iter_content. rewrite !bind_assoc.
      unfold bind at 1. rewrite consume_app.
      erewrite bind_ok by exact Hc.
      cbn [consume]. unfold bind at 1. cbn [elapse].
      erewrite bind_ok by exact Hrun.
      rewrite ?bind_assoc. reflexivity.
  - intros st s Hend.
    destruct (stream_session_clean st s Hend) as (s' & ms & Hs & _ & Hp).
    eauto.
Qed.


Section Dead.

Variable env : Env.
Variable config : Config.
Variable verbose : bool.

(** C10. [make_playback_request] raises or returns a stream (one whose
    status is 200), never [None]; so no run of [stream_repeatedly] ever
    emits what the backoff branch emits (its message and its sleep), and
    no pass hands on a failure counter other than 0. *)
Theorem backoff_branch_unreachable :
  (forall key cam s,
     match fst (make_playback_request env config verbose key cam s) with
     | Raise _ => True
     | Ok (Some st) => status_code (snd st) = 200
     | Ok None => False
     end)
  /\ (forall fuel cam s,
        exists evs,
          trace (snd (stream_repeatedly env config verbose fuel cam s))
          = trace s ++ evs
          /\ forallb (fun e => negb (backoff_event e)) evs = true)
  /\ (forall fuel cam s,
        sleeps (trace (snd (stream_repeatedly env config verbose fuel cam s)))
        = sleeps (trace s))
  /\ (forall cam k s,
        match fst (stream_iteration env config verbose cam k s) with
        | Ok (Some k') => k' = 0
        | _ => True
        end).
Proof.
  repeat split.
  - intros key cam s.
    destruct (lookup cam (cameras config)) as [id |] eqn:Hid.
    + destruct (make_playback_request_run env config verbose key cam id s Hid)
        as (s' & -> & _). cbn [fst].
      destruct (snd (playback_at env (playback_calls s))) as [r | f];
        [| exact I].
      destruct (Z.eqb_spec (status_code r) 200); [assumption | exact I].
    + rewrite make_playback_request_unknown by assumption. exact I.
  - intros fuel cam s.
    destruct (stream_loop_events env config verbose fuel cam 0 s)
      as (evs & Ht & F & _).
    exists evs. split; [exact Ht |].
    rewrite forallb_forall in *. intros e He.
    rewrite (streaming_not_backoff e (F e He)). reflexivity.
  - intros fuel cam s.
    apply (grows_flat_map streaming_event _ _ _
             (stream_loop_events env config verbose fuel cam 0 s)).
    intros [[] | | | | | |]; cbn; congruence.
  - intros cam k s.
    destruct (stream_iteration_run env config verbose cam k s)
      as [_ [[e ->] | [-> | ->]]]; auto.
Qed.

End Dead.

Section Backoff.

Variable env : Env.
Variable config : Config.
Variable verbose : bool.

(** The backoff branch by itself computes the schedule 1, 2, 4, ...: were
    the stream opened by a method that reports failure by returning
    [None], [fuel] passes would sleep [2 ^ k], [2 ^ (k + 1)], ... *)
Lemma backoff_schedule_of_a_None_opener cam :
  (forall s,
     exists key, fst (get_auth_key env config verbose s) = Ok (Some key)) ->
  forall fuel k s,
    0 <= k ->
    sleeps (trace (snd (stream_loop_with env config verbose
                          (fun _ _ => ret None) fuel cam k s)))
    = sleeps (trace s)
      ++ map (fun i => 2 ^ (k + Z.of_nat i)) (seq 0 fuel).
Proof.
  intros Hkey. induction fuel as [| fuel IH]; intros k s Hk.
  - cbn. symmetry. apply app_nil_r.
  - cbn [stream_loop_with]. rewrite stream_iteration_with_eq.
    destruct (Hkey s) as [key Hs].
    pose proof (get_auth_key_chatter env config verbose s) as Hg.
    destruct (get_auth_key env config verbose s) as [r s1].
    cbn [fst snd] in Hs, Hg. subst r. cbn [ret].
    assert (Hsl : sleeps (trace s1) = sleeps (trace s)).
    { apply (grows_flat_map chatter _ _ _ Hg).
      intros [[] | | | | | |]; cbn; congruence. }
    unfold_monad. unfold time_sleep.
    assert (Hpos : 0 <= 1 * 2 ^ k)
      by (rewrite Z.mul_1_l; apply Z.pow_nonneg; lia).
    apply Z.ltb_ge in Hpos. rewrite Hpos. unfold_monad.
    rewrite IH by lia. cbn [trace]. unfold sleeps at 1.
    rewrite !flat_map_app. cbn [flat_map app]. rewrite app_nil_r.
    fold (sleeps (trace s1)). rewrite Hsl, <- app_assoc. f_equal.
    cbn [seq map app]. rewrite Z.mul_1_l, Z.add_0_r. f_equal.
    rewrite <- seq_shift, map_map. apply map_ext. intros i. f_equal. lia.
Qed.

(** Three passes through that branch sleep 1 s, 2 s and 4 s. *)
Example backoff_schedule_three_failures :
  sleeps (trace (snd (stream_loop_with Scenario.latencies
                        Scenario.front_config false (fun _ _ => ret None)
                        3 "front" 0 initial_state)))
  = [1; 2; 4].
Proof. vm_compute. reflexivity. Qed.

(** C2, as amended.  Once the stream is open, [stream_repeatedly] has no
    handler around it: when the stream breaks, the exception of the read
    ends the loop and reaches the caller; only when the stream ends
    cleanly does the loop go round again, starting with a new credential
    exchange, failure counter 0, and no sleep in between. *)
Theorem stream_failure_leaves_the_loop cam k s key s1 st s2 :
  get_auth_key env config verbose s = (Ok (Some key), s1) ->
  make_playback_request env config verbose (Some key) cam s1
  = (Ok (Some st), s2) ->
  (forall f fuel,
     snd (content_end (snd st)) = Broken f ->
     exists s',
       stream_loop env config verbose (S fuel) cam k s
       = (Some (Raise (exn_of_fault f)), s')
       /\ sleeps (trace s') = sleeps (trace s))
  /\ (snd (content_end (snd st)) = EndOfStream ->
      exists s',
        stream_iteration env config verbose cam k s = (Ok (Some 0), s')
        /\ (forall fuel,
              stream_loop env config verbose (S fuel) cam k s
              = stream_loop env config verbose fuel cam 0 s')
        /\ sleeps (trace s') = sleeps (trace s)).
Proof.
  intros Hkey Hopen.
  assert (Hsl : forall s',
             snd (stream_iteration env config verbose cam k s) = s' ->
             sleeps (trace s') = sleeps (trace s)).
  { intros s' <-.
    apply (grows_flat_map streaming_event _ _ _
             (proj1 (stream_iteration_run env config verbose cam k s))).
    intros [[] | | | | | |]; cbn; congruence. }
  split.
  - intros f fuel Hend.
    destruct (stream_session_broken st s2 f Hend) as (s3 & Hs & _).
    assert (Hit : stream_iteration env config verbose cam k s
                  = (Raise (exn_of_fault f), s3)).
    { unfold stream_iteration. rewrite stream_iteration_with_eq.
      rewrite Hkey, Hopen, Hs. reflexivity. }
    exists s3. split.
    + unfold stream_loop. cbn [stream_loop_with].
      fold (stream_iteration env config verbose cam k s).
      rewrite Hit. reflexivity.
    + apply Hsl. rewrite Hit. reflexivity.
  - intros Hend.
    destruct (stream_session_clean st s2 Hend) as (s3 & ms & Hs & _).
    assert (Hit : stream_iteration env config verbose cam k s
                  = (Ok (Some 0), s3)).
    { unfold stream_iteration. rewrite stream_iteration_with_eq.
      rewrite Hkey, Hopen, Hs. reflexivity. }
    exists s3. repeat split.
    + exact Hit.
    + intros fuel. unfold stream_loop. cbn [stream_loop_with].
      fold (stream_iteration env config verbose cam k s).
      rewrite Hit. reflexivity.
    + apply Hsl. rewrite Hit. reflexivity.
Qed.

End Backoff.

Lemma stream_failure_leaves_the_loop_witness :
  exists s',
    stream_loop Scenario.reset_mid_stream Scenario.front_config false 1
      "front" 0 initial_state
    = (Some (Raise RequestException), s')
    /\ sleeps (trace s') = sleeps (trace initial_state).
Proof.
  refine (proj1 (stream_failure_leaves_the_loop
                   Scenario.reset_mid_stream Scenario.front_config false
                   "front" 0 initial_state _ _ _ _ _ _)
                ConnectionFault 0%nat _).
  - vm_compute. reflexivity.
  - vm_compute. reflexivity.
  - reflexivity.
Defined.

(** C2, as stated, fails: when the connection is reset in mid-stream the
    exception reaches the caller of [stream_repeatedly]; the loop has
    ended after one credential exchange, without a second one. *)
Lemma mid_stream_fault_reaches_the_caller :
  let r := stream_repeatedly Scenario.reset_mid_stream Scenario.front_config
             false 3 "front" initial_state in
  fst r = Some (Raise RequestException)
  /\ authenticate_calls (snd r) = 1%nat
  /\ playback_calls (snd r) = 1%nat.
Proof. vm_compute. auto. Qed.

(** C1 fails on the code: with the playback request refused three times
    and then accepted, the first refusal raises out of
    [stream_repeatedly]; nothing is slept and no second attempt is made. *)
Theorem open_failure_ends_stream_repeatedly :
  forall fuel,
    let r := stream_repeatedly Scenario.three_refusals Scenario.front_config
               false (S fuel) "front" initial_state in
    fst r = Some (Raise (PlaybackFailed "front" 500))
    /\ sleeps (trace (snd r)) = []
    /\ playback_calls (snd r) = 1%nat.
Proof. intros fuel. vm_compute. auto. Qed.

(** C3 fails on the code for the latency test: when the authorize answer
    carries no cookie, [stream_repeatedly] prints and returns without a
    playback request, but [test_latency] goes on and sends the playback
    request with no token. *)
Theorem latency_test_ignores_missing_token :
  (let r := stream_repeatedly Scenario.no_cookie Scenario.front_config
              false 1 "front" initial_state in
   fst r = Some (Ok tt)
   /\ playbacks (trace (snd r)) = []
   /\ prints (trace (snd r)) = [MsgNoAuthKey])
  /\ (let r := test_latency Scenario.no_cookie Scenario.front_config
                 false 1 initial_state in
      fst r = Ok tt
      /\ playbacks (trace (snd r)) = [("100"%string, None)]).
Proof. vm_compute. auto. Qed.

(** ** Sorting, sum and median *)

Section Sorting.

Local Open Scope Q_scope.

Lemma insert_perm x l : Permutation (x :: l) (insert x l).
Proof.
  induction l as [| y l IH]; cbn.
  - apply Permutation_refl.
  - destruct (Qle_bool x y).
    + apply Permutation_refl.
    + eapply perm_trans; [apply perm_swap |]. apply perm_skip, IH.
Qed.

Lemma sort_perm l : Permutation l (sort l).
Proof.
  induction l as [| x l IH]; cbn.
  - apply perm_nil.
  - eapply perm_trans; [apply perm_skip, IH | apply insert_perm].
Qed.

Lemma sort_length l : List.length (sort l) = List.length l.
Proof. symmetry. apply Permutation_length, sort_perm. Qed.

Lemma insert_sorted x l :
  StronglySorted Qle l -> StronglySorted Qle (insert x l).
Proof.
  induction 1 as [| y l Hs IH Hall]; cbn.
  - constructor; constructor.
  - destruct (Qle_bool x y) eqn:E.
    + apply Qle_bool_iff in E. constructor.
      * constructor; assumption.
      * constructor; [exact E |].
        eapply Forall_impl; [| exact Hall].
        intros z Hz. eapply Qle_trans; eassumption.
    + assert (Hyx : y <= x).
      { apply Qlt_le_weak, Qnot_le_lt. intros C.
        apply Qle_bool_iff in C. congruence. }
      constructor; [exact IH |].
      eapply Permutation_Forall; [apply insert_perm |].
      constructor; assumption.
Qed.

Lemma sort_sorted l : StronglySorted Qle (sort l).
Proof.
  induction l as [| x l IH]; cbn.
  - constructor.
  - apply insert_sorted, IH.
Qed.

(** Sorting leaves a sorted list as it is. *)
Lemma sort_of_sorted l : StronglySorted Qle l -> sort l = l.
Proof.
  induction 1 as [| x l Hs IH Hall]; cbn; [reflexivity |].
  rewrite IH. destruct l as [| y l]; [reflexivity |]. cbn.
  inversion Hall as [| ? ? Hxy _]; subst.
  apply Qle_bool_iff in Hxy. rewrite Hxy. reflexivity.
Qed.

Lemma sort_idempotent l : sort (sort l) = sort l.
Proof. apply sort_of_sorted, sort_sorted. Qed.

(** In a sorted list the head is the least element and the last the
    greatest. *)
Lemma sorted_head_least x l y :
  StronglySorted Qle (x :: l) -> In y (x :: l) -> x <= y.
Proof.
  intros Hs [<- | Hin].
  - apply Qle_refl.
  - inversion Hs as [| ? ? _ Hall]; subst.
    rewrite Forall_forall in Hall. apply Hall, Hin.
Qed.

Lemma sorted_last_greatest l :
  StronglySorted Qle l -> forall d y, In y l -> y <= last l d.
Proof.
  induction 1 as [| x l Hs IH Hall]; intros d y Hin; [contradiction |].
  destruct l as [| z l].
  - destruct Hin as [<- | []]. apply Qle_refl.
  - change (last (x :: z :: l) d) with (last (z :: l) d).
    destruct Hin as [<- | Hin].
    + eapply Qle_trans; [| apply (IH d z); left; reflexivity].
      inversion Hall; assumption.
    + apply IH, Hin.
Qed.

Lemma median_bounds lo l :
  StronglySorted Qle (lo :: l) ->
  exists m,
    median (lo :: l) = Some m
    /\ round64 lo <= round64 m
    /\ round64 m <= round64 (last (lo :: l) lo).
Proof.
  intros Hs. unfold median. rewrite (sort_of_sorted _ Hs).
  set (data := lo :: l). set (n := List.length data).
  assert (Hn : (0 < n)%nat) by (subst n data; cbn; lia).
  assert (Hnth : forall i, (i < n)%nat ->
                   lo <= nth i data 0 /\ nth i data 0 <= last data lo).
  { intros i Hi. assert (Hin : In (nth i data 0) data) by (apply nth_In, Hi).
    split.
    - apply (sorted_head_least lo l _ Hs Hin).
    - apply (sorted_last_greatest data Hs lo _ Hin). }
  destruct (Nat.eqb_spec n 0) as [E0 | _]; [lia |].
  destruct (Nat.eqb_spec (n mod 2) 1) as [Eodd | Eeven].
  - eexists. split; [reflexivity |].
    destruct (Hnth (n / 2)%nat) as [A B].
    { apply Nat.Div0.div_lt_upper_bound. lia. }
    split; apply round64_mono; assumption.
  - assert (Hmod : (n mod 2 = 0)%nat).
    { pose proof (Nat.mod_upper_bound n 2). lia. }
    assert (Hdiv : (n = 2 * (n / 2))%nat).
    { pose proof (Nat.div_mod_eq n 2). lia. }
    destruct (Hnth (n / 2 - 1)%nat) as [A1 A2]; [lia |].
    destruct (Hnth (n / 2)%nat) as [B1 B2]; [lia |].
    eexists. split; [reflexivity |].
    set (a := nth (n / 2 - 1) data 0) in *.
    set (b := nth (n / 2) data 0) in *.
    set (hi := last data lo) in *.
    apply round64_mono in A1, A2, B1, B2.
    rewrite fdiv_fadd_2, round64_idem.
    rewrite <- (round64_idem lo), <- (round64_idem hi).
    split; apply round64_mono.
    + apply Qle_shift_div_l; [reflexivity |].
      setoid_replace (round64 lo * 2) with (round64 lo + round64 lo) by ring.
      apply Qplus_le_compat; assumption.
    + apply Qle_shift_div_r; [reflexivity |].
      setoid_replace (round64 hi * 2) with (round64 hi + round64 hi) by ring.
      apply Qplus_le_compat; assumption.
Qed.

Lemma median_sort l : median (sort l) = median l.
Proof. unfold median. rewrite sort_idempotent. reflexivity. Qed.

End Sorting.

(** ** The report *)

Section Report.

Lemma sort_nonempty samples :
  samples <> [] -> exists lo rest, sort samples = lo :: rest.
Proof.
  intros Hne. destruct (sort samples) as [| lo rest] eqn:E.
  - exfalso. apply Hne. apply length_zero_iff_nil.
    rewrite <- sort_length, E. reflexivity.
  - eauto.
Qed.

(** What [report_camera] prints for a camera with samples. *)
Lemma report_camera_run runs c load_times samples s :
  lookup c load_times = Some samples ->
  samples <> [] ->
  runs <> 0 ->
  exists lo med,
    hd_error (sort samples) = Some lo
    /\ median samples = Some med
    /\ millis lo <= millis med
    /\ millis med <= millis (last (sort samples) lo)
    /\ report_camera runs c load_times s
       = (Ok (setitem c (sort samples) load_times),
          snd (print (MsgLoadTime c (millis lo)
                        (int_of_float
                           (fdiv (fmul (sum (sort samples)) 1000)
                              (inject_Z runs)))
                        (millis med)
                        (millis (last (sort samples) lo))) s)).
Proof.
  intros Hl Hne Hruns. unfold report_camera. rewrite Hl.
  destruct (sort_nonempty samples Hne) as (lo & rest & Es).
  pose proof (sort_sorted samples) as Hs. rewrite Es in Hs.
  destruct (median_bounds lo rest Hs) as (med & Hm & Hlo & Hhi).
  exists lo, med. rewrite <- median_sort. rewrite Es. rewrite Hm.
  apply Z.eqb_neq in Hruns. rewrite Hruns.
  repeat split; try reflexivity; apply millis_round; assumption.
Qed.

End Report.


(** ** Dictionaries *)

Section Dict.

Lemma lookup_setitem_same c v (d : dict) : lookup c (setitem c v d) = Some v.
Proof.
  induction d as [| [k x] d IH]; cbn.
  - rewrite String.eqb_refl. reflexivity.
  - destruct (String.eqb k c) eqn:E; cbn; rewrite E; [reflexivity | exact IH].
Qed.

Lemma lookup_setitem_other c c' v (d : dict) :
  c <> c' -> lookup c' (setitem c v d) = lookup c' d.
Proof.
  intros Hne. induction d as [| [k x] d IH]; cbn.
  - apply String.eqb_neq in Hne. rewrite Hne. reflexivity.
  - destruct (String.eqb k c) eqn:E; cbn.
    + apply String.eqb_eq in E. subst k.
      apply String.eqb_neq in Hne. rewrite Hne. reflexivity.
    + destruct (String.eqb k c'); [reflexivity | exact IH].
Qed.

Lemma keys_setitem c v (d : dict) :
  lookup c d <> None -> keys (setitem c v d) = keys d.
Proof.
  induction d as [| [k x] d IH]; cbn; [congruence |].
  destruct (String.eqb k c) eqn:E; cbn; [reflexivity |].
  intros H. unfold keys in IH. rewrite IH by exact H. reflexivity.
Qed.

Lemma setitem_new c v (d : dict) :
  lookup c d = None -> setitem c v d = d ++ [(c, v)].
Proof.
  induction d as [| [k x] d IH]; cbn; [reflexivity |].
  destruct (String.eqb k c); [discriminate |].
  intros H. rewrite IH by exact H. reflexivity.
Qed.

Lemma lookup_registry {A} c (v : A) d :
  NoDup (keys d) -> In (c, v) d -> lookup c d = Some v.
Proof.
  induction d as [| [k x] d IH]; cbn; [contradiction |].
  intros Hnd Hin. inversion Hnd as [| ? ? Hk Hnd']; subst.
  destruct Hin as [Heq | Hin].
  - injection Heq as -> ->. rewrite String.eqb_refl. reflexivity.
  - destruct (String.eqb_spec k c) as [-> | _].
    + exfalso. apply Hk. change c with (fst (c, v)). apply in_map, Hin.
    + apply IH; assumption.
Qed.

Lemma keys_no_samples cs : keys (no_samples cs) = cs.
Proof.
  unfold keys, no_samples. rewrite map_map. cbn. apply map_id.
Qed.

Lemma lookup_no_samples c cs :
  In c cs -> lookup c (no_samples cs) = Some [].
Proof.
  unfold no_samples.
  induction cs as [| k cs IH]; cbn; [contradiction |].
  intros [-> | Hin].
  - rewrite String.eqb_refl. reflexivity.
  - destruct (String.eqb k c); [reflexivity | apply IH, Hin].
Qed.

(** The dictionary built by the first loop of [test_latency]. *)
Lemma initial_load_times cs :
  NoDup cs ->
  forall d0,
    (forall c, In c cs -> lookup c d0 = None) ->
    fold_left (fun d camera => setitem camera [] d) cs d0
    = d0 ++ no_samples cs.
Proof.
  induction 1 as [| c cs Hc Hnd IH]; intros d0 Hfresh; cbn.
  - symmetry. apply app_nil_r.
  - rewrite setitem_new by (apply Hfresh; left; reflexivity).
    rewrite IH.
    + rewrite <- app_assoc. reflexivity.
    + intros c' Hin.
      rewrite <- (setitem_new c [] d0) by (apply Hfresh; left; reflexivity).
      rewrite lookup_setitem_other by (intros ->; contradiction).
      apply Hfresh. right. exact Hin.
Qed.

End Dict.

(** ** The latency test *)

Section Sampling.

Variable env : Env.
Variable config : Config.
Variable verbose : bool.
Variable key : option string.

Hypothesis first_bytes : forall n, first_byte_ok env n = true.

Lemma only_raw_read1 st : only chatter (raw_read1 st).
Proof. unfold raw_read1. frame. Qed.

Lemma sample_camera_run cam id load_times samples s :
  lookup cam (cameras config) = Some id ->
  lookup cam load_times = Some samples ->
  exists x s',
    sample_camera env config verbose key cam load_times s
    = (Ok (setitem cam (samples ++ [x]) load_times), s')
    /\ playback_calls s' = S (playback_calls s)
    /\ playbacks (trace s') = playbacks (trace s) ++ [(id, key)]
    /\ reports (trace s') = reports (trace s).
Proof.
  intros Hid Hl. unfold sample_camera. unfold bind at 1.
  set (s0 := snd (time_time s)).
  change (time_time s) with (Ok (fst (read (clock s))), s0). cbv iota.
  destruct (make_playback_request_run env config verbose key cam id s0 Hid)
    as (s1 & Hrun & _ & Hcalls & Hpb).
  pose proof (make_playback_request_events env config verbose key cam s0)
    as Hev.
  rewrite Hrun in Hev. cbn [snd] in Hev.
  assert (Hrep : reports (trace s1) = reports (trace s)).
  { change (trace s) with (trace s0).
    apply (grows_flat_map open_event _ _ _ Hev).
    intros [[] | | | | | |]; cbn; congruence. }
  change (playback_calls s0) with (playback_calls s) in *.
  change (trace s0) with (trace s) in Hpb.
  pose proof (first_bytes (playback_calls s)) as Hfb.
  unfold first_byte_ok in Hfb.
  destruct (snd (playback_at env (playback_calls s))) as [r | f];
    [| discriminate].
  apply andb_prop in Hfb. destruct Hfb as [Hst Hrr].
  rewrite Hst in Hrun. erewrite bind_ok by exact Hrun.
  unfold raw_read1, close. unfold_monad. cbn [fst snd].
  destruct (snd (raw_read r)); [discriminate |].
  cbn. rewrite Hl. cbn.
  eexists. eexists. split; [reflexivity |]. cbn. repeat split.
  - exact Hcalls.
  - unfold playbacks in *. rewrite !flat_map_app. cbn.
    rewrite !app_nil_r. exact Hpb.
  - unfold reports in *. rewrite !flat_map_app. cbn.
    rewrite !app_nil_r. exact Hrep.
Qed.

Lemma sample_cameras_run (ps : list (string * string)) :
  forall load_times s,
    NoDup (keys ps) ->
    (forall c id, In (c, id) ps -> lookup c (cameras config) = Some id) ->
    (forall c, In c (keys ps) -> lookup c load_times <> None) ->
    exists load_times' s',
      for_each (keys ps) (sample_camera env config verbose key) load_times s
      = (Ok load_times', s')
      /\ keys load_times' = keys load_times
      /\ (forall i c,
            nth_error (keys ps) i = Some c ->
            exists samples x,
              lookup c load_times = Some samples
              /\ lookup c load_times' = Some (samples ++ [x]))
      /\ (forall c, ~ In c (keys ps) ->
                    lookup c load_times' = lookup c load_times)
      /\ playback_calls s' = (playback_calls s + List.length ps)%nat
      /\ playbacks (trace s')
         = playbacks (trace s) ++ map (fun p => (snd p, key)) ps
      /\ reports (trace s') = reports (trace s).
Proof.
  induction ps as [| [c id] ps IH]; intros lt s Hnd Hreg Hin.
  - exists lt, s. cbn. rewrite !app_nil_r.
    repeat split; try reflexivity; try lia.
    intros [| i] c' H; discriminate.
  - cbn [keys map fst] in *. fold (keys ps) in *.
    inversion Hnd as [| ? ? Hc Hnd']; subst.
    destruct (lookup c lt) as [samples |] eqn:Hl.
    2:{ exfalso. apply (Hin c); [left; reflexivity | exact Hl]. }
    destruct (sample_camera_run c id lt samples s
                (Hreg c id (or_introl eq_refl)) Hl)
      as (x & s1 & Hrun & Hcalls & Hpb & Hrep).
    destruct (IH (setitem c (samples ++ [x]) lt) s1 Hnd')
      as (lt' & s' & Hfor & Hkeys & Hidx & Hout & Hcalls' & Hpb' & Hrep').
    { intros c' id' H. apply Hreg. right. exact H. }
    { intros c' H. rewrite lookup_setitem_other by (intros ->; contradiction).
      apply Hin. right. exact H. }
    exists lt', s'. cbn [for_each]. erewrite bind_ok by exact Hrun.
    split; [exact Hfor |]. split.
    { rewrite Hkeys. apply keys_setitem. congruence. }
    split.
    { intros [| i] c' Hnth; cbn in Hnth.
      - injection Hnth as <-. exists samples, x.
        rewrite Hout by exact Hc. rewrite lookup_setitem_same. auto.
      - destruct (Hidx i c' Hnth) as (samples' & x' & Hl1 & Hl2).
        assert (Hne : c <> c').
        { intros ->. apply Hc. eapply nth_error_In, Hnth. }
        rewrite lookup_setitem_other in Hl1 by exact Hne.
        exists samples', x'. split; assumption. }
    split.
    { intros c' Hnot. rewrite Hout by (intros H; apply Hnot; right; exact H).
      apply lookup_setitem_other. intros ->. apply Hnot. left. reflexivity. }
    split; [cbn; lia |]. split.
    { rewrite Hpb', Hpb, <- app_assoc. reflexivity. }
    congruence.
Qed.

End Sampling.

Section Rounds.

Variable env : Env.
Variable config : Config.
Variable verbose : bool.
Variable key : option string.

Hypothesis first_bytes : forall n, first_byte_ok env n = true.
Hypothesis registry : NoDup (keys (cameras config)).
Hypothesis delay : 0 <= delay_between_runs_seconds config.

Lemma registry_lookup c id :
  In (c, id) (cameras config) -> lookup c (cameras config) = Some id.
Proof. apply lookup_registry, registry. Qed.

(** The pause before a round other than the first. *)
Lemma pause_run (i : Z) s :
  exists s',
    when (0 <? i)
      (when verbose (print (MsgWaiting (delay_between_runs_seconds config))) ;;
       time_sleep (delay_between_runs_seconds config))%tester s
    = (Ok tt, s')
    /\ playback_calls s' = playback_calls s
    /\ playbacks (trace s') = playbacks (trace s)
    /\ reports (trace s') = reports (trace s).
Proof.
  unfold time_sleep. apply Z.ltb_ge in delay. rewrite delay.
  unfold_monad. unfold playbacks, reports.
  destruct (0 <? i), verbose; cbn; eexists; repeat split; cbn;
    rewrite ?flat_map_app; cbn; rewrite ?app_nil_r; reflexivity.
Qed.

Lemma run_round_run j load_times s :
  sampled config j load_times ->
  exists load_times' s',
    run_round env config verbose key (Z.of_nat j) load_times s
    = (Ok load_times', s')
    /\ sampled config (S j) load_times'
    /\ playbacks (trace s')
       = playbacks (trace s) ++ round_requests config key
    /\ reports (trace s') = reports (trace s).
Proof.
  intros [Hkeys Hsam]. unfold run_round.
  destruct (pause_run (Z.of_nat j) s) as (s0 & Hp & Hc0 & Hpb0 & Hrep0).
  erewrite bind_ok by exact Hp.
  destruct (sample_cameras_run env config verbose key first_bytes
              (cameras config) load_times s0 registry registry_lookup)
    as (lt' & s' & Hfor & Hkeys' & Hidx & _ & Hcalls' & Hpb' & Hrep').
  { intros c Hin. destruct (Hsam c Hin) as (samples & Hl & _). congruence. }
  exists lt', s'. split; [exact Hfor |]. split.
  { split; [congruence |]. intros c Hin.
    apply In_nth_error in Hin. destruct Hin as [i Hi].
    destruct (Hidx i c Hi) as (samples & x & Hl & Hl').
    destruct (Hsam c (nth_error_In _ _ Hi)) as (samples0 & Hl0 & Hlen).
    assert (samples0 = samples) by congruence. subst samples0.
    exists (samples ++ [x]). split; [exact Hl' |].
    rewrite length_app. cbn. lia. }
  split; [rewrite Hpb', Hpb0; reflexivity | congruence].
Qed.

Lemma rounds_run m :
  forall j load_times s,
    sampled config j load_times ->
    exists load_times' s',
      for_each (map Z.of_nat (seq j m)) (run_round env config verbose key)
        load_times s
      = (Ok load_times', s')
      /\ sampled config (j + m) load_times'
      /\ playbacks (trace s')
         = playbacks (trace s)
           ++ List.concat (repeat (round_requests config key) m)
      /\ reports (trace s') = reports (trace s).
Proof.
  induction m as [| m IH]; intros j lt s Hsam.
  - exists lt, s. cbn. rewrite Nat.add_0_r, app_nil_r. auto.
  - destruct (run_round_run j lt s Hsam)
      as (lt1 & s1 & Hrun & Hsam1 & Hpb1 & Hrep1).
    destruct (IH (S j) lt1 s1 Hsam1)
      as (lt' & s' & Hfor & Hsam' & Hpb' & Hrep').
    exists lt', s'. cbn [seq map for_each].
    erewrite bind_ok by exact Hrun.
    split; [exact Hfor |]. split.
    { replace (j + S m)%nat with (S j + m)%nat by lia. exact Hsam'. }
    split; [| congruence].
    rewrite Hpb', Hpb1, <- app_assoc. reflexivity.
Qed.

End Rounds.

Section Reports.

Variable runs : Z.

Lemma report_all (entries : dict) :
  forall load_times s,
    runs <> 0 ->
    NoDup (keys entries) ->
    (forall c samples,
       In (c, samples) entries ->
       lookup c load_times = Some samples /\ samples <> []) ->
    exists load_times' s' lines,
      for_each (keys entries) (report_camera runs) load_times s
      = (Ok load_times', s')
      /\ reports (trace s') = reports (trace s) ++ lines
      /\ Forall2
           (fun entry line =>
              exists mn md mx,
                line = MsgLoadTime (fst entry) mn
                         (int_of_float
                            (fdiv (fmul (sum (sort (snd entry))) 1000)
                               (inject_Z runs)))
                         md mx)
           entries lines.
Proof.
  induction entries as [| [c samples] entries IH]; intros lt s Hr Hnd Hin.
  - exists lt, s, []. cbn. rewrite app_nil_r. auto.
  - cbn [keys map fst] in *. fold (keys entries) in *.
    inversion Hnd as [| ? ? Hc Hnd']; subst.
    destruct (Hin c samples (or_introl eq_refl)) as [Hl Hne].
    destruct (report_camera_run runs c lt samples s Hl Hne Hr)
      as (lo & med & _ & _ & _ & _ & Hrun).
    destruct (IH (setitem c (sort samples) lt)
                (snd (print (MsgLoadTime c (millis lo)
                        (int_of_float
                           (fdiv (fmul (sum (sort samples)) 1000)
                              (inject_Z runs)))
                        (millis med)
                        (millis (last (sort samples) lo))) s)) Hr Hnd')
      as (lt' & s' & lines & Hfor & Hrep & Hall).
    { intros c' samples' H.
      rewrite lookup_setitem_other.
      - apply Hin. right. exact H.
      - intros ->. apply Hc. change c' with (fst (c', samples')).
        apply in_map, H. }
    eexists lt', s', (_ :: lines). cbn [for_each].
    erewrite bind_ok by exact Hrun.
    split; [exact Hfor |]. split.
    + rewrite Hrep. unfold reports. cbn. rewrite flat_map_app. cbn.
      rewrite <- app_assoc. reflexivity.
    + constructor; [| exact Hall]. cbn. eauto.
Qed.

End Reports.

Section Latency.

Variable env : Env.
Variable config : Config.
Variable verbose : bool.

Lemma get_auth_key_ok s :
  exchange_ok env (authenticate_calls s) (authorize_calls s) = true ->
  exists key s1, get_auth_key env config verbose s = (Ok key, s1).
Proof.
  unfold exchange_ok. intros H.
  destruct (snd (authenticate_at env (authenticate_calls s))) as [a |] eqn:Ea;
    [| discriminate].
  destruct (snd (authorize_at env (authorize_calls s))) as [z |] eqn:Ez;
    [| discriminate].
  apply andb_prop in H. destruct H as [H Hjar].
  apply andb_prop in H. destruct H as [H Hz].
  apply andb_prop in H. destruct H as [Ha Hj].
  destruct (post_json a) as [body |] eqn:Hbody; [| discriminate].
  apply Z.eqb_eq in Ha, Hz.
  destruct (get_auth_key_lookup env config verbose s a body z Ea Ha Hbody
              Ez Hz) as (s' & ->).
  rewrite cookies_get_result. apply Nat.leb_le in Hjar.
  destruct (cookie_values "auth_key" (post_cookies z)) as [| t [| w rest]];
    [eauto | eauto | cbn in Hjar; lia].
Qed.

Lemma latency_sampling_general runs s :
  NoDup (keys (cameras config)) ->
  0 <= delay_between_runs_seconds config ->
  exchange_ok env (authenticate_calls s) (authorize_calls s) = true ->
  (forall n, first_byte_ok env n = true) ->
  0 < runs ->
  exists key load_times s1 s2 lines,
    fst (get_auth_key env config verbose s) = Ok key
    /\ collect_load_times env config verbose runs s = (Ok load_times, s1)
    /\ keys load_times = keys (cameras config)
    /\ (forall c, In c (keys (cameras config)) ->
          exists samples,
            lookup c load_times = Some samples
            /\ List.length samples = Z.to_nat runs)
    /\ playbacks (trace s1)
       = playbacks (trace s)
         ++ List.concat (repeat (round_requests config key) (Z.to_nat runs))
    /\ test_latency env config verbose runs s = (Ok tt, s2)
    /\ reports (trace s2) = reports (trace s) ++ lines
    /\ Forall2
         (fun entry line =>
            exists mn md mx,
              line = MsgLoadTime (fst entry) mn
                       (int_of_float
                          (fdiv (fmul (sum (sort (snd entry))) 1000)
                             (inject_Z runs)))
                       md mx)
         load_times lines.
Proof.
  intros Hnd Hdelay Hex Hfb Hruns.
  destruct (get_auth_key_ok s Hex) as (key & s0 & Hkey).
  pose proof (get_auth_key_chatter env config verbose s) as Hg.
  rewrite Hkey in Hg. cbn [snd] in Hg.
  assert (Hc0 : playback_calls s0 = playback_calls s).
  { apply (grows_calls chatter _ _ Hg).
    intros [[] | | | | | |]; cbn; congruence. }
  assert (Hpb0 : playbacks (trace s0) = playbacks (trace s)).
  { apply (grows_flat_map chatter _ _ _ Hg).
    intros [[] | | | | | |]; cbn; congruence. }
  assert (Hrep0 : reports (trace s0) = reports (trace s)).
  { apply (grows_flat_map chatter _ _ _ Hg).
    intros [[] | | | | | |]; cbn; congruence. }
  assert (Hinit : sampled config 0 (no_samples (keys (cameras config)))).
  { split; [apply keys_no_samples |]. intros c Hin.
    exists []. split; [| reflexivity].
    apply lookup_no_samples, Hin. }
  destruct (rounds_run env config verbose key Hfb Hnd Hdelay
              (Z.to_nat runs) 0
              (no_samples (keys (cameras config))) s0 Hinit)
    as (lt & s1 & Hfor & Hsam & Hpb & Hrep).
  cbn [Nat.add] in Hsam.
  assert (Hcollect : collect_load_times env config verbose runs s
                     = (Ok lt, s1)).
  { unfold collect_load_times. erewrite bind_ok by exact Hkey.
    rewrite (initial_load_times _ Hnd []) by reflexivity.
    exact Hfor. }
  destruct (report_all runs lt lt s1)
    as (lt' & s2 & lines & Hr & Hlines & Hall).
  { lia. }
  { destruct Hsam as [-> _]. exact Hnd. }
  { intros c samples Hin.
    assert (Hl : lookup c lt = Some samples).
    { apply lookup_registry; [| exact Hin].
      destruct Hsam as [-> _]. exact Hnd. }
    split; [exact Hl |].
    destruct (proj2 Hsam c) as (samples' & Hl' & Hlen).
    { destruct Hsam as [<- _]. change c with (fst (c, samples)).
      apply in_map, Hin. }
    assert (samples' = samples) by congruence. subst samples'.
    intros ->. cbn in Hlen. lia. }
  exists key, lt, s1, s2, lines.
  split; [rewrite Hkey; reflexivity |].
  split; [exact Hcollect |].
  split; [exact (proj1 Hsam) |].
  split; [exact (proj2 Hsam) |].
  split; [rewrite Hpb, Hpb0; reflexivity |].
  split.
  { unfold test_latency. erewrite bind_ok by exact Hcollect.
    unfold report_load_times. erewrite bind_ok by exact Hr. reflexivity. }
  split; [rewrite Hlines, Hrep, Hrep0; reflexivity | exact Hall].
Qed.

End Latency.

Section Closing.

Variable env : Env.
Variable config : Config.
Variable verbose : bool.

Lemma for_each_balanced {A S} (body : A -> S -> M S) xs :
  (forall x acc s acc' s', body x acc s = (Ok acc', s') -> balanced s s') ->
  forall acc s acc' s',
    for_each xs body acc s = (Ok acc', s') -> balanced s s'.
Proof.
  intros Hb. induction xs as [| x xs IH]; intros acc s acc' s'; cbn.
  - intros H. injection H as _ <-. apply balanced_refl.
  - intros H. apply bind_ok_inv in H. destruct H as (a & s1 & H1 & H2).
    eapply balanced_trans; [eapply Hb, H1 | eapply IH, H2].
Qed.

(** The stream of the playback call made in [s], as the camera loop of
    [test_latency] treats it. *)
Lemma sample_camera_stream key cam id load_times s r :
  lookup cam (cameras config) = Some id ->
  snd (playback_at env (playback_calls s)) = inl r ->
  status_code r = 200 ->
  exists s',
    snd (sample_camera env config verbose key cam load_times s) = s'
    /\ playback_calls s' = S (playback_calls s)
    /\ match snd (raw_read r) with
       | None =>
           closes (trace s') = closes (trace s) ++ [playback_calls s]
       | Some f =>
           fst (sample_camera env config verbose key cam load_times s)
           = Raise (exn_of_fault f)
           /\ closes (trace s') = closes (trace s)
       end.
Proof.
  intros Hid Hr Hst. set (s0 := snd (time_time s)).
  destruct (make_playback_request_run env config verbose key cam id s0 Hid)
    as (s1 & Hrun & _ & Hcalls & _).
  pose proof (make_playback_request_events env config verbose key cam s0)
    as Hev.
  rewrite Hrun in Hev. cbn [snd] in Hev.
  assert (Hcl : closes (trace s1) = closes (trace s)).
  { change (trace s) with (trace s0).
    apply (grows_flat_map open_event _ _ _ Hev).
    intros [[] | | | | | |]; cbn; congruence. }
  change (playback_calls s0) with (playback_calls s) in *.
  rewrite Hr in Hrun. apply Z.eqb_eq in Hst. rewrite Hst in Hrun.
  destruct (sample_camera env config verbose key cam load_times s)
    as [res s'] eqn:E.
  unfold sample_camera in E. unfold bind at 1 in E.
  change (time_time s) with (Ok (fst (read (clock s))), s0) in E.
  cbv iota in E.
  rewrite (bind_ok _ _ _ _ _ Hrun) in E.
  unfold raw_read1, close in E. unfold_monad_in E. cbn [fst snd] in E.
  exists s'. split; [reflexivity |].
  destruct (snd (raw_read r)) as [f |]; cbn in E.
  - injection E as <- <-. cbn. split; [exact Hcalls |].
    split; [reflexivity |].
    unfold closes in *. rewrite !flat_map_app. cbn.
    rewrite !app_nil_r. exact Hcl.
  - destruct (lookup cam load_times); cbn in E; (injection E as <- <-); cbn;
      (split; [exact Hcalls |]);
      unfold closes in *; rewrite !flat_map_app; cbn;
      rewrite !app_nil_r, Hcl; reflexivity.
Qed.

Lemma sample_camera_balanced key cam load_times s load_times' s' :
  sample_camera env config verbose key cam load_times s
  = (Ok load_times', s') ->
  balanced s s'.
Proof.
  intros H. set (s0 := snd (time_time s)).
  assert (E : sample_camera env config verbose key cam load_times s
              = (playback_stream <-
                   make_playback_request env config verbose key cam ;;
                 match playback_stream with
                 | Some st => raw_read1 st
                 | None => ret tt
                 end ;;
                 end_time <- time_time ;;
                 match playback_stream with
                 | Some st => close st
                 | None => ret tt
                 end ;;
                 match lookup cam load_times with
                 | None => raise (KeyError cam)
                 | Some samples =>
                     ret (setitem cam
                            (samples
                             ++ [fsub end_time (fst (read (clock s)))])
                            load_times)
                 end)%tester s0) by reflexivity.
  destruct (lookup cam (cameras config)) as [id |] eqn:Hid.
  2:{ rewrite E in H.
      rewrite (bind_raise _ _ _ _ _
                 (make_playback_request_unknown env config verbose key cam s0
                    Hid)) in H.
      discriminate. }
  destruct (snd (playback_at env (playback_calls s))) as [r | f] eqn:Hr.
  2:{ rewrite E in H.
      destruct (make_playback_request_run env config verbose key cam id s0
                  Hid) as (s1 & Hrun & _).
      change (playback_calls s0) with (playback_calls s) in Hrun.
      rewrite Hr in Hrun. rewrite (bind_raise _ _ _ _ _ Hrun) in H.
      discriminate. }
  destruct (Z.eq_dec (status_code r) 200) as [Hst | Hst].
  2:{ rewrite E in H.
      destruct (make_playback_request_run env config verbose key cam id s0
                  Hid) as (s1 & Hrun & _).
      change (playback_calls s0) with (playback_calls s) in Hrun.
      rewrite Hr in Hrun. apply Z.eqb_neq in Hst. rewrite Hst in Hrun.
      rewrite (bind_raise _ _ _ _ _ Hrun) in H. discriminate. }
  clear E.
  destruct (sample_camera_stream key cam id load_times s r Hid Hr Hst)
    as (s2 & Hs2 & Hcalls & Hcl).
  rewrite H in Hs2. cbn [snd] in Hs2. subst s2.
  destruct (snd (raw_read r)) as [f |].
  - destruct Hcl as [Hraise _]. rewrite H in Hraise. discriminate.
  - unfold balanced. rewrite Hcalls, Hcl. split; [lia |].
    replace (S (playback_calls s) - playback_calls s)%nat with 1%nat by lia.
    reflexivity.
Qed.

Lemma run_round_balanced key i load_times s load_times' s' :
  run_round env config verbose key i load_times s = (Ok load_times', s') ->
  balanced s s'.
Proof.
  unfold run_round. intros H. apply bind_ok_inv in H.
  destruct H as ([] & s0 & Hp & Hfor).
  eapply balanced_trans.
  - match type of Hp with ?c s = _ =>
      assert (Hc : only (fun e => chatter e || is_sleep e) c)
    end.
    { unfold time_sleep. frame. }
    specialize (Hc s). rewrite Hp in Hc.
    apply (grows_balanced _ _ _ Hc).
    intros [[] | | | | | |]; cbn; auto; discriminate.
  - eapply for_each_balanced; [| exact Hfor].
    intros x acc s1 acc' s1'. apply sample_camera_balanced.
Qed.

Lemma only_report_camera runs c load_times :
  only is_report (report_camera runs c load_times).
Proof. unfold report_camera. frame. Qed.

Lemma test_latency_balanced runs s u s' :
  test_latency env config verbose runs s = (Ok u, s') -> balanced s s'.
Proof.
  unfold test_latency, collect_load_times. intros H.
  apply bind_ok_inv in H. destruct H as (lt & s2 & Hcollect & Hreport).
  apply bind_ok_inv in Hcollect. destruct Hcollect as (key & s1 & Hkey & Hfor).
  apply bind_ok_inv in Hreport. destruct Hreport as (lt' & s3 & Hrep & Hret).
  injection Hret as _ <-.
  eapply balanced_trans; [| eapply balanced_trans].
  - pose proof (get_auth_key_chatter env config verbose s) as Hg.
    rewrite Hkey in Hg. apply (grows_balanced _ _ _ Hg).
    intros [[] | | | | | |]; cbn; auto; discriminate.
  - eapply for_each_balanced; [| exact Hfor].
    intros x acc sa acc' sa'. apply run_round_balanced.
  - pose proof (only_for_each is_report (report_camera runs) (keys lt)
                  (only_report_camera runs) lt s2) as Hg.
    unfold report_load_times in Hrep. rewrite Hrep in Hg.
    apply (grows_balanced _ _ _ Hg).
    intros [[] | | | | | |]; cbn; auto; discriminate.
Qed.

(** C9, as amended.  A stream is closed, once, when the code that owns it
    runs to completion: after a [test_latency] that returns, and after any
    number of passes of [stream_repeatedly] none of which raised, the
    streams closed are the streams opened, each once and in order.  There
    is no release on the error paths: when the stream iteration or the
    one-byte read raises (an I/O error or an interruption), the exception
    leaves the method and that stream has not been closed. *)
Theorem streams_closed_on_completion :
  (forall runs s u s',
     test_latency env config verbose runs s = (Ok u, s') -> balanced s s')
  /\ (forall fuel cam s,
        (forall e,
           fst (stream_repeatedly env config verbose fuel cam s)
           <> Some (Raise e)) ->
        balanced s (snd (stream_repeatedly env config verbose fuel cam s)))
  /\ (forall st s f,
        snd (content_end (snd st)) = Broken f ->
        exists s',
          stream_session st s = (Raise (exn_of_fault f), s')
          /\ closes (trace s') = closes (trace s))
  /\ (forall key cam id load_times s r f,
        lookup cam (cameras config) = Some id ->
        snd (playback_at env (playback_calls s)) = inl r ->
        status_code r = 200 ->
        snd (raw_read r) = Some f ->
        fst (sample_camera env config verbose key cam load_times s)
        = Raise (exn_of_fault f)
        /\ playback_calls
             (snd (sample_camera env config verbose key cam load_times s))
           = S (playback_calls s)
        /\ closes
             (trace (snd (sample_camera env config verbose key cam
                            load_times s)))
           = closes (trace s)).
Proof.
  split; [exact test_latency_balanced |].
  split; [intros fuel cam s; apply stream_loop_balanced |].
  split.
  - intros st s f Hend.
    destruct (stream_session_broken st s f Hend) as (s' & Hs & Hcl & _).
    eauto.
  - intros key cam id lt s r f Hid Hr Hst Hf.
    destruct (sample_camera_stream key cam id lt s r Hid Hr Hst)
      as (s' & <- & Hcalls & Hcl).
    rewrite Hf in Hcl. destruct Hcl as [Hraise Hcl]. auto.
Qed.

End Closing.




Lemma chunk_numbering_witness :
  exists fs s1 fs' s2,
    consume [((10 # 1000)%Q, 10240)] (fst (read (clock initial_state)))
      {| fetch_start := fst (read (clock initial_state));
         counter := 1; total_size := 0 |} (snd (time_time initial_state))
    = (Ok fs, s1)
    /\ counter fs = 2
    /\ total_size fs = 10240
    /\ (elapse 6 ;; on_chunk (fst (read (clock initial_state))) 10240 fs)%tester
         s1
       = (Ok fs', s2)
    /\ counter fs' = 3
    /\ total_size fs' = 20480.
Proof.
  destruct (proj1 chunk_numbering (Scenario.opened Scenario.three_chunks)
              initial_state [((10 # 1000)%Q, 10240)] 6%Q 10240
              [((20 # 1000)%Q, 5000)] eq_refl)
    as (fs & s1 & fs' & s2 & Hc & Hn & Ht & Hrun & Hn' & Ht' & _).
  exists fs, s1, fs', s2. repeat split; assumption.
Defined.


Lemma get_auth_key_results_witness :
  fst (get_auth_key (Scenario.refused 401 200) Scenario.front_config false
         initial_state)
  = Raise (AuthenticationFailed 401)
  /\ fst (get_auth_key (Scenario.refused 200 403) Scenario.front_config false
            initial_state)
     = Raise (AuthorizationFailed 403)
  /\ fst (get_auth_key Scenario.latencies Scenario.front_config false
            initial_state)
     = Ok (Some "key"%string)
  /\ fst (get_auth_key Scenario.no_cookie Scenario.front_config false
            initial_state)
     = Ok None
  /\ fst (get_auth_key Scenario.two_cookies Scenario.front_config false
            initial_state)
     = Raise CookieConflictError.
Proof.
  split; [| split; [| split; [| split]]].
  - refine (proj1 (get_auth_key_results (Scenario.refused 401 200)
                     Scenario.front_config false initial_state _ eq_refl) _).
    cbn. lia.
  - refine (proj1 (proj2 (get_auth_key_results (Scenario.refused 200 403)
                            Scenario.front_config false initial_state _
                            eq_refl)
                     eq_refl _ _ eq_refl eq_refl) _).
    cbn. lia.
  - exact (proj1 (proj2 (proj2 (get_auth_key_results Scenario.latencies
                                  Scenario.front_config false initial_state _
                                  eq_refl)
                           eq_refl _ _ eq_refl eq_refl) eq_refl)).
  - exact (proj1 (proj2 (proj2 (get_auth_key_results Scenario.no_cookie
                                  Scenario.front_config false initial_state _
                                  eq_refl)
                           eq_refl _ _ eq_refl eq_refl) eq_refl)).
  - exact (proj1 (proj2 (proj2 (get_auth_key_results Scenario.two_cookies
                                  Scenario.front_config false initial_state _
                                  eq_refl)
                           eq_refl _ _ eq_refl eq_refl) eq_refl)).
Defined.

(** C8, as stated, fails: with both answers at status 200, an authorize
    answer that carries two [auth_key] cookies makes [get_auth_key]
    raise, and one whose [auth_key] cookie has no value makes it return
    [None]; neither returns a token. *)
Lemma successful_exchange_without_token :
  fst (get_auth_key Scenario.two_cookies Scenario.front_config false
         initial_state)
  = Raise CookieConflictError
  /\ fst (get_auth_key Scenario.empty_cookie Scenario.front_config false
            initial_state)
     = Ok None.
Proof. vm_compute. auto. Qed.


Lemma streams_closed_on_completion_witness :
  balanced initial_state
    (snd (test_latency Scenario.latencies Scenario.two_cameras false 2
            initial_state)).
Proof.
  apply (proj1 (streams_closed_on_completion Scenario.latencies
                  Scenario.two_cameras false) 2 initial_state tt).
  vm_compute. reflexivity.
Defined.

(** C9, as stated, fails: a stream interrupted in mid-session, and a
    stream whose first byte never arrives, are left unclosed while the
    exception leaves the method. *)
Lemma broken_streams_are_left_open :
  (let r := stream_repeatedly Scenario.interrupted_stream
              Scenario.front_config false 2 "front" initial_state in
   fst r = Some (Raise KeyboardInterrupt)
   /\ playback_calls (snd r) = 1%nat
   /\ closes (trace (snd r)) = [])
  /\ (let r := test_latency Scenario.first_byte_times_out
                 Scenario.front_config false 1 initial_state in
      fst r = Raise RequestException
      /\ playback_calls (snd r) = 1%nat
      /\ closes (trace (snd r)) = []).
Proof. vm_compute. auto. Qed.

(** * Further properties *)

(** ** Observations that a computation leaves alone *)

Section Preserves.

Context {B : Type}.
Variable f : State -> B.

Lemma preserves_bind {A C} (c : M A) (k : A -> M C) :
  preserves f c -> (forall a, preserves f (k a)) -> preserves f (bind c k).
Proof.
  intros Hc Hk s. unfold bind. specialize (Hc s).
  destruct (c s) as [[a | e] s1]; cbn [snd] in *.
  - rewrite Hk. exact Hc.
  - exact Hc.
Qed.

Lemma preserves_for_each {A S} (body : A -> S -> M S) xs :
  (forall x acc, preserves f (body x acc)) ->
  forall acc, preserves f (for_each xs body acc).
Proof.
  intros Hb. induction xs as [| x xs IH]; intros acc; cbn [for_each].
  - intros s. reflexivity.
  - apply preserves_bind; [apply Hb | exact IH].
Qed.

End Preserves.

Ltac keep :=
  repeat match goal with
         | |- preserves _ (bind _ _) => apply preserves_bind; [| intros ?]
         | |- preserves _ (when ?b _) => destruct b; unfold when
         | |- preserves _ (if ?b then _ else _) => destruct b
         | |- preserves _ (match ?x with _ => _ end) => destruct x
         | |- preserves _ (ret _) => intros ?; reflexivity
         | |- preserves _ (raise _) => intros ?; reflexivity
         | |- preserves _ time_time => intros ?; reflexivity
         | |- preserves _ (elapse _) => intros ?; reflexivity
         | |- preserves _ (emit _) => intros ?; reflexivity
         | |- preserves _ (print _) => intros ?; reflexivity
         | |- preserves _ (close _) => intros ?; reflexivity
         end.

Section Counts.

Variable env : Env.
Variable config : Config.
Variable verbose : bool.

Lemma get_playback_exchanges id t key :
  preserves exchanges (get_playback env id t key).
Proof.
  intros s. unfold get_playback. unfold_monad. cbn.
  destruct (snd (playback_at env (playback_calls s))); reflexivity.
Qed.

Lemma make_playback_request_exchanges key cam :
  preserves exchanges (make_playback_request env config verbose key cam).
Proof.
  unfold make_playback_request, time_request. keep.
  apply get_playback_exchanges.
Qed.

Lemma raw_read1_exchanges st : preserves exchanges (raw_read1 st).
Proof. unfold raw_read1. keep. Qed.

Lemma stream_session_exchanges st : preserves exchanges (stream_session st).
Proof.
  unfold stream_session, iter_content. keep.
  generalize (content (snd st) CHUNK_SIZE). intros chunks.
  match goal with |- preserves _ (consume _ ?t0 ?st0) =>
    generalize st0; generalize t0 end.
  intros t0. induction chunks as [| [d len] chunks IH]; intros st0;
    cbn [consume]; keep.
  - unfold on_chunk. keep.
  - apply IH.
Qed.

Lemma sample_camera_exchanges key cam load_times :
  preserves exchanges (sample_camera env config verbose key cam load_times).
Proof.
  unfold sample_camera. keep;
    try apply make_playback_request_exchanges;
    try apply raw_read1_exchanges.
Qed.

Lemma run_round_exchanges key i load_times :
  preserves exchanges (run_round env config verbose key i load_times).
Proof.
  unfold run_round, time_sleep. keep.
  all: apply preserves_for_each; intros; apply sample_camera_exchanges.
Qed.

Lemma report_camera_exchanges runs c load_times :
  preserves exchanges (report_camera runs c load_times).
Proof. unfold report_camera. keep. Qed.

End Counts.

Section Requests.

Variable env : Env.
Variable config : Config.
Variable verbose : bool.

(** The calls [get_auth_key] makes: one authenticate call, at most one
    authorize call, no playback call. *)
Lemma get_auth_key_calls s :
  let s' := snd (get_auth_key env config verbose s) in
  authenticate_calls s' = S (authenticate_calls s)
  /\ (authorize_calls s' <= S (authorize_calls s))%nat
  /\ playback_calls s' = playback_calls s.
Proof.
  unfold get_auth_key, time_request, post_authenticate, post_authorize.
  unfold_monad.
  destruct verbose; cbn;
    destruct (snd (authenticate_at env (authenticate_calls s))) as [a | f];
    cbn;
    try (destruct (post_status_code a =? 200); cbn;
         try (destruct (post_json a) as [body |]; cbn;
              try (destruct (snd (authorize_at env (authorize_calls s)))
                     as [z | f]; cbn;
                   try (destruct (post_status_code z =? 200); cbn))));
    rewrite ?cookies_get_result; cbn;
    repeat split; lia.
Qed.

(** X1. [get_auth_key] sends the authenticate request once, with the
    configured credentials, and the authorize request only after an
    authenticate answer of status 200 with a JSON body: then once, with
    that body and the same token.  It sends no playback request. *)
Theorem credential_requests s :
  let s' := snd (get_auth_key env config verbose s) in
  let second :=
    match snd (authenticate_at env (authenticate_calls s)) with
    | inl a =>
        if post_status_code a =? 200 then
          match post_json a with
          | Some body => [EAuthorize body (auth_token config)]
          | None => []
          end
        else []
    | inr _ => []
    end in
  posts (trace s')
  = posts (trace s)
    ++ EAuthenticate (email config) (password config) (auth_token config)
       :: second
  /\ authenticate_calls s' = S (authenticate_calls s)
  /\ authorize_calls s' = (authorize_calls s + List.length second)%nat
  /\ playback_calls s' = playback_calls s.
Proof.
  unfold get_auth_key, time_request, post_authenticate, post_authorize.
  unfold_monad. unfold posts.
  destruct verbose; cbn;
    destruct (snd (authenticate_at env (authenticate_calls s))) as [a | f];
    cbn;
    try (destruct (post_status_code a =? 200); cbn;
         try (destruct (post_json a) as [body |]; cbn;
              try (destruct (snd (authorize_at env (authorize_calls s)))
                     as [z | f]; cbn;
                   try (destruct (post_status_code z =? 200); cbn))));
    rewrite ?cookies_get_result; cbn;
    rewrite ?flat_map_app; cbn; rewrite ?app_nil_r, <- ?app_assoc; cbn;
    repeat split; lia.
Qed.

(** X2. A playback request is sent only for a camera of the registry: an
    unknown name raises [KeyError] and leaves the world untouched.  For a
    known camera exactly one request goes out, carrying the registry's
    identifier, the whole seconds of a reading of the clock as start
    marker, and the token as it was given. *)
Theorem playback_request_sent key cam s :
  match lookup cam (cameras config) with
  | None =>
      make_playback_request env config verbose key cam s
      = (Raise (KeyError cam), s)
  | Some id =>
      gets (trace (snd (make_playback_request env config verbose key cam s)))
      = gets (trace s)
        ++ [EPlayback (playback_calls s) id
              (int_of_float (fst (read (clock s)))) key]
  end.
Proof.
  unfold make_playback_request, time_request, get_playback.
  destruct (lookup cam (cameras config)) as [id |]; [| reflexivity].
  unfold_monad. unfold gets.
  destruct verbose; cbn;
    destruct (playback_at env (playback_calls s)) as [d [r | f]]; cbn;
    try destruct (status_code r =? 200); cbn;
    rewrite ?flat_map_app; cbn; rewrite ?app_nil_r; reflexivity.
Qed.

(** One pass of the loop: one credential exchange, at most one playback
    request, and exactly one when the loop goes round again. *)
Lemma stream_iteration_calls cam k s :
  let r := stream_iteration env config verbose cam k s in
  authenticate_calls (snd r) = S (authenticate_calls s)
  /\ (playback_calls s <= playback_calls (snd r) <= S (playback_calls s))%nat
  /\ (forall k', fst r = Ok (Some k') ->
                 playback_calls (snd r) = S (playback_calls s)).
Proof.
  cbv zeta. unfold stream_iteration. rewrite stream_iteration_with_eq.
  destruct (get_auth_key_calls s) as (Hauth & _ & Hpc).
  destruct (get_auth_key env config verbose s) as [[[key |] | e] s1];
    cbn [fst snd] in *.
  - pose proof (make_playback_request_exchanges env config verbose
                  (Some key) cam s1) as Hex.
    pose proof (make_playback_request_not_None env config verbose
                  (Some key) cam s1) as Hnn.
    assert (Hm : (playback_calls
                    (snd (make_playback_request env config verbose
                            (Some key) cam s1))
                  = playback_calls s1
                  /\ forall o, fst (make_playback_request env config verbose
                                      (Some key) cam s1) <> Ok o)
                 \/ playback_calls
                      (snd (make_playback_request env config verbose
                              (Some key) cam s1))
                    = S (playback_calls s1)).
    { destruct (lookup cam (cameras config)) as [id |] eqn:Hid.
      - right.
        destruct (make_playback_request_run env config verbose (Some key)
                    cam id s1 Hid) as (s2 & -> & _ & Hc & _). exact Hc.
      - left. rewrite make_playback_request_unknown by assumption.
        split; [reflexivity | discriminate]. }
    destruct (make_playback_request env config verbose (Some key) cam s1)
      as [[[st |] | e] s2]; cbn [fst snd] in *.
    + pose proof (stream_session_exchanges st s2) as Hse.
      pose proof (only_stream_session st s2) as Hg.
      assert (Hc3 : playback_calls (snd (stream_session st s2))
                    = playback_calls s2).
      { apply (grows_calls session_event _ _ Hg).
        intros [[] | | | | | |]; cbn; congruence. }
      destruct Hm as [[_ Hm] | Hm];
        [exfalso; apply (Hm (Some st)); reflexivity |].
      destruct (stream_session st s2) as [[[] | e] s3]; cbn [fst snd] in *;
        injection Hse as Hse _; injection Hex as Hex _;
        (split; [congruence |]); (split; [lia |]); intros; lia.
    + congruence.
    + injection Hex as Hex _.
      split; [congruence |]. split; [destruct Hm as [[Hm _] | Hm]; lia |].
      discriminate.
  - cbn. split; [exact Hauth |]. split; [lia | discriminate].
  - split; [exact Hauth |]. split; [lia | discriminate].
Qed.

End Requests.

Section Exchanges.

Variable env : Env.
Variable config : Config.
Variable verbose : bool.

(** X3. [stream_repeatedly] derives a new token for every stream: no playback
    request goes out without a credential exchange of its own before it,
    each pass of the loop makes exactly one exchange, and a loop still
    running after [fuel] passes has made [fuel] exchanges and opened
    [fuel] streams. *)
Theorem one_exchange_per_stream fuel :
  forall cam k s,
    let r := stream_loop env config verbose fuel cam k s in
    (authenticate_calls s <= authenticate_calls (snd r)
     <= authenticate_calls s + fuel)%nat
    /\ (playback_calls s <= playback_calls (snd r))%nat
    /\ (playback_calls (snd r) - playback_calls s
        <= authenticate_calls (snd r) - authenticate_calls s)%nat
    /\ (fst r = None ->
        authenticate_calls (snd r) = (authenticate_calls s + fuel)%nat
        /\ playback_calls (snd r) = (playback_calls s + fuel)%nat).
Proof.
  induction fuel as [| fuel IH]; intros cam k s; cbv zeta.
  - cbn. split; [lia |]. split; [lia |]. split; [lia |]. intros _. lia.
  - unfold stream_loop. cbn [stream_loop_with].
    fold (stream_iteration env config verbose cam k s).
    destruct (stream_iteration_calls env config verbose cam k s)
      as (Ha & Hp & Hgo).
    destruct (stream_iteration env config verbose cam k s)
      as [[[k' |] | e] s1]; cbn [fst snd] in *.
    + specialize (Hgo k' eq_refl).
      destruct (IH cam k' s1) as (Ia & Ip & Ipa & Inone).
      fold (stream_loop env config verbose fuel cam k' s1).
      split; [lia |]. split; [lia |]. split; [lia |].
      intros Hn. apply Inone in Hn. lia.
    + split; [lia |]. split; [lia |]. split; [lia | discriminate].
    + split; [lia |]. split; [lia |]. split; [lia | discriminate].
Qed.

(** X4. [test_latency] derives its token once: whatever the number of runs and
    whatever happens, it makes one authenticate call and at most one
    authorize call. *)
Theorem one_exchange_per_latency_test runs s :
  let s' := snd (test_latency env config verbose runs s) in
  authenticate_calls s' = S (authenticate_calls s)
  /\ (authorize_calls s' <= S (authorize_calls s))%nat.
Proof.
  cbv zeta.
  destruct (get_auth_key_calls env config verbose s) as (Hauth & Hz' & _).
  assert (Hrest : forall key load_times,
             preserves exchanges
               (lt <- for_each (range runs)
                        (run_round env config verbose key) load_times ;;
                report_load_times runs lt ;; ret tt)).
  { intros key lt0. unfold report_load_times. keep.
    - apply preserves_for_each. intros. apply run_round_exchanges.
    - apply preserves_for_each. intros. apply report_camera_exchanges. }
  unfold test_latency, collect_load_times. rewrite bind_assoc.
  destruct (get_auth_key env config verbose s) as [[key | e] s1] eqn:Hk;
    cbn [snd] in *.
  2:{ rewrite (bind_raise _ _ _ _ _ Hk). auto. }
  rewrite (bind_ok _ _ _ _ _ Hk).
  specialize (Hrest key
                (fold_left (fun d camera => setitem camera [] d)
                   (keys (cameras config)) []) s1).
  unfold exchanges in Hrest. injection Hrest as H1 H2. split.
  - transitivity (authenticate_calls s1); [exact H1 | exact Hauth].
  - apply (Nat.le_trans _ (authorize_calls s1)); [| exact Hz'].
    apply Nat.eq_le_incl. exact H2.
Qed.

Lemma stream_loop_returns fuel :
  forall cam k s,
    fst (stream_loop env config verbose fuel cam k s) = Some (Ok tt) ->
    exists tr,
      trace (snd (stream_loop env config verbose fuel cam k s))
      = trace s ++ tr ++ [EPrint MsgNoAuthKey].
Proof.
  induction fuel as [| fuel IH]; intros cam k s; [discriminate |].
  unfold stream_loop. cbn [stream_loop_with].
  fold (stream_iteration env config verbose cam k s).
  destruct (stream_iteration_run env config verbose cam k s)
    as [(evs & Hevs & _) _].
  destruct (stream_iteration env config verbose cam k s)
    as [[[k' |] | e] s1] eqn:Hit; cbn [snd] in Hevs.
  - fold (stream_loop env config verbose fuel cam k' s1). intros H.
    destruct (IH cam k' s1 H) as (tr & Htr). exists (evs ++ tr).
    rewrite Htr, Hevs, <- !app_assoc. reflexivity.
  - intros _. cbn [snd]. unfold stream_iteration in Hit.
    rewrite stream_iteration_with_eq in Hit.
    destruct (get_auth_key_chatter env config verbose s) as (e1 & He1 & _).
    destruct (get_auth_key env config verbose s) as [[[key |] | e] s0];
      cbn [snd] in He1.
    + destruct (make_playback_request env config verbose (Some key) cam s0)
        as [[[st |] | e] s2] eqn:Hm.
      * destruct (stream_session st s2) as [[[] | e] s3]; discriminate.
      * exfalso.
        apply (make_playback_request_not_None env config verbose (Some key)
                 cam s0). rewrite Hm. reflexivity.
      * discriminate.
    + injection Hit as <-. cbn. exists e1.
      rewrite He1, <- app_assoc. reflexivity.
    + discriminate.
  - discriminate.
Qed.

(** X5. The only way out of the loop without an exception is the missing
    token: when [stream_repeatedly] returns, the last thing it did was to
    print that it could not get an auth key. *)
Theorem stream_returns_only_without_token fuel cam s :
  fst (stream_repeatedly env config verbose fuel cam s) = Some (Ok tt) ->
  exists tr,
    trace (snd (stream_repeatedly env config verbose fuel cam s))
    = trace s ++ tr ++ [EPrint MsgNoAuthKey].
Proof. apply stream_loop_returns. Qed.

End Exchanges.

Lemma stream_returns_only_without_token_witness :
  exists tr,
    trace (snd (stream_repeatedly Scenario.no_cookie Scenario.front_config
                  true 2 "front" initial_state))
    = trace initial_state ++ tr ++ [EPrint MsgNoAuthKey].
Proof.
  apply (stream_returns_only_without_token Scenario.no_cookie
           Scenario.front_config true 2 "front" initial_state).
  reflexivity.
Defined.

(** ** Progress lines and the summary of a session *)

Section Progress.

Variable t0 : Q.

Lemma on_chunk_progress len st s :
  progress (trace (snd (on_chunk t0 len st s)))
  = progress (trace s)
    ++ (if counter st mod 100 =? 0 then [total_size st + len] else []).
Proof.
  unfold on_chunk. unfold_monad. unfold progress.
  destruct (millis (fsub (fst (read (clock s))) (fetch_start st))
            >=? SLOW_FETCH_THRESHOLD_MS);
    destruct (counter st mod 100 =? 0); cbn;
    rewrite ?flat_map_app; cbn; rewrite ?app_nil_r; reflexivity.
Qed.

Lemma only_loop_lines chunks :
  forall st, only loop_line (consume chunks t0 st).
Proof.
  induction chunks as [| [d len] rest IH]; intros st; cbn [consume].
  - apply only_ret.
  - frame; [unfold on_chunk; frame | apply IH].
Qed.

Lemma consume_progress chunks :
  forall st s,
    progress (trace (snd (consume chunks t0 st s)))
    = progress (trace s)
      ++ progress_from (counter st) (total_size st) chunks.
Proof.
  induction chunks as [| [d len] rest IH]; intros st s.
  - cbn. symmetry. apply app_nil_r.
  - cbn [consume]. unfold bind at 1. cbn [elapse].
    match goal with |- context [bind _ _ ?s1] =>
      destruct (on_chunk_run t0 len st s1) as (s2 & Hrun & _);
      pose proof (on_chunk_progress len st s1) as Hp end.
    rewrite Hrun in Hp. cbn [snd trace] in Hp.
    erewrite bind_ok by exact Hrun.
    rewrite IH, Hp. cbn [counter total_size progress_from].
    rewrite <- app_assoc. reflexivity.
Qed.

End Progress.

Lemma progress_from_In chunks :
  forall k total t,
    In t (progress_from k total chunks) <->
    exists i,
      (1 <= i <= List.length chunks)%nat
      /\ (k + Z.of_nat i - 1) mod 100 = 0
      /\ t = total + sizes (firstn i chunks).
Proof.
  induction chunks as [| [d len] rest IH]; intros k total t.
  - cbn. split; [tauto |]. intros (i & Hi & _). lia.
  - cbn [progress_from]. rewrite in_app_iff, IH. split.
    + intros [H | (i & Hi & Hmod & ->)].
      * destruct (Z.eqb_spec (k mod 100) 0) as [E | E]; [| contradiction].
        destruct H as [H | []]. subst t.
        exists 1%nat. cbn [List.length firstn]. unfold sizes. cbn.
        repeat split; try lia.
        replace (k + 1 - 1) with k by lia. exact E.
      * exists (S i). cbn [List.length firstn].
        split; [lia |]. split.
        -- replace (k + Z.of_nat (S i) - 1) with (k + 1 + Z.of_nat i - 1)
             by lia. exact Hmod.
        -- unfold sizes. cbn. lia.
    + intros ([| [| i]] & Hi & Hmod & ->); [lia | |].
      * left. replace (k + Z.of_nat 1 - 1) with k in Hmod by lia.
        apply Z.eqb_eq in Hmod. rewrite Hmod. left.
        unfold sizes. cbn. lia.
      * right. exists (S i). cbn [List.length] in Hi.
        split; [lia |]. split.
        -- replace (k + 1 + Z.of_nat (S i) - 1)
             with (k + Z.of_nat (S (S i)) - 1) by lia. exact Hmod.
        -- unfold sizes. cbn. lia.
Qed.

(** X6. Every hundredth chunk of a session gets a progress line: the totals
    of the lines a session prints are those of [progress_from], and [t]
    is one of them if and only if, for some [n] that is a multiple of 100
    and at most the number of chunks, [t] is the total length of the first
    [n] chunks. *)
Theorem progress_lines :
  (forall st s,
     progress (trace (snd (stream_session st s)))
     = progress (trace s)
       ++ progress_from 1 0 (content (snd st) CHUNK_SIZE))
  /\ (forall chunks t,
        In t (progress_from 1 0 chunks) <->
        exists n,
          (1 <= n <= List.length chunks)%nat
          /\ Z.of_nat n mod 100 = 0
          /\ t = sizes (firstn n chunks)).
Proof.
  split.
  - intros st s. rewrite stream_session_eq. unfold iter_content.
    set (t0 := fst (read (clock s))). set (s0 := snd (time_time s)).
    pose proof (consume_progress t0 (content (snd st) CHUNK_SIZE)
                  {| fetch_start := t0; counter := 1; total_size := 0 |} s0)
      as Hp.
    cbn [counter total_size] in Hp.
    change (trace s0) with (trace s) in Hp. rewrite <- Hp.
    destruct (consume_counts t0 (content (snd st) CHUNK_SIZE)
                {| fetch_start := t0; counter := 1; total_size := 0 |} s0)
      as (st' & s1 & Hc & _).
    rewrite Hc. unfold bind at 1. rewrite (bind_ok _ _ _ _ _ Hc).
    unfold_monad. unfold close, emit, progress.
    destruct (snd (content_end (snd st))); cbn; [| reflexivity].
    rewrite !flat_map_app. cbn. rewrite !app_nil_r. reflexivity.
  - intros chunks t. rewrite progress_from_In. split.
    + intros (i & Hi & Hmod & ->). exists i.
      split; [lia |]. split.
      * replace (1 + Z.of_nat i - 1) with (Z.of_nat i) in Hmod by lia.
        exact Hmod.
      * lia.
    + intros (n & Hn & Hmod & ->). exists n.
      split; [lia |]. split.
      * replace (1 + Z.of_nat n - 1) with (Z.of_nat n) by lia. exact Hmod.
      * lia.
Qed.


(** ** What can be raised *)

Section Throws.

Variable E : exn -> bool.

Lemma throws_bind {A B} (c : M A) (k : A -> M B) :
  throws E c -> (forall a, throws E (k a)) -> throws E (bind c k).
Proof.
  intros Hc Hk s e. unfold bind. specialize (Hc s).
  destruct (c s) as [[a | e'] s1]; cbn [fst] in *.
  - apply Hk.
  - intros H. apply Hc. injection H as <-. reflexivity.
Qed.

Lemma throws_answer {A} (r : A + io_fault) :
  E RequestException = true -> E KeyboardInterrupt = true ->
  throws E (answer r).
Proof.
  intros H1 H2 s e. destruct r as [a | []]; cbn; intros H;
    try discriminate; injection H as <-; assumption.
Qed.

Lemma throws_fault {A} (f : io_fault) :
  E RequestException = true -> E KeyboardInterrupt = true ->
  throws E (@raise A (exn_of_fault f)).
Proof.
  intros H1 H2 s e. destruct f; cbn; intros H; injection H as <-; assumption.
Qed.

Lemma throws_cookies_get name jar :
  E CookieConflictError = true -> throws E (cookies_get name jar).
Proof.
  intros H s e. rewrite cookies_get_result.
  destruct (cookie_values name jar) as [| t [| w rest]]; cbn [fst];
    intros H'; try discriminate.
  injection H' as <-. exact H.
Qed.

End Throws.

Ltac toss :=
  repeat match goal with
         | |- throws _ (bind _ _) => apply throws_bind; [| intros ?]
         | |- throws _ (when ?b _) => destruct b; unfold when
         | |- throws _ (answer _) => apply throws_answer; reflexivity
         | |- throws _ (cookies_get _ _) =>
             apply throws_cookies_get; reflexivity
         | |- throws _ (raise (exn_of_fault _)) =>
             apply throws_fault; reflexivity
         | |- throws _ (raise _) =>
             let H := fresh in
             intros ? ? H; injection H as <-; reflexivity
         | |- throws _ (ret _) => intros ? ? ?; discriminate
         | |- throws _ time_time => intros ? ? ?; discriminate
         | |- throws _ (elapse _) => intros ? ? ?; discriminate
         | |- throws _ (emit _) => intros ? ? ?; discriminate
         | |- throws _ (print _) => intros ? ? ?; discriminate
         | |- throws _ (close _) => intros ? ? ?; discriminate
         | |- throws _ (if ?b then _ else _) => destruct b
         | |- throws _ (match ?x with _ => _ end) => destruct x
         end.

Section Robust.

Variable env : Env.
Variable config : Config.
Variable verbose : bool.

Lemma get_auth_key_throws :
  throws service_failure (get_auth_key env config verbose).
Proof.
  unfold get_auth_key, time_request. toss.
  - intros s e. unfold post_authenticate.
    match goal with |- fst (?c ?s0) = _ -> _ =>
      assert (H : throws service_failure c) by toss; apply H end.
  - intros s0 e. unfold post_authorize.
    match goal with |- fst (?c ?s1) = _ -> _ =>
      assert (H : throws service_failure c) by toss; apply H end.
Qed.

Lemma make_playback_request_throws key cam :
  lookup cam (cameras config) <> None ->
  throws service_failure (make_playback_request env config verbose key cam).
Proof.
  intros Hcam s e.
  destruct (lookup cam (cameras config)) as [id |] eqn:Hid; [| congruence].
  destruct (make_playback_request_run env config verbose key cam id s Hid)
    as (s' & -> & _). cbn [fst].
  destruct (snd (playback_at env (playback_calls s))) as [r | []];
    [destruct (status_code r =? 200) |..]; intros H;
    try discriminate; injection H as <-; reflexivity.
Qed.

Lemma raw_read1_throws st : throws service_failure (raw_read1 st).
Proof. unfold raw_read1. toss. Qed.

(** What a successful pass of the camera loop does to [load_times]. *)
Lemma sample_camera_ok key cam load_times s load_times' s' :
  sample_camera env config verbose key cam load_times s
  = (Ok load_times', s') ->
  exists samples x,
    lookup cam load_times = Some samples
    /\ load_times' = setitem cam (samples ++ [x]) load_times.
Proof.
  unfold sample_camera. intros H.
  do 5 (apply bind_ok_inv in H; destruct H as (? & ? & _ & H)).
  destruct (lookup cam load_times) as [samples |]; [| discriminate].
  injection H as <- _. eauto.
Qed.

Lemma sample_camera_throws key cam load_times :
  lookup cam (cameras config) <> None ->
  lookup cam load_times <> None ->
  throws service_failure
    (sample_camera env config verbose key cam load_times).
Proof.
  intros Hcam Hlt. unfold sample_camera.
  destruct (lookup cam load_times); [| congruence].
  toss; try apply raw_read1_throws.
  apply make_playback_request_throws, Hcam.
Qed.

End Robust.

Lemma throws_bind_ok (E : exn -> bool) {A B} (c : M A) (k : A -> M B) :
  throws E c ->
  (forall s a s', c s = (Ok a, s') -> throws E (k a)) ->
  throws E (bind c k).
Proof.
  intros Hc Hk s e. unfold bind. specialize (Hc s). specialize (Hk s).
  destruct (c s) as [[a | e'] s1]; cbn [fst] in *.
  - apply (Hk a s1 eq_refl).
  - intros H. apply Hc. injection H as <-. reflexivity.
Qed.

Lemma lookup_in_keys {A} c (d : list (string * A)) :
  In c (keys d) -> lookup c d <> None.
Proof.
  induction d as [| [k v] d IH]; cbn; [contradiction |].
  intros [-> | Hin].
  - rewrite String.eqb_refl. discriminate.
  - destruct (String.eqb k c); [discriminate | apply IH, Hin].
Qed.

Lemma lookup_keys_in {A} c (d : list (string * A)) :
  lookup c d <> None -> In c (keys d).
Proof.
  induction d as [| [k v] d IH]; cbn; [congruence |].
  destruct (String.eqb_spec k c) as [-> | _]; [auto |].
  intros H. right. apply IH, H.
Qed.

Section Sampled.

Variable env : Env.
Variable config : Config.
Variable verbose : bool.
Variable key : option string.

Lemma only_sample_camera cam load_times :
  only sample_event (sample_camera env config verbose key cam load_times).
Proof.
  unfold sample_camera, close. frame.
  - eapply only_weaken; [| apply make_playback_request_events].
    intros e He. unfold sample_event. rewrite He. reflexivity.
  - eapply only_weaken; [| apply only_raw_read1].
    intros [[] | | | | | |]; cbn; congruence.
Qed.

Lemma sample_camera_keeps cam load_times s load_times' s' :
  sample_camera env config verbose key cam load_times s
  = (Ok load_times', s') ->
  keys load_times' = keys load_times
  /\ has_samples load_times' cam
  /\ (forall c, has_samples load_times c -> has_samples load_times' c)
  /\ (forall c, lookup c load_times <> None -> lookup c load_times' <> None).
Proof.
  intros H. apply sample_camera_ok in H.
  destruct H as (samples & x & Hl & ->).
  split; [apply keys_setitem; congruence |].
  split.
  { exists (samples ++ [x]). rewrite lookup_setitem_same.
    split; [reflexivity |]. destruct samples; discriminate. }
  split.
  - intros c (l & Hc & Hne). destruct (string_dec cam c) as [-> | Hcc].
    + exists (samples ++ [x]). rewrite lookup_setitem_same.
      split; [reflexivity |]. destruct samples; discriminate.
    + exists l. rewrite lookup_setitem_other by exact Hcc. auto.
  - intros c Hc. destruct (string_dec cam c) as [-> | Hcc].
    + rewrite lookup_setitem_same. discriminate.
    + rewrite lookup_setitem_other by exact Hcc. exact Hc.
Qed.

Lemma sample_cameras_keep cs :
  forall load_times s load_times' s',
    for_each cs (sample_camera env config verbose key) load_times s
    = (Ok load_times', s') ->
    keys load_times' = keys load_times
    /\ (forall c, In c cs -> has_samples load_times' c)
    /\ (forall c, has_samples load_times c -> has_samples load_times' c)
    /\ (forall c, lookup c load_times <> None ->
                  lookup c load_times' <> None).
Proof.
  induction cs as [| cam cs IH]; intros lt s lt' s' H; cbn [for_each] in H.
  - injection H as <- _. repeat split; auto. contradiction.
  - apply bind_ok_inv in H. destruct H as (lt1 & s1 & H1 & H2).
    apply sample_camera_keeps in H1. destruct H1 as (K1 & C1 & M1 & N1).
    apply IH in H2. destruct H2 as (K2 & C2 & M2 & N2).
    split; [congruence |]. split; [| split; auto].
    intros c [<- | Hin]; auto.
Qed.

Lemma sample_cameras_throw cs :
  (forall c, In c cs -> lookup c (cameras config) <> None) ->
  forall load_times,
    (forall c, In c cs -> lookup c load_times <> None) ->
    throws service_failure
      (for_each cs (sample_camera env config verbose key) load_times).
Proof.
  intros Hreg. induction cs as [| cam cs IH]; intros lt Hlt; cbn [for_each].
  - intros s e H. discriminate.
  - apply throws_bind_ok.
    + apply sample_camera_throws; [apply Hreg | apply Hlt]; left; reflexivity.
    + intros s lt1 s1 H1. apply sample_camera_keeps in H1.
      destruct H1 as (_ & _ & _ & N1). apply IH.
      * intros c Hc. apply Hreg. right. exact Hc.
      * intros c Hc. apply N1, Hlt. right. exact Hc.
Qed.

Hypothesis delay : 0 <= delay_between_runs_seconds config.

Lemma run_round_throws i load_times :
  keys load_times = keys (cameras config) ->
  throws service_failure (run_round env config verbose key i load_times).
Proof.
  intros Hkeys. unfold run_round, time_sleep.
  apply Z.ltb_ge in delay. rewrite delay.
  apply throws_bind; [toss |]. intros _.
  apply sample_cameras_throw.
  - intros c. apply lookup_in_keys.
  - intros c Hc. apply lookup_in_keys. rewrite Hkeys. exact Hc.
Qed.

End Sampled.

Section RoundFailures.

Variable env : Env.
Variable config : Config.
Variable verbose : bool.
Variable key : option string.

Lemma run_round_keeps i load_times s load_times' s' :
  run_round env config verbose key i load_times s = (Ok load_times', s') ->
  keys load_times' = keys load_times
  /\ (forall c, In c (keys (cameras config)) -> has_samples load_times' c)
  /\ (forall c, has_samples load_times c -> has_samples load_times' c).
Proof.
  unfold run_round. intros H. apply bind_ok_inv in H.
  destruct H as (_ & s0 & _ & H). apply sample_cameras_keep in H.
  destruct H as (K & C & M & _). auto.
Qed.

Lemma rounds_keep rounds :
  forall load_times s load_times' s',
    for_each rounds (run_round env config verbose key) load_times s
    = (Ok load_times', s') ->
    keys load_times' = keys load_times
    /\ (forall c, has_samples load_times c -> has_samples load_times' c)
    /\ (rounds <> [] ->
        forall c, In c (keys (cameras config)) -> has_samples load_times' c).
Proof.
  induction rounds as [| i rounds IH]; intros lt s lt' s' H;
    cbn [for_each] in H.
  - injection H as <- _. repeat split; auto. congruence.
  - apply bind_ok_inv in H. destruct H as (lt1 & s1 & H1 & H2).
    apply run_round_keeps in H1. destruct H1 as (K1 & C1 & M1).
    apply IH in H2. destruct H2 as (K2 & M2 & _).
    split; [congruence |]. split; auto.
Qed.

Lemma rounds_throw rounds :
  0 <= delay_between_runs_seconds config ->
  forall load_times,
    keys load_times = keys (cameras config) ->
    throws service_failure
      (for_each rounds (run_round env config verbose key) load_times).
Proof.
  intros Hdelay. induction rounds as [| i rounds IH]; intros lt Hkeys;
    cbn [for_each].
  - intros s e H. discriminate.
  - apply throws_bind_ok.
    + apply run_round_throws; assumption.
    + intros s lt1 s1 H1. apply run_round_keeps in H1.
      destruct H1 as (K1 & _). apply IH. congruence.
Qed.

End RoundFailures.

Section LatencyTest.

Variable env : Env.
Variable config : Config.
Variable verbose : bool.

Hypothesis registry : NoDup (keys (cameras config)).

Lemma collect_load_times_eq runs s :
  collect_load_times env config verbose runs s
  = (auth_key <- get_auth_key env config verbose ;;
     for_each (range runs) (run_round env config verbose auth_key)
       (no_samples (keys (cameras config)))) s.
Proof.
  unfold collect_load_times.
  rewrite (initial_load_times _ registry []) by reflexivity. reflexivity.
Qed.

Lemma only_collect_load_times runs :
  only collect_event (collect_load_times env config verbose runs).
Proof.
  unfold collect_load_times. apply only_bind.
  - eapply only_weaken; [| apply get_auth_key_chatter].
    intros [[] | | | | | |]; cbn; congruence.
  - intros key. apply only_for_each. intros i lt.
    unfold run_round, time_sleep. frame.
    all: apply only_for_each; intros c lt';
      eapply only_weaken; [| apply only_sample_camera];
      intros e He; unfold collect_event; rewrite He; reflexivity.
Qed.

(** When the sampling phase completes after at least one round, the
    report phase completes too, with a line for each camera. *)
Lemma report_after_sampling runs s load_times s1 :
  0 < runs ->
  collect_load_times env config verbose runs s = (Ok load_times, s1) ->
  exists load_times' s2 lines,
    report_load_times runs load_times s1 = (Ok load_times', s2)
    /\ reports (trace s2) = reports (trace s1) ++ lines
    /\ Forall2
         (fun c line => exists mn av md mx, line = MsgLoadTime c mn av md mx)
         (keys (cameras config)) lines.
Proof.
  intros Hruns Hc. rewrite collect_load_times_eq in Hc.
  apply bind_ok_inv in Hc. destruct Hc as (key & s0 & _ & Hfor).
  apply rounds_keep in Hfor. destruct Hfor as (Hkeys & _ & Hall).
  rewrite keys_no_samples in Hkeys.
  assert (Hne : range runs <> []).
  { unfold range. destruct (Z.to_nat runs) eqn:E; [lia | discriminate]. }
  specialize (Hall Hne).
  destruct (report_all runs load_times load_times s1)
    as (lt' & s2 & lines & Hr & Hlines & Hf).
  - lia.
  - rewrite Hkeys. exact registry.
  - intros c samples Hin.
    assert (Hl : lookup c load_times = Some samples).
    { apply lookup_registry; [rewrite Hkeys; exact registry | exact Hin]. }
    split; [exact Hl |].
    destruct (Hall c) as (samples' & Hl' & Hne').
    { rewrite <- Hkeys. change c with (fst (c, samples)). apply in_map, Hin. }
    congruence.
  - exists lt', s2, lines. split; [exact Hr |]. split; [exact Hlines |].
    rewrite <- Hkeys. clear - Hf.
    induction Hf as [| [c samples] line lt lines (mn & md & mx & ->) _ IH];
      cbn; constructor; eauto.
Qed.

Lemma test_latency_throws runs :
  0 <= delay_between_runs_seconds config ->
  0 < runs ->
  throws service_failure (test_latency env config verbose runs).
Proof.
  intros Hdelay Hruns s e. unfold test_latency.
  destruct (collect_load_times env config verbose runs s)
    as [[lt | e'] s1] eqn:Hc.
  - destruct (report_after_sampling runs s lt s1 Hruns Hc)
      as (lt' & s2 & lines & Hr & _).
    rewrite (bind_ok _ _ _ _ _ Hc), (bind_ok _ _ _ _ _ Hr). discriminate.
  - rewrite (bind_raise _ _ _ _ _ Hc). cbn [fst]. intros H.
    injection H as <-.
    assert (Ht : throws service_failure
                   (collect_load_times env config verbose runs)).
    { intros s' e''. rewrite collect_load_times_eq. revert s' e''.
      apply throws_bind; [apply get_auth_key_throws |].
      intros key. apply rounds_throw; [exact Hdelay |].
      apply keys_no_samples. }
    apply (Ht s). rewrite Hc. reflexivity.
Qed.


(** X9. [test_latency] prints the whole report or none of it: when it raises,
    no report line has been printed; when it returns, there is one line
    for each camera, in the order of the registry. *)
Theorem report_all_or_nothing runs s :
  match fst (test_latency env config verbose runs s) with
  | Raise _ =>
      reports (trace (snd (test_latency env config verbose runs s)))
      = reports (trace s)
  | Ok _ =>
      exists lines,
        reports (trace (snd (test_latency env config verbose runs s)))
        = reports (trace s) ++ lines
        /\ Forall2
             (fun c line =>
                exists mn av md mx, line = MsgLoadTime c mn av md mx)
             (keys (cameras config)) lines
  end.
Proof.
  pose proof (only_collect_load_times runs s) as Hg.
  assert (Hrep : reports (trace (snd (collect_load_times env config verbose
                                        runs s)))
                 = reports (trace s)).
  { apply (grows_flat_map collect_event _ _ _ Hg).
    intros [[] | | | | | |]; cbn; congruence. }
  clear Hg. unfold test_latency.
  destruct (collect_load_times env config verbose runs s)
    as [[lt | e'] s1] eqn:Hc; cbn [snd] in Hrep.
  2:{ rewrite (bind_raise _ _ _ _ _ Hc). exact Hrep. }
  rewrite (bind_ok _ _ _ _ _ Hc).
  destruct (Z.ltb_spec 0 runs) as [Hruns | Hruns].
  - destruct (report_after_sampling runs s lt s1 Hruns Hc)
      as (lt' & s2 & lines & Hr & Hlines & Hf).
    rewrite (bind_ok _ _ _ _ _ Hr). cbn [ret fst snd].
    exists lines. split; [congruence | exact Hf].
  - rewrite collect_load_times_eq in Hc.
    apply bind_ok_inv in Hc. destruct Hc as (key & s0 & _ & Hfor).
    unfold range in Hfor.
    replace (Z.to_nat runs) with 0%nat in Hfor by lia.
    cbn in Hfor. injection Hfor as <- <-.
    unfold report_load_times. rewrite keys_no_samples.
    destruct (keys (cameras config)) as [| c cs] eqn:Hk.
    + cbn. exists []. rewrite app_nil_r. split; [exact Hrep | constructor].
    + cbn [for_each]. unfold bind at 1. unfold report_camera.
      rewrite lookup_no_samples by (left; reflexivity).
      cbn. exact Hrep.
Qed.

(** X10. [test_latency] with no run to make (a number of runs of 0 or less),
    on a registry that is not empty, authenticates and then raises
    [IndexError], having sent no playback request. *)
Theorem latency_test_without_runs runs s key s1 :
  runs <= 0 ->
  cameras config <> [] ->
  get_auth_key env config verbose s = (Ok key, s1) ->
  test_latency env config verbose runs s = (Raise IndexError, s1).
Proof.
  intros Hruns Hne Hkey. unfold test_latency.
  assert (Hc : collect_load_times env config verbose runs s
               = (Ok (no_samples (keys (cameras config))), s1)).
  { rewrite collect_load_times_eq, (bind_ok _ _ _ _ _ Hkey).
    unfold range. replace (Z.to_nat runs) with 0%nat by lia. reflexivity. }
  rewrite (bind_ok _ _ _ _ _ Hc).
  unfold report_load_times. rewrite keys_no_samples.
  destruct (cameras config) as [| [c id] cs]; [congruence |].
  cbn [keys map fst for_each].
  unfold bind at 1. unfold bind at 1. unfold report_camera.
  rewrite lookup_no_samples by (left; reflexivity).
  reflexivity.
Qed.

End LatencyTest.

Section Pauses.

Variable env : Env.
Variable config : Config.
Variable verbose : bool.
Variable key : option string.

(** The sleeps of one round: none before round 0, at most one before any
    other, and exactly one when that round completes. *)
Lemma run_round_sleeps (i : nat) load_times s :
  exists n,
    sleeps (trace (snd (run_round env config verbose key (Z.of_nat i)
                          load_times s)))
    = sleeps (trace s) ++ repeat (delay_between_runs_seconds config) n
    /\ (n <= 1)%nat
    /\ (i = 0%nat -> n = 0%nat)
    /\ (forall load_times',
          fst (run_round env config verbose key (Z.of_nat i) load_times s)
          = Ok load_times' ->
          i <> 0%nat -> n = 1%nat).
Proof.
  set (pause := delay_between_runs_seconds config).
  unfold run_round.
  assert (Hsam : forall s0,
             sleeps (trace (snd (for_each (keys (cameras config))
                                   (sample_camera env config verbose key)
                                   load_times s0)))
             = sleeps (trace s0)).
  { intros s0.
    apply (grows_flat_map sample_event _ _ _
             (only_for_each sample_event _ _
                (only_sample_camera env config verbose key) load_times s0)).
    intros [[] | | | | | |]; cbn; congruence. }
  destruct i as [| i].
  - exists 0%nat. cbn [Z.of_nat Z.ltb Z.compare when repeat].
    unfold bind at 1 2. cbn [ret]. rewrite Hsam, app_nil_r.
    repeat split; auto; congruence.
  - replace (0 <? Z.of_nat (S i)) with true by (symmetry; apply Z.ltb_lt; lia).
    unfold when at 1. unfold time_sleep. fold pause.
    destruct (pause <? 0) eqn:Hneg.
    + exists 0%nat. unfold_monad.
      destruct verbose; cbn; rewrite ?app_nil_r;
        unfold sleeps; rewrite ?flat_map_app; cbn; rewrite ?app_nil_r;
        (split; [reflexivity |]); (split; [lia |]); split;
        try discriminate; intros; discriminate.
    + exists 1%nat.
      assert (Hp : exists s0,
                 (when verbose (print (MsgWaiting pause)) ;;
                  emit (ESleep pause) ;; elapse (inject_Z pause)) s
                 = (Ok tt, s0)
                 /\ sleeps (trace s0) = sleeps (trace s) ++ [pause]).
      { unfold_monad. unfold sleeps.
        destruct verbose; cbn; eexists; (split; [reflexivity |]); cbn;
          rewrite ?flat_map_app; cbn; rewrite ?app_nil_r; reflexivity. }
      destruct Hp as (s0 & Hp & Hs0).
      rewrite (bind_ok _ _ _ _ _ Hp), Hsam, Hs0.
      repeat split; auto; discriminate.
Qed.

Lemma rounds_sleeps m :
  forall j load_times s,
  exists n,
    sleeps (trace (snd (for_each (map Z.of_nat (seq j m))
                          (run_round env config verbose key) load_times s)))
    = sleeps (trace s) ++ repeat (delay_between_runs_seconds config) n
    /\ (n <= m - (if Nat.eqb j 0 then 1 else 0))%nat
    /\ (forall load_times',
          fst (for_each (map Z.of_nat (seq j m))
                 (run_round env config verbose key) load_times s)
          = Ok load_times' ->
          n = (m - (if Nat.eqb j 0 then 1 else 0))%nat).
Proof.
  set (pause := delay_between_runs_seconds config).
  induction m as [| m IH]; intros j lt s.
  - exists 0%nat. cbn. rewrite app_nil_r. repeat split; auto; lia.
  - cbn [seq map for_each].
    destruct (run_round_sleeps j lt s) as (n1 & Hs1 & Hle1 & Hz1 & Hok1).
    unfold bind.
    destruct (run_round env config verbose key (Z.of_nat j) lt s)
      as [[lt1 | e] s1]; cbn [fst snd] in *.
    + destruct (IH (S j) lt1 s1) as (n2 & Hs2 & Hle2 & Hok2).
      cbn [Nat.eqb] in Hle2, Hok2.
      exists (n1 + n2)%nat. rewrite Hs2, Hs1, <- app_assoc, repeat_app.
      split; [reflexivity |].
      destruct (Nat.eqb_spec j 0) as [-> | Hj].
      * rewrite (Hz1 eq_refl) in *. split; [lia |].
        intros lt' H. rewrite (Hok2 lt' H). lia.
      * rewrite (Hok1 lt1 eq_refl Hj). split; [lia |].
        intros lt' H. rewrite (Hok2 lt' H). lia.
    + exists n1. split; [exact Hs1 |]. split; [| discriminate].
      destruct (Nat.eqb_spec j 0) as [-> | Hj]; [rewrite (Hz1 eq_refl) |]; lia.
Qed.

End Pauses.


(** ** The verbose flag *)

Section Alike.

Lemma alike_refl s : alike s s.
Proof. repeat split. Qed.

Lemma terse_snoc tr e :
  terse (tr ++ [e]) = terse tr ++ (if verbose_line e then [] else [e]).
Proof.
  unfold terse. rewrite filter_app. cbn.
  destruct (verbose_line e); reflexivity.
Qed.

Lemma agree_ret {A} (a : A) : agree (ret a) (ret a).
Proof. intros s s' H. split; [reflexivity | exact H]. Qed.

Lemma agree_raise {A} e : agree (@raise A e) (raise e).
Proof. intros s s' H. split; [reflexivity | exact H]. Qed.

Lemma agree_time_time : agree time_time time_time.
Proof.
  intros s s' (Hn & Ha & Hz & Hp & Ht). unfold time_time, alike.
  cbn [fst snd clock authenticate_calls authorize_calls playback_calls trace].
  rewrite Hn. split; [reflexivity |]. repeat split; congruence.
Qed.

Lemma agree_elapse d : agree (elapse d) (elapse d).
Proof.
  intros s s' (Hn & Ha & Hz & Hp & Ht). unfold elapse, alike.
  cbn [fst snd clock authenticate_calls authorize_calls playback_calls trace].
  split; [reflexivity |]. repeat split; congruence.
Qed.

Lemma agree_cookies_get name jar :
  agree (cookies_get name jar) (cookies_get name jar).
Proof.
  intros s s' H. rewrite !cookies_get_result. split; [reflexivity | exact H].
Qed.

Lemma agree_emit e : agree (emit e) (emit e).
Proof.
  intros s s' (Hn & Ha & Hz & Hp & Ht). cbn.
  split; [reflexivity |]. repeat split; cbn; try congruence.
  rewrite !terse_snoc, Ht. reflexivity.
Qed.

(** A verbose line printed on one side only. *)
Lemma agree_verbose_line m :
  verbose_line (EPrint m) = true ->
  agree (when true (print m)) (when false (print m)).
Proof.
  intros Hm s s' (Hn & Ha & Hz & Hp & Ht). cbn.
  split; [reflexivity |]. repeat split; cbn; try congruence.
  rewrite terse_snoc, Hm, app_nil_r. exact Ht.
Qed.

Lemma agree_bind {A B} (c c' : M A) (k k' : A -> M B) :
  agree c c' -> (forall a, agree (k a) (k' a)) ->
  agree (bind c k) (bind c' k').
Proof.
  intros Hc Hk s s' H. unfold bind. destruct (Hc s s' H) as [Hr Hs].
  destruct (c s) as [[a | e] s1], (c' s') as [[a' | e'] s1'];
    cbn [fst snd] in *; try discriminate.
  - injection Hr as <-. apply Hk, Hs.
  - injection Hr as <-. split; [reflexivity | exact Hs].
Qed.

Lemma agree_for_each {A S} (body body' : A -> S -> M S) xs :
  (forall x acc, agree (body x acc) (body' x acc)) ->
  forall acc, agree (for_each xs body acc) (for_each xs body' acc).
Proof.
  intros Hb. induction xs as [| x xs IH]; intros acc; cbn [for_each].
  - apply agree_ret.
  - apply agree_bind; [apply Hb | exact IH].
Qed.

End Alike.

Ltac same :=
  repeat match goal with
         | |- agree (bind _ _) (bind _ _) => apply agree_bind; [| intros ?]
         | |- agree (ret _) (ret _) => apply agree_ret
         | |- agree (raise _) (raise _) => apply agree_raise
         | |- agree time_time time_time => apply agree_time_time
         | |- agree (cookies_get _ _) (cookies_get _ _) =>
             apply agree_cookies_get
         | |- agree (elapse _) (elapse _) => apply agree_elapse
         | |- agree (emit _) (emit _) => apply agree_emit
         | |- agree (print _) (print _) => apply agree_emit
         | |- agree (close _) (close _) => apply agree_emit
         | |- agree (when true _) (when false _) =>
             apply agree_verbose_line; reflexivity
         | |- agree (when ?b _) (when ?b _) => destruct b; unfold when
         | |- agree (if ?b then _ else _) (if ?b then _ else _) =>
             destruct b
         | |- agree (match ?x with _ => _ end) (match ?x with _ => _ end) =>
             destruct x
         end.

Section Verbose.

Variable env : Env.
Variable config : Config.

Lemma agree_post_authenticate u p t :
  agree (post_authenticate env u p t) (post_authenticate env u p t).
Proof.
  intros s s' (Hn & Ha & Hz & Hp & Ht).
  unfold post_authenticate. unfold_monad. cbn. rewrite <- Ha, <- Hn.
  destruct (snd (authenticate_at env (authenticate_calls s))); cbn;
    (split; [reflexivity |]); repeat split; cbn; try congruence;
    rewrite !terse_snoc, Ht; reflexivity.
Qed.

Lemma agree_post_authorize b t :
  agree (post_authorize env b t) (post_authorize env b t).
Proof.
  intros s s' (Hn & Ha & Hz & Hp & Ht).
  unfold post_authorize. unfold_monad. cbn. rewrite <- Hz, <- Hn.
  destruct (snd (authorize_at env (authorize_calls s))); cbn;
    (split; [reflexivity |]); repeat split; cbn; try congruence;
    rewrite !terse_snoc, Ht; reflexivity.
Qed.

Lemma agree_get_playback id t key :
  agree (get_playback env id t key) (get_playback env id t key).
Proof.
  intros s s' (Hn & Ha & Hz & Hp & Ht).
  unfold get_playback. unfold_monad. cbn. rewrite <- Hp, <- Hn.
  destruct (snd (playback_at env (playback_calls s))); cbn;
    (split; [reflexivity |]); repeat split; cbn; try congruence;
    rewrite !terse_snoc, Ht; reflexivity.
Qed.

Lemma agree_time_request {A} name (c : M A) :
  agree c c -> agree (time_request true name c) (time_request false name c).
Proof. intros Hc. unfold time_request. same. exact Hc. Qed.

Lemma agree_get_auth_key :
  agree (get_auth_key env config true) (get_auth_key env config false).
Proof.
  unfold get_auth_key. same.
  - apply agree_time_request. apply agree_post_authenticate.
  - apply agree_time_request. apply agree_post_authorize.
Qed.

Lemma agree_make_playback_request key cam :
  agree (make_playback_request env config true key cam)
        (make_playback_request env config false key cam).
Proof.
  unfold make_playback_request.
  destruct (lookup cam (cameras config)); [| apply agree_raise].
  apply agree_bind; [apply agree_time_time |]. intros t.
  apply agree_bind; [apply agree_verbose_line; reflexivity |]. intros _.
  apply agree_bind; [apply agree_time_request; apply agree_get_playback |].
  intros st. same.
Qed.

Lemma agree_raw_read1 st : agree (raw_read1 st) (raw_read1 st).
Proof. unfold raw_read1. same. Qed.

Lemma agree_stream_session st : agree (stream_session st) (stream_session st).
Proof.
  unfold stream_session, iter_content. same.
  generalize (content (snd st) CHUNK_SIZE). intros chunks.
  match goal with |- agree (consume _ ?t0 ?st0) _ =>
    generalize st0; generalize t0 end.
  intros t0. induction chunks as [| [d len] chunks IH]; intros st0;
    cbn [consume]; same.
  - unfold on_chunk. same.
  - apply IH.
Qed.

Lemma agree_sample_camera key cam load_times :
  agree (sample_camera env config true key cam load_times)
        (sample_camera env config false key cam load_times).
Proof.
  unfold sample_camera.
  apply agree_bind; [apply agree_time_time |]. intros t.
  apply agree_bind; [apply agree_make_playback_request |]. intros st.
  same; apply agree_raw_read1.
Qed.

Lemma agree_run_round key i load_times :
  agree (run_round env config true key i load_times)
        (run_round env config false key i load_times).
Proof.
  unfold run_round.
  apply agree_bind.
  - destruct (0 <? i); unfold when at 1 3; [| apply agree_ret].
    unfold time_sleep. same.
  - intros _. apply agree_for_each. intros. apply agree_sample_camera.
Qed.

Lemma agree_report_camera runs c load_times :
  agree (report_camera runs c load_times) (report_camera runs c load_times).
Proof. unfold report_camera. same. Qed.

Lemma agree_test_latency runs :
  agree (test_latency env config true runs)
        (test_latency env config false runs).
Proof.
  unfold test_latency, collect_load_times, report_load_times.
  apply agree_bind.
  - apply agree_bind; [apply agree_get_auth_key |]. intros key.
    apply agree_for_each. intros. apply agree_run_round.
  - intros lt. same. apply agree_for_each. intros.
    apply agree_report_camera.
Qed.

Lemma agree_stream_iteration cam k :
  agree (stream_iteration env config true cam k)
        (stream_iteration env config false cam k).
Proof.
  unfold stream_iteration, stream_iteration_with.
  apply agree_bind; [apply agree_get_auth_key |]. intros [key |]; [| same].
  apply agree_bind; [apply agree_make_playback_request |].
  intros [st |]; [| unfold time_sleep; same].
  same. apply agree_stream_session.
Qed.

Lemma agree_stream_loop fuel :
  forall cam k s s',
    alike s s' ->
    fst (stream_loop env config true fuel cam k s)
    = fst (stream_loop env config false fuel cam k s')
    /\ alike (snd (stream_loop env config true fuel cam k s))
             (snd (stream_loop env config false fuel cam k s')).
Proof.
  induction fuel as [| fuel IH]; intros cam k s s' H.
  - cbn. auto.
  - unfold stream_loop. cbn [stream_loop_with].
    fold (stream_iteration env config true cam k s).
    fold (stream_iteration env config false cam k s').
    destruct (agree_stream_iteration cam k s s' H) as [Hr Hs].
    destruct (stream_iteration env config true cam k s)
      as [[[k1 |] | e1] s1],
        (stream_iteration env config false cam k s')
      as [[[k2 |] | e2] s2]; cbn [fst snd] in *; try discriminate.
    + injection Hr as <-. apply IH, Hs.
    + auto.
    + injection Hr as <-. auto.
Qed.

End Verbose.

(** X12. On the same clock (the lines taking no time to print) the verbose
    flag changes nothing but the lines it adds: with and without it,
    [test_latency] and [stream_repeatedly] give the same result, make the
    same calls, read the clock as often, and leave the same trace once the
    verbose lines are taken out. *)
Theorem verbose_only_adds_lines env config :
  (forall runs s,
     fst (test_latency env config true runs s)
     = fst (test_latency env config false runs s)
     /\ alike (snd (test_latency env config true runs s))
              (snd (test_latency env config false runs s)))
  /\ (forall fuel cam s,
        fst (stream_repeatedly env config true fuel cam s)
        = fst (stream_repeatedly env config false fuel cam s)
        /\ alike (snd (stream_repeatedly env config true fuel cam s))
                 (snd (stream_repeatedly env config false fuel cam s))).
Proof.
  split.
  - intros runs s. apply agree_test_latency, alike_refl.
  - intros fuel cam s. apply agree_stream_loop, alike_refl.
Qed.

Section ConfigFile.

Local Open Scope string_scope.

(** ** get_config *)

Lemma lookup_assign_same {A} key (v : A) d :
  lookup key (assign key v d) = Some v.
Proof.
  induction d as [| [k x] rest IH]; cbn.
  - rewrite String.eqb_refl. reflexivity.
  - destruct (String.eqb k key) eqn:E; cbn; rewrite E; [reflexivity | exact IH].
Qed.

Lemma lookup_assign_other {A} key k (v : A) d :
  k <> key -> lookup k (assign key v d) = lookup k d.
Proof.
  intros Hne. induction d as [| [k' x] rest IH]; cbn.
  - destruct (String.eqb_spec key k); [congruence | reflexivity].
  - destruct (String.eqb_spec k' key) as [-> | Hk]; cbn.
    + destruct (String.eqb_spec key k); [congruence | reflexivity].
    + rewrite IH. reflexivity.
Qed.

Lemma lookup_completed typed members k :
  lookup k (completed typed members)
  = match lookup k members with
    | Some x => Some x
    | None =>
        if String.eqb k "password" then Some (JString typed)
        else if String.eqb k "delay_between_runs_seconds"
             then Some (JInt DEFAULT_DELAY_BETWEEN_RUNS_SECONDS)
             else None
    end.
Proof.
  unfold completed.
  assert (Hp : forall d,
             lookup k (match lookup "password" members with
                       | Some _ => members
                       | None => assign "password" d members
                       end)
             = match lookup k members with
               | Some x => Some x
               | None => if String.eqb k "password" then Some d else None
               end).
  { intros d. destruct (String.eqb_spec k "password") as [-> | Hk].
    - destruct (lookup "password" members) eqn:E.
      + rewrite E. reflexivity.
      + apply lookup_assign_same.
    - destruct (lookup "password" members) eqn:E.
      + destruct (lookup k members); reflexivity.
      + rewrite lookup_assign_other by exact Hk.
        destruct (lookup k members); reflexivity. }
  specialize (Hp (JString typed)).
  set (with_password := match lookup "password" members with
                        | Some _ => members
                        | None => assign "password" (JString typed) members
                        end) in *.
  destruct (String.eqb_spec k "delay_between_runs_seconds") as [-> | Hk].
  - destruct (lookup "delay_between_runs_seconds" with_password) eqn:E.
    + rewrite E.
      destruct (lookup "delay_between_runs_seconds" members);
        [exact Hp | discriminate].
    + rewrite lookup_assign_same.
      destruct (lookup "delay_between_runs_seconds" members);
        [discriminate | reflexivity].
  - destruct (lookup "delay_between_runs_seconds" with_password) eqn:E.
    + rewrite Hp. destruct (lookup k members); [reflexivity |].
      destruct (String.eqb k "password"); reflexivity.
    + rewrite lookup_assign_other by exact Hk. rewrite Hp.
      destruct (lookup k members); [reflexivity |].
      destruct (String.eqb k "password"); reflexivity.
Qed.

(** [get_config] on a file that holds an object. *)
Lemma get_config_object fs typed file members :
  fs file = Parsed (JObject members) ->
  get_config fs typed file
  = match lookup "email" members with
    | None => (inl NoUserFound, false)
    | Some _ =>
        let prompted :=
          match lookup "password" members with
          | Some _ => false
          | None => true
          end in
        match lookup "auth_token" members with
        | None => (inl NoAuthTokenFound, prompted)
        | Some _ =>
            match lookup "delay_between_runs_seconds" members with
            | None => (inr (JObject (completed typed members)), prompted)
            | Some d =>
                if valid_delay d
                then (inr (JObject (completed typed members)), prompted)
                else (inl (InvalidDelay d), prompted)
            end
        end
    end.
Proof.
  intros Hfs. unfold get_config. rewrite Hfs.
  cbn [contains]. destruct (lookup "email" members) as [e |]; [| reflexivity].
  cbv zeta. unfold completed.
  destruct (lookup "password" members) as [p |] eqn:Hp.
  - unfold check_token_and_delay. cbn [contains].
    destruct (lookup "auth_token" members) as [t |]; [| reflexivity].
    destruct (lookup "delay_between_runs_seconds" members) as [d |] eqn:Hd.
    + cbn [getitem_json]. rewrite Hd. unfold valid_delay.
      destruct (isinstance_int d), (negative d); reflexivity.
    + reflexivity.
  - cbn [setitem_json]. unfold check_token_and_delay. cbn [contains].
    rewrite !lookup_assign_other by discriminate.
    destruct (lookup "auth_token" members) as [t |]; [| reflexivity].
    destruct (lookup "delay_between_runs_seconds" members) as [d |] eqn:Hd.
    + cbn [getitem_json]. rewrite lookup_assign_other by discriminate.
      rewrite Hd. unfold valid_delay.
      destruct (isinstance_int d), (negative d); reflexivity.
    + reflexivity.
Qed.

(** A file that does not hold an object is never accepted. *)
Lemma get_config_not_object fs typed file :
  (forall members, fs file <> Parsed (JObject members)) ->
  exists e, fst (get_config fs typed file) = inl e.
Proof.
  intros Hno. unfold get_config.
  destruct (fs file) as [| | why | v]; try (eexists; reflexivity).
  destruct v as [| b | z | q | s | items | members];
    try (eexists; reflexivity).
  - cbn [contains].
    destruct (index 0 "email" s); [| eexists; reflexivity].
    destruct (index 0 "password" s); cbn [setitem_json];
      [| eexists; reflexivity].
    unfold check_token_and_delay. cbn [contains].
    destruct (index 0 "auth_token" s); [| eexists; reflexivity].
    destruct (index 0 "delay_between_runs_seconds" s);
      eexists; reflexivity.
  - cbn [contains].
    destruct (existsb _ items); [| eexists; reflexivity].
    destruct (existsb _ items); cbn [setitem_json];
      [| eexists; reflexivity].
    unfold check_token_and_delay. cbn [contains].
    destruct (existsb _ items); [| eexists; reflexivity].
    destruct (existsb _ items); eexists; reflexivity.
  - elim (Hno members). reflexivity.
Qed.

Lemma get_config_ok fs typed file v :
  fst (get_config fs typed file) = inr v ->
  exists members,
    fs file = Parsed (JObject members)
    /\ lookup "email" members <> None
    /\ lookup "auth_token" members <> None
    /\ (forall d, lookup "delay_between_runs_seconds" members = Some d ->
                  valid_delay d = true)
    /\ v = JObject (completed typed members).
Proof.
  intros H.
  destruct (fs file) as [| | why | [| b | z | q | s | items | members]]
    eqn:Hfs.
  1-9: destruct (get_config_not_object fs typed file) as (e & He);
    [intros m; rewrite Hfs; discriminate | congruence].
  exists members. split; [reflexivity |].
  rewrite (get_config_object _ _ _ _ Hfs) in H.
  destruct (lookup "email" members); [| discriminate]. cbv zeta in H.
  destruct (lookup "auth_token" members); [| discriminate].
  split; [discriminate |]. split; [discriminate |].
  destruct (lookup "delay_between_runs_seconds" members) as [d |].
  - destruct (valid_delay d) eqn:Hv; [| discriminate].
    cbn [fst] in H. injection H as <-.
    split; [intros d' [= <-]; exact Hv | reflexivity].
  - cbn [fst] in H. injection H as <-.
    split; [discriminate | reflexivity].
Qed.

(** X13. [get_config] accepts exactly the files that hold a JSON object with
    an [email], an [auth_token] and, when a delay is given, an integer
    delay that is not negative; it returns the object of the file,
    completed with the typed password and the default delay where the
    file has none. *)
Theorem get_config_accepts fs typed file v :
  fst (get_config fs typed file) = inr v <->
  exists members,
    fs file = Parsed (JObject members)
    /\ lookup "email" members <> None
    /\ lookup "auth_token" members <> None
    /\ (forall d, lookup "delay_between_runs_seconds" members = Some d ->
                  valid_delay d = true)
    /\ v = JObject (completed typed members).
Proof.
  split; [apply get_config_ok |].
  intros (members & Hfs & He & Ht & Hd & ->).
  rewrite (get_config_object _ _ _ _ Hfs).
  destruct (lookup "email" members); [| congruence]. cbv zeta.
  destruct (lookup "auth_token" members); [| congruence].
  destruct (lookup "delay_between_runs_seconds" members) as [d |].
  - rewrite (Hd d eq_refl). reflexivity.
  - reflexivity.
Qed.

(** X14. An accepted configuration keeps every entry of the file; its keys
    are those of the file, [password] and
    [delay_between_runs_seconds]; a password that the file lacks is the
    one typed, and a delay that the file lacks is the default of 60. *)
Theorem get_config_keeps_the_file fs typed file members v :
  fs file = Parsed (JObject members) ->
  fst (get_config fs typed file) = inr v ->
  exists members',
    v = JObject members'
    /\ (forall k x, lookup k members = Some x -> lookup k members' = Some x)
    /\ (forall k, lookup k members' <> None <->
                  lookup k members <> None \/ k = "password"
                  \/ k = "delay_between_runs_seconds")
    /\ (lookup "password" members = None ->
        lookup "password" members' = Some (JString typed))
    /\ (lookup "delay_between_runs_seconds" members = None ->
        lookup "delay_between_runs_seconds" members'
        = Some (JInt DEFAULT_DELAY_BETWEEN_RUNS_SECONDS)).
Proof.
  intros Hfs H. exists (completed typed members).
  split.
  { rewrite (get_config_object _ _ _ _ Hfs) in H.
    destruct (lookup "email" members); [| discriminate]. cbv zeta in H.
    destruct (lookup "auth_token" members); [| discriminate].
    destruct (lookup "delay_between_runs_seconds" members) as [d |];
      [destruct (valid_delay d); [| discriminate] |];
      cbn [fst] in H; congruence. }
  split; [| split; [| split]].
  - intros k x Hk. rewrite lookup_completed, Hk. reflexivity.
  - intros k. rewrite lookup_completed.
    destruct (lookup k members) as [x |].
    + split; [left |]; discriminate.
    + destruct (String.eqb_spec k "password") as [-> | Hp].
      * split; [right; left; reflexivity | discriminate].
      * destruct (String.eqb_spec k "delay_between_runs_seconds")
          as [-> | Hd'].
        -- split; [right; right; reflexivity | discriminate].
        -- split; [congruence |]. intros [Hc | [Hc | Hc]]; congruence.
  - intros Hp. rewrite lookup_completed, Hp. reflexivity.
  - intros Hd. rewrite lookup_completed, Hd. reflexivity.
Qed.

(** X15. The password is asked for exactly when the file holds a value that
    contains [email] and not [password], whatever the later checks say:
    a file without [auth_token] is rejected only after the user has
    typed a password. *)
Theorem get_config_prompts fs typed file :
  (snd (get_config fs typed file) = true <->
   exists v, fs file = Parsed v
             /\ contains "email" v = Some true
             /\ contains "password" v = Some false)
  /\ (forall members,
        fs file = Parsed (JObject members) ->
        lookup "email" members <> None ->
        lookup "password" members = None ->
        lookup "auth_token" members = None ->
        get_config fs typed file = (inl NoAuthTokenFound, true)).
Proof.
  split.
  - unfold get_config. destruct (fs file) as [| | why | v].
    1-3: split; [discriminate | intros (v & H & _); discriminate].
    destruct (contains "email" v) as [[|] |] eqn:He.
    2-3: split; [discriminate |];
      intros (v' & [= <-] & H & _); congruence.
    destruct (contains "password" v) as [[|] |] eqn:Hp.
    + split; [discriminate |]. intros (v' & [= <-] & _ & H). congruence.
    + split; [| destruct (setitem_json _ _ v); reflexivity].
      intros _. exists v. auto.
    + split; [discriminate |]. intros (v' & [= <-] & _ & H). congruence.
  - intros members Hfs He Hp Ht.
    rewrite (get_config_object _ _ _ _ Hfs).
    destruct (lookup "email" members); [| congruence].
    cbv zeta. rewrite Hp, Ht. reflexivity.
Qed.

(** X16. [get_config] looks at four keys only: two files whose objects agree
    on [email], [password], [auth_token] and
    [delay_between_runs_seconds] get the same verdict.  The [cameras]
    entry is never checked. *)
Theorem get_config_reads_four_keys fs fs' typed file members members' :
  fs file = Parsed (JObject members) ->
  fs' file = Parsed (JObject members') ->
  (forall k,
     In k ["email"; "password"; "auth_token"; "delay_between_runs_seconds"] ->
     lookup k members = lookup k members') ->
  verdict (get_config fs typed file) = verdict (get_config fs' typed file).
Proof.
  intros Hfs Hfs' Hsame.
  rewrite (get_config_object _ _ _ _ Hfs), (get_config_object _ _ _ _ Hfs').
  rewrite <- !Hsame by (cbn; auto).
  destruct (lookup "email" members); [| reflexivity]. cbv zeta.
  destruct (lookup "auth_token" members); [| reflexivity].
  destruct (lookup "delay_between_runs_seconds" members) as [d |];
    [destruct (valid_delay d) |]; reflexivity.
Qed.

(** The delay of an accepted configuration. *)
Lemma accepted_delay fs typed file v config :
  fst (get_config fs typed file) = inr v ->
  as_config v = Some config ->
  0 <= delay_between_runs_seconds config
  /\ (forall members,
        fs file = Parsed (JObject members) ->
        lookup "delay_between_runs_seconds" members = None ->
        delay_between_runs_seconds config
        = DEFAULT_DELAY_BETWEEN_RUNS_SECONDS).
Proof.
  intros H Hc. apply get_config_ok in H.
  destruct H as (members & Hfs & _ & _ & Hd & ->).
  unfold as_config in Hc.
  destruct (lookup "email" (completed typed members)) as [[| | | | e | |] |];
    try discriminate.
  destruct (lookup "password" (completed typed members))
    as [[| | | | p | |] |]; try discriminate.
  destruct (lookup "auth_token" (completed typed members))
    as [[| | | | t | |] |]; try discriminate.
  destruct (lookup "cameras" (completed typed members))
    as [[| | | | | | cams] |]; try discriminate.
  destruct (lookup "delay_between_runs_seconds" (completed typed members))
    as [[| | d | | | |] |] eqn:Hl; try discriminate.
  destruct (camera_ids cams); [| discriminate].
  injection Hc as <-. cbn [delay_between_runs_seconds].
  rewrite lookup_completed in Hl.
  destruct (lookup "delay_between_runs_seconds" members) as [d0 |] eqn:Hd0.
  - injection Hl as ->. specialize (Hd _ eq_refl).
    unfold valid_delay in Hd. cbn in Hd.
    split; [lia |]. intros m Hm. rewrite Hfs in Hm. injection Hm as <-.
    congruence.
  - cbn in Hl. injection Hl as <-. split; [discriminate |].
    reflexivity.
Qed.

(** X17. The delay the tester sleeps for is never negative: it is the
    integer of the file, checked to be at least 0, or the default of 60
    when the file gives none. *)
Theorem get_config_delay fs typed file v config :
  fst (get_config fs typed file) = inr v ->
  as_config v = Some config ->
  0 <= delay_between_runs_seconds config
  /\ (forall members,
        fs file = Parsed (JObject members) ->
        lookup "delay_between_runs_seconds" members = None ->
        delay_between_runs_seconds config
        = DEFAULT_DELAY_BETWEEN_RUNS_SECONDS).
Proof. exact (accepted_delay fs typed file v config). Qed.

End ConfigFile.

(** ** main *)

Lemma since_app s s' evs : trace s' = trace s ++ evs -> since s s' = evs.
Proof.
  intros H. unfold since.
  rewrite H, skipn_app, skipn_all, Nat.sub_diag. reflexivity.
Qed.

Section MainRuns.

Variable fs : string -> file_read.
Variable typed : string.
Variable int : string -> option Z.
Variable env : Env.
Variable fuel : nat.

Lemma stream_command_tester v rest verbose s e :
  In (Tester e) (snd (stream_command env fuel v rest verbose s)) ->
  exists config camera_name,
    as_config v = Some config
    /\ rest = [camera_name]
    /\ lookup camera_name (cameras config) <> None.
Proof.
  unfold stream_command.
  destruct rest as [| camera_name [| x rest]];
    [cbn; intros [H | []]; discriminate | |
     cbn; intros [H | []]; discriminate].
  destruct (as_config v) as [config |]; [| intros []].
  destruct (lookup camera_name (cameras config)) eqn:Hl;
    [| cbn; intros [H | []]; discriminate].
  intros _. exists config, camera_name.
  split; [reflexivity |]. split; [reflexivity |]. congruence.
Qed.

Lemma latency_command_tester v rest verbose s e :
  In (Tester e) (snd (latency_command int env v rest verbose s)) ->
  exists config arg runs,
    as_config v = Some config
    /\ rest = [arg]
    /\ int arg = Some runs
    /\ 0 < runs.
Proof.
  unfold latency_command.
  destruct rest as [| arg [| x rest]];
    [cbn; intros [H | []]; discriminate | |
     cbn; intros [H | []]; discriminate].
  destruct (int arg) as [runs |] eqn:Hint;
    [| cbn; intros [H | []]; discriminate].
  destruct (Z.leb_spec runs 0) as [Hle | Hlt];
    [cbn; intros [H | []]; discriminate |].
  destruct (as_config v) as [config |]; [| intros []].
  intros _. exists config, arg, runs. auto.
Qed.


Lemma stream_command_run v rest verbose s :
  let r := stream_command env fuel v rest verbose s in
  (forall e, fst r <> Uncaught e)
  /\ (forall code, fst r = Exit code -> code = 0 \/ code = -1)
  /\ (fst r = Exit 0 ->
      exists out, snd r = out ++ [Printed StoppingStreaming])
  /\ (fst r = Return ->
      exists out, snd r = out ++ [Tester (EPrint MsgNoAuthKey)]).
Proof.
  cbv zeta. unfold stream_command.
  destruct rest as [| camera_name [| x rest]].
  1,3: cbn; split; [discriminate |]; split;
    [intros c [= <-]; auto | split; discriminate].
  destruct (as_config v) as [config |];
    [| cbn; split; [discriminate |]; split; [| split]; discriminate].
  destruct (lookup camera_name (cameras config)).
  2:{ cbn; split; [discriminate |]. split;
        [intros c [= <-]; auto | split; discriminate]. }
  pose proof (stream_loop_returns env config verbose fuel camera_name 0 s)
    as Hret.
  fold (stream_repeatedly env config verbose fuel camera_name s) in Hret.
  destruct (stream_repeatedly env config verbose fuel camera_name s)
    as [[[[] | e] |] s'].
  - cbn [fst snd] in *. split; [discriminate |]. split; [discriminate |].
    split; [discriminate |]. intros _.
    destruct (Hret eq_refl) as (tr & Htr).
    rewrite (since_app s s' _ Htr), map_app.
    exists (Printed (Streaming camera_name) :: map Tester tr). reflexivity.
  - destruct e; cbn [fst snd]; (split; [discriminate |]);
      (split; [intros c [= <-]; auto |]);
      (split; [| discriminate]);
      try discriminate.
    intros _. eexists. reflexivity.
  - cbn. split; [discriminate |]. split; [| split]; discriminate.
Qed.



End MainRuns.

(** ** Scenarios of the further properties *)


Lemma report_all_or_nothing_witness :
  exists lines,
    reports (trace (snd (test_latency Scenario.latencies
                           Scenario.front_config false 1 initial_state)))
    = reports (trace initial_state) ++ lines
    /\ Forall2
         (fun c line => exists mn av md mx, line = MsgLoadTime c mn av md mx)
         (keys (cameras Scenario.front_config)) lines.
Proof.
  assert (Hnodup : NoDup (keys (cameras Scenario.front_config))).
  { repeat constructor; cbn; intuition discriminate. }
  pose proof (report_all_or_nothing Scenario.latencies Scenario.front_config
                false Hnodup 1 initial_state) as H.
  assert (E : fst (test_latency Scenario.latencies Scenario.front_config
                     false 1 initial_state) = Ok tt)
    by (vm_compute; reflexivity).
  rewrite E in H. exact H.
Defined.

Lemma latency_test_without_runs_witness :
  test_latency Scenario.latencies Scenario.front_config false 0 initial_state
  = (Raise IndexError,
     snd (get_auth_key Scenario.latencies Scenario.front_config false
            initial_state)).
Proof.
  apply (latency_test_without_runs Scenario.latencies Scenario.front_config
           false)
    with (key := Some "key"%string).
  - repeat constructor; cbn; intuition discriminate.
  - lia.
  - discriminate.
  - vm_compute. reflexivity.
Defined.

Lemma get_config_keeps_the_file_witness :
  exists members',
    fst (get_config Launch.disk "secret" "config.json") = inr (JObject members')
    /\ lookup "cameras"%string members'
       = Some (JObject [("front"%string, JString "100")])
    /\ lookup "password"%string members' = Some (JString "secret")
    /\ lookup "delay_between_runs_seconds"%string members'
       = Some (JInt DEFAULT_DELAY_BETWEEN_RUNS_SECONDS).
Proof.
  destruct (get_config_keeps_the_file Launch.disk "secret" "config.json"
              _ _ eq_refl eq_refl)
    as (members' & Hv & Hkept & _ & Hp & Hd).
  exists members'. split; [rewrite <- Hv; reflexivity |].
  split; [apply Hkept; reflexivity |].
  split; [apply Hp; reflexivity | apply Hd; reflexivity].
Defined.

Lemma get_config_reads_four_keys_witness :
  verdict (get_config Launch.disk "secret" "config.json")
  = verdict (get_config
               (fun _ => Parsed (JObject
                                   [("email"%string,
                                     JString "user@example.com");
                                    ("auth_token"%string, JString "api")]))
               "secret" "config.json").
Proof.
  eapply get_config_reads_four_keys.
  - reflexivity.
  - reflexivity.
  - intros k [<- | [<- | [<- | [<- | []]]]]; reflexivity.
Defined.

Lemma get_config_delay_witness :
  0 <= delay_between_runs_seconds Scenario.front_config
  /\ delay_between_runs_seconds Scenario.front_config
     = DEFAULT_DELAY_BETWEEN_RUNS_SECONDS.
Proof.
  destruct (get_config_delay Launch.disk "secret" "config.json" _
              Scenario.front_config eq_refl eq_refl) as [H0 Hd].
  split; [exact H0 |].
  apply (Hd _ eq_refl). reflexivity.
Defined.


